(** * neon-py decoder: a shallow embedding of [src/neon/decoder.py]

    The development follows the three layers of the decoder:
    the scanner ([re.Scanner] over the token patterns), the
    indentation pass ([tokenize]) and the recursive-descent parser
    ([parse] and the [parse] methods of the token classes).

    Conventions.
    - A text is a [string]; a character is a code point below 256.
      The Python built-ins the decoder calls ([str.strip], [str.isdigit],
      [int], [float], the [re] module) are modelled as CPython 3 defines
      them on such texts.
    - [float] values are kept as the decimal number that was read
      (sign, digits, power of ten); the rounding to binary64 that
      [float()] performs is not modelled, and a statement on the keys of
      a mapping read from a text is made for keys that are no floats.
    - The interpreter's configurable limit on the number of digits
      [int()] accepts is not modelled; a statement that depends on it
      is made for texts within the default limit, [int_max_str_digits].
    - The interpreter's limit on the depth of recursion is not
      modelled; a statement that depends on it is made for streams
      nested no deeper than [nesting_limit].
    - [tokenize] is a generator in the source; it is modelled by the list
      of the tokens it yields, which the parser consumes from the left. *)

From Stdlib Require Import String Ascii List ZArith NArith Lia Bool.
Import ListNotations.
Local Open Scope string_scope.
Local Open Scope list_scope.
Set Warnings "-register-all".

(** ** Python runtime: characters and strings *)

Definition code (c : ascii) : nat := nat_of_ascii c.

Definition in_range (lo hi : nat) (c : ascii) : bool :=
  (lo <=? code c)%nat && (code c <=? hi)%nat.

Definition is_char (n : nat) (c : ascii) : bool := (code c =? n)%nat.

(** [one_of cs c]: [c] is one of the characters of the text [cs]. *)
Fixpoint one_of (cs : string) (c : ascii) : bool :=
  match cs with
  | EmptyString => false
  | String d cs' => Ascii.eqb c d || one_of cs' c
  end.

(** [str.isspace] on one character (also what [str.strip()] removes and
    what [\s] matches under [re.UNICODE]): TAB..CR, FS..US, space, NEL,
    NBSP. *)
Definition py_isspace (c : ascii) : bool :=
  in_range 9 13 c || in_range 28 32 c || is_char 133 c || is_char 160 c.

(** The decimal digits 0..9. *)
Definition is_decimal (c : ascii) : bool := in_range 48 57 c.

(** [str.isdigit] on one character: the decimal digits and the
    superscript digits U+00B2, U+00B3, U+00B9. *)
Definition py_isdigit_char (c : ascii) : bool :=
  is_decimal c || is_char 178 c || is_char 179 c || is_char 185 c.

Fixpoint str_all (p : ascii -> bool) (s : string) : bool :=
  match s with
  | EmptyString => true
  | String c s' => p c && str_all p s'
  end.

(** [s.isdigit()]: non-empty and every character is a digit. *)
Definition isdigit (s : string) : bool :=
  match s with
  | EmptyString => false
  | _ => str_all py_isdigit_char s
  end.

Fixpoint lstrip_by (p : ascii -> bool) (s : string) : string :=
  match s with
  | EmptyString => EmptyString
  | String c s' => if p c then lstrip_by p s' else s
  end.

Fixpoint rstrip_by (p : ascii -> bool) (s : string) : string :=
  match s with
  | EmptyString => EmptyString
  | String c s' =>
      match rstrip_by p s' with
      | EmptyString => if p c then EmptyString else String c EmptyString
      | t => String c t
      end
  end.

(** [s.strip()] and [s.strip(chars)]. *)
Definition strip_by (p : ascii -> bool) (s : string) : string :=
  rstrip_by p (lstrip_by p s).

Definition strip (s : string) : string := strip_by py_isspace s.

Definition strip_chars (chars : string) (s : string) : string :=
  strip_by (one_of chars) s.

(** [len(s)]. *)
Definition len (s : string) : Z := Z.of_nat (String.length s).

(** [sep.join(parts)]. *)
Fixpoint join (sep : string) (parts : list string) : string :=
  match parts with
  | [] => ""
  | [p] => p
  | p :: ps => p ++ sep ++ join sep ps
  end.

(** ** Python runtime: [int()] and [float()] *)

(** A float as it was read: a signed decimal [mant * 10 ^ exp10], an
    infinity or a NaN. *)
Inductive pyfloat : Type :=
| FDec (neg : bool) (mant : N) (exp10 : Z)
| FInf (neg : bool)
| FNan.

Definition digit_value (c : ascii) : N := N.of_nat (code c - 48).

(** Value of a run of decimal digits, most significant first. *)
Fixpoint digits_value (acc : N) (s : string) : N :=
  match s with
  | EmptyString => acc
  | String c s' => digits_value (10 * acc + digit_value c)%N s'
  end.

(** Splits off the longest leading run of decimal digits. *)
Fixpoint span_digits (s : string) : string * string :=
  match s with
  | EmptyString => (EmptyString, EmptyString)
  | String c s' =>
      if is_decimal c
      then let (d, r) := span_digits s' in (String c d, r)
      else (EmptyString, s)
  end.

(** Digit grouping: an underscore is accepted only between two decimal
    digits, and is dropped. [prev] is the character before [s]. *)
Fixpoint drop_underscores (prev : option ascii) (s : string) : option string :=
  match s with
  | EmptyString =>
      match prev with
      | Some p => if is_char 95 p then None else Some EmptyString
      | None => Some EmptyString
      end
  | String c s' =>
      if is_char 95 c then
        match prev with
        | Some p => if is_decimal p then drop_underscores (Some c) s' else None
        | None => None
        end
      else
        let bad := match prev with
                   | Some p => is_char 95 p && negb (is_decimal c)
                   | None => false
                   end in
        if bad then None
        else option_map (String c) (drop_underscores (Some c) s')
  end.

(** The characters [int()] and [float()] skip around a number:
    TAB..CR and space, and the non-ASCII white space NEL and NBSP. *)
Definition number_space (c : ascii) : bool :=
  in_range 9 13 c || is_char 32 c || is_char 133 c || is_char 160 c.

Definition split_sign (s : string) : bool * string :=
  match s with
  | String c s' =>
      if is_char 45 c then (true, s')
      else if is_char 43 c then (false, s')
      else (false, s)
  | EmptyString => (false, s)
  end.

Definition lower (c : ascii) : ascii :=
  if in_range 65 90 c then ascii_of_nat (code c + 32) else c.

Fixpoint lower_str (s : string) : string :=
  match s with
  | EmptyString => EmptyString
  | String c s' => String (lower c) (lower_str s')
  end.

Definition signed (neg : bool) (n : N) : Z :=
  if neg then (- Z.of_N n)%Z else Z.of_N n.

(** The exponent part: empty, or [e]/[E], an optional sign and at least
    one digit, up to the end of the text. *)
Definition float_exponent (s : string) : option Z :=
  match s with
  | EmptyString => Some 0%Z
  | String c s' =>
      if is_char 101 c || is_char 69 c then
        let (neg, s1) := split_sign s' in
        match span_digits s1 with
        | (String d ds, EmptyString) =>
            Some (signed neg (digits_value 0 (String d ds)))
        | _ => None
        end
      else None
  end.

(** An unsigned decimal number: digits with an optional point, at least
    one digit in all, and an optional exponent. *)
Definition float_decimal (neg : bool) (s : string) : option pyfloat :=
  let (ip, r1) := span_digits s in
  let (fp, r2) :=
    match r1 with
    | String c r1' => if is_char 46 c then span_digits r1' else (EmptyString, r1)
    | EmptyString => (EmptyString, r1)
    end in
  match (ip ++ fp)%string with
  | EmptyString => None
  | ds =>
      match float_exponent r2 with
      | Some e => Some (FDec neg (digits_value 0 ds)
                          (e - Z.of_nat (String.length fp))%Z)
      | None => None
      end
  end.

(** [float(s)] when it succeeds, [None] when it raises [ValueError]. *)
Definition py_float (s : string) : option pyfloat :=
  match drop_underscores None s with
  | None => None
  | Some s1 =>
      let (neg, s2) := split_sign (strip_by number_space s1) in
      let w := lower_str s2 in
      if (w =? "inf") || (w =? "infinity") then Some (FInf neg)
      else if w =? "nan" then Some FNan
      else float_decimal neg s2
  end.

(** [int(s)] when it succeeds, [None] when it raises [ValueError]. *)
Definition py_int (s : string) : option Z :=
  match drop_underscores None s with
  | None => None
  | Some s1 =>
      let (neg, s2) := split_sign (strip_by number_space s1) in
      match span_digits s2 with
      | (String d ds, EmptyString) =>
          Some (signed neg (digits_value 0 (String d ds)))
      | _ => None
      end
  end.

(** ** Data model *)

(** The values the decoder builds: the scalars, [list], and the two
    mappings the source uses ([OrderedDict] and the built-in [dict]);
    both keep their items in insertion order. *)
Inductive pyval : Type :=
| PNone
| PBool (b : bool)
| PInt (z : Z)
| PFloat (f : pyfloat)
| PStr (s : string)
| PList (items : list pyval)
| POrderedDict (items : list (pyval * pyval))
| PDict (items : list (pyval * pyval)).

(** The token classes. Modelled from the spec: [classproperty] of
    [utils.py], which makes [id] of a token class and of its instances,
    is not among the sources; by the spec the identifiers of the token
    kinds are the class names, which [id_name] gives. *)
Inductive token_id : Type :=
| IdString | IdInteger | IdFloat | IdBoolean | IdNoneValue | IdLiteral
| IdComma | IdColon | IdEqualSign | IdHyphen
| IdLeftRound | IdRightRound | IdLeftSquare | IdRightSquare
| IdLeftBrace | IdRightBrace
| IdComment | IdIndent | IdDedent | IdNewLine | IdWhiteSpace
| IdUnknown | IdEnd.

Definition id_name (i : token_id) : string :=
  match i with
  | IdString => "String" | IdInteger => "Integer" | IdFloat => "Float"
  | IdBoolean => "Boolean" | IdNoneValue => "NoneValue"
  | IdLiteral => "Literal" | IdComma => "Comma" | IdColon => "Colon"
  | IdEqualSign => "EqualSign" | IdHyphen => "Hyphen"
  | IdLeftRound => "LeftRound" | IdRightRound => "RightRound"
  | IdLeftSquare => "LeftSquare" | IdRightSquare => "RightSquare"
  | IdLeftBrace => "LeftBrace" | IdRightBrace => "RightBrace"
  | IdComment => "Comment" | IdIndent => "Indent" | IdDedent => "Dedent"
  | IdNewLine => "NewLine" | IdWhiteSpace => "WhiteSpace"
  | IdUnknown => "Unknown" | IdEnd => "End"
  end.

Definition id_eqb (a b : token_id) : bool := id_name a =? id_name b.

(** [Token(value=None, line=None)]: [line] is [None] until [tokenize]
    stamps it. *)
Record token : Type := Token {
  id : token_id;
  value : pyval;
  line : option Z
}.

(** The exceptions that can leave the decoder. Modelled from the spec:
    the module [errors] is not among the sources; its [TokenError] is
    the spec's lexical error, which carries the unmatched text, and its
    [SyntaxError] the spec's syntax error, which carries the token, the
    expected kinds joined for display and the token's line.
    [TokenError text] and [SyntaxError tok tok_msg line] hold the
    arguments the source formats the message with. The other
    exceptions are Python's own. *)
Inductive exn : Type :=
| TokenError (text : string)
| SyntaxError (tok : token) (tok_msg : string) (line : option Z)
| StopIteration
| TypeError
| ValueError
| IndexError
| NameError.

Inductive result (A : Type) : Type :=
| Ok (a : A)
| Raise (e : exn)
| OutOfFuel.
Arguments Ok {A} a.
Arguments Raise {A} e.
Arguments OutOfFuel {A}.

Definition bind {A B : Type} (r : result A) (f : A -> result B) : result B :=
  match r with
  | Ok a => f a
  | Raise e => Raise e
  | OutOfFuel => OutOfFuel
  end.

Notation "x <- r ;; k" := (bind r (fun x => k))
  (at level 61, r at next level, right associativity).
Notation "' p <- r ;; k" := (bind r (fun p => k))
  (at level 61, p pattern, r at next level, right associativity).

(** *** Mappings *)

(** A number as a dictionary key: [m * 10 ^ e]. *)
Definition key_number (k : pyval) : option (Z * Z) :=
  match k with
  | PBool b => Some (if b then 1%Z else 0%Z, 0%Z)
  | PInt z => Some (z, 0%Z)
  | PFloat (FDec neg m e) => Some (signed neg m, e)
  | _ => None
  end.

(** [k1 == k2] for two keys, as the dictionary lookup sees it: numbers
    compare by value across [bool], [int] and [float], a NaN equals
    nothing, values of different kinds differ. *)
Definition key_eqb (k1 k2 : pyval) : bool :=
  match key_number k1, key_number k2 with
  | Some (m1, e1), Some (m2, e2) =>
      let e := Z.min e1 e2 in
      (m1 * 10 ^ (e1 - e) =? m2 * 10 ^ (e2 - e))%Z
  | _, _ =>
      match k1, k2 with
      | PNone, PNone => true
      | PStr s1, PStr s2 => (s1 =? s2)%string
      | PFloat (FInf n1), PFloat (FInf n2) => Bool.eqb n1 n2
      | _, _ => false
      end
  end.

Definition hashable (k : pyval) : bool :=
  match k with
  | PList _ | POrderedDict _ | PDict _ => false
  | _ => true
  end.

(** The item update of [data[key] = v] on a present or absent key: a
    present key keeps its place (and the key object first stored), an
    absent one is appended. *)
Fixpoint items_set (items : list (pyval * pyval)) (key v : pyval)
  : list (pyval * pyval) :=
  match items with
  | [] => [(key, v)]
  | (k, w) :: rest =>
      if key_eqb k key then (k, v) :: rest
      else (k, w) :: items_set rest key v
  end.

(** [data[key] = v]: [TypeError] on an unhashable key. *)
Definition setitem (items : list (pyval * pyval)) (key v : pyval)
  : result (list (pyval * pyval)) :=
  if hashable key then Ok (items_set items key v) else Raise TypeError.

(** ** The [re] module *)

(** The regular expressions the token patterns use. *)
Inductive regex : Type :=
| Eps
| Class (p : ascii -> bool)      (* one character in a class *)
| Cat (r1 r2 : regex)
| Alt (r1 r2 : regex)            (* r1 | r2, r1 tried first *)
| Star (r : regex)               (* r*, greedy *)
| Bol                            (* ^ under MULTILINE *)
| Eol                            (* $ under MULTILINE *)
| NotAhead (r : regex).          (* (?! r) *)

Definition Plus (r : regex) : regex := Cat r (Star r).
Definition Chr (c : ascii) : regex := Class (Ascii.eqb c).
Definition newline : ascii := ascii_of_nat 10.

(** The rounds of a greedy star whose body is matched by [body]: one
    more round is tried before stopping, and a round has to consume a
    character. The rounds are counted down from [n], which starts as
    the length of the text: no run of non-empty rounds is longer. *)
Fixpoint rounds {A : Type}
  (body : option ascii -> string -> (option ascii -> string -> option A) -> option A)
  (k : option ascii -> string -> option A)
  (n : nat) (prev : option ascii) (s : string) : option A :=
  match n with
  | O => k prev s
  | S n' =>
      match body prev s
              (fun prev' s' =>
                 if (String.length s' <? String.length s)%nat
                 then rounds body k n' prev' s' else None) with
      | Some m => Some m
      | None => k prev s
      end
  end.

(** Backtracking matcher. [prev] is the character before the current
    position ([None] at the start of the text), [s] the text from the
    current position on, [k] what has to match after [r]. The result is
    the first match found in the order Python's engine tries them. *)
Fixpoint re_match {A : Type} (r : regex) (prev : option ascii) (s : string)
  (k : option ascii -> string -> option A) : option A :=
  match r with
  | Eps => k prev s
  | Class p =>
      match s with
      | String c s' => if p c then k (Some c) s' else None
      | EmptyString => None
      end
  | Cat r1 r2 => re_match r1 prev s (fun prev' s' => re_match r2 prev' s' k)
  | Alt r1 r2 =>
      match re_match r1 prev s k with
      | Some m => Some m
      | None => re_match r2 prev s k
      end
  | Star r1 =>
      rounds (fun prev' s' k' => re_match r1 prev' s' k') k (String.length s) prev s
  | Bol =>
      match prev with
      | None => k prev s
      | Some c => if Ascii.eqb c newline then k prev s else None
      end
  | Eol =>
      match s with
      | EmptyString => k prev s
      | String c _ => if Ascii.eqb c newline then k prev s else None
      end
  | NotAhead r1 =>
      match re_match r1 prev s (fun _ _ => Some tt) with
      | Some _ => None
      | None => k prev s
      end
  end.

(** [pattern.match] at the current position: the character before the
    end of the match and the text after it. *)
Definition match_at (r : regex) (prev : option ascii) (s : string)
  : option (option ascii * string) :=
  re_match r prev s (fun prev' s' => Some (prev', s')).

(** ** Token classes: patterns and [do] actions *)

Definition dquote : ascii := ascii_of_nat 34.
Definition squote : ascii := ascii_of_nat 39.

(** [\x00-\x20]. *)
Definition ctrl_or_space (c : ascii) : bool := in_range 0 32 c.

(** [[\t\ ]]. *)
Definition blank (c : ascii) : bool := is_char 9 c || is_char 32 c.

(** [.] (without DOTALL). *)
Definition dot (c : ascii) : bool := negb (Ascii.eqb c newline).

(** The pattern of [String], with Q for the double quote:
    [(?: Q[^Q\n]*Q | '[^'\n]*' )] *)
Definition String_re : regex :=
  Alt (Cat (Chr dquote)
         (Cat (Star (Class (fun c => negb (Ascii.eqb c dquote || Ascii.eqb c newline))))
              (Chr dquote)))
      (Cat (Chr squote)
         (Cat (Star (Class (fun c => negb (Ascii.eqb c squote || Ascii.eqb c newline))))
              (Chr squote))).

(** The character classes of the pattern of [Literal], with Q for the
    double quote. First: [[^#Q',:=[\]{}()\x00-\x20!`-]] *)
Definition literal_first (c : ascii) : bool :=
  negb (one_of "#',:=[]{}()!`-" c || Ascii.eqb c dquote || ctrl_or_space c).

(** [[^Q',\]})\s]] *)
Definition literal_second (c : ascii) : bool :=
  negb (one_of "',]})" c || Ascii.eqb c dquote || py_isspace c).

(** [[^,:=\]})(\x00-\x20]] *)
Definition literal_inner (c : ascii) : bool :=
  negb (one_of ",:=]})(" c || ctrl_or_space c).

(** [[^#,:=\]})(\x00-\x20]] *)
Definition literal_after_blank (c : ascii) : bool :=
  negb (one_of "#,:=]})(" c || ctrl_or_space c).

(** [[\s,\]})]] *)
Definition literal_colon_stop (c : ascii) : bool :=
  py_isspace c || one_of ",]})" c.

(** [(?: [^#Q',:=[\]{}()\x00-\x20!`-] | [:-][^Q',\]})\s] )
    (?: [^,:=\]})(\x00-\x20]+ | :(?! [\s,\]})] | $ ) |
        [\ \t]+ [^#,:=\]})(\x00-\x20] )*] *)
Definition Literal_re : regex :=
  Cat (Alt (Class literal_first)
           (Cat (Class (one_of ":-")) (Class literal_second)))
      (Star (Alt (Plus (Class literal_inner))
            (Alt (Cat (Chr ":") (NotAhead (Alt (Class literal_colon_stop) Eol)))
                 (Cat (Plus (Class blank)) (Class literal_after_blank))))).

Definition Comment_re : regex := Cat (Chr "#") (Star (Class dot)).
Definition Indent_re : regex := Cat Bol (Plus (Class blank)).
Definition NewLine_re : regex := Plus (Chr newline).
Definition WhiteSpace_re : regex := Plus (Class blank).
Definition Unknown_re : regex := Star (Class dot).

(** [Token.do]: [cls(string)]. *)
Definition Token_do (cls : token_id) (string : string) : result token :=
  Ok (Token cls (PStr string) None).

(** [String.do]: the quote the text starts with is stripped from both
    ends. *)
Definition String_do (string : string) : result token :=
  match string with
  | String c _ =>
      let string := if Ascii.eqb c dquote
                    then strip_chars (String dquote "") string
                    else strip_chars (String squote "") string in
      Ok (Token IdString (PStr string) None)
  | EmptyString => Raise IndexError
  end.

(** [Integer.convert]: [int(string)] if [string.isdigit()], else
    [None]. *)
Definition Integer_convert (string : string) : result (option pyval) :=
  if isdigit string then
    match py_int string with
    | Some z => Ok (Some (PInt z))
    | None => Raise ValueError
    end
  else Ok None.

(** [Float.convert]: [float(string)], [None] on [ValueError]. *)
Definition Float_convert (string : string) : result (option pyval) :=
  match py_float string with
  | Some f => Ok (Some (PFloat f))
  | None => Ok None
  end.

Definition Boolean_mapping : list (bool * list string) :=
  [ (true, ["true"; "True"; "TRUE"; "yes"; "Yes"; "YES"]);
    (false, ["false"; "False"; "FALSE"; "no"; "No"; "NO"]) ].

(** [string in alternatives]. *)
Definition str_in (string : String.string) (alternatives : list String.string)
  : bool :=
  existsb (String.eqb string) alternatives.

(** [Boolean.convert]: the value whose alternatives hold [string]. *)
Fixpoint Boolean_lookup (items : list (bool * list String.string))
  (string : String.string)
  : option pyval :=
  match items with
  | [] => None
  | (value, alternatives) :: rest =>
      if str_in string alternatives then Some (PBool value)
      else Boolean_lookup rest string
  end.

Definition Boolean_convert (string : string) : result (option pyval) :=
  Ok (Boolean_lookup Boolean_mapping string).

(** The loop of [Literal.do] over [[Integer, Float, Boolean]]: the
    first conversion that does not return [None] makes the token. *)
Fixpoint Literal_for
  (types : list (token_id * (String.string -> result (option pyval))))
  (string : String.string) : result (option token) :=
  match types with
  | [] => Ok None
  | (Type_, convert) :: rest =>
      value <- convert string ;;
      match value with
      | Some v => Ok (Some (Token Type_ v None))
      | None => Literal_for rest string
      end
  end.

Definition Literal_do (string : string) : result token :=
  found <- Literal_for [ (IdInteger, Integer_convert);
                         (IdFloat, Float_convert);
                         (IdBoolean, Boolean_convert) ] string ;;
  match found with
  | Some tok => Ok tok
  | None =>
      if str_in string ["null"; "Null"; "NULL"]
      then Ok (Token IdNoneValue PNone None)
      else Ok (Token IdString (PStr string) None)
  end.

(** [Symbol.do]: [cls()]. *)
Definition Symbol_do (cls : token_id) (string : string) : result token :=
  Ok (Token cls PNone None).

(** [Indent.do] and [NewLine.do]: [cls(len(string))]. *)
Definition Indent_do (string : string) : result token :=
  Ok (Token IdIndent (PInt (len string)) None).

Definition NewLine_do (string : string) : result token :=
  Ok (Token IdNewLine (PInt (len string)) None).

(** [Unknown.do] raises [TokenError] with the matched text. *)
Definition Unknown_do (string : string) : result token :=
  Raise (TokenError string).

(** A registered token class: its name, its pattern ([None] when the
    class has no pattern) and its [do] ([None] for the classes whose
    matches are ignored). *)
Record token_class : Type := TokenClass {
  cls_id : token_id;
  cls_re : option regex;
  cls_do : option (string -> result token)
}.

(** [TOKENS], in the order of the [@token] registrations. *)
Definition TOKENS : list token_class :=
  [ TokenClass IdString (Some String_re) (Some String_do);
    TokenClass IdInteger None (Some (Token_do IdInteger));
    TokenClass IdFloat None (Some (Token_do IdFloat));
    TokenClass IdBoolean None (Some (Token_do IdBoolean));
    TokenClass IdNoneValue None (Some (Token_do IdNoneValue));
    TokenClass IdLiteral (Some Literal_re) (Some Literal_do);
    TokenClass IdComma (Some (Chr ",")) (Some (Symbol_do IdComma));
    TokenClass IdColon (Some (Chr ":")) (Some (Symbol_do IdColon));
    TokenClass IdEqualSign (Some (Chr "=")) (Some (Symbol_do IdEqualSign));
    TokenClass IdHyphen (Some (Chr "-")) (Some (Symbol_do IdHyphen));
    TokenClass IdLeftRound (Some (Chr "(")) (Some (Symbol_do IdLeftRound));
    TokenClass IdRightRound (Some (Chr ")")) (Some (Symbol_do IdRightRound));
    TokenClass IdLeftSquare (Some (Chr "[")) (Some (Symbol_do IdLeftSquare));
    TokenClass IdRightSquare (Some (Chr "]")) (Some (Symbol_do IdRightSquare));
    TokenClass IdLeftBrace (Some (Chr "{")) (Some (Symbol_do IdLeftBrace));
    TokenClass IdRightBrace (Some (Chr "}")) (Some (Symbol_do IdRightBrace));
    TokenClass IdComment (Some Comment_re) None;
    TokenClass IdIndent (Some Indent_re) (Some Indent_do);
    TokenClass IdDedent None (Some (Token_do IdDedent));
    TokenClass IdNewLine (Some NewLine_re) (Some NewLine_do);
    TokenClass IdWhiteSpace (Some WhiteSpace_re) None;
    TokenClass IdUnknown (Some Unknown_re) (Some Unknown_do);
    TokenClass IdEnd None (Some (Token_do IdEnd)) ].

(** ** [re.Scanner] *)

Definition lexicon : Type := list (regex * option (string -> result token)).

(** [TokenClass.getscan() for TokenClass in TOKENS if TokenClass.re is
    not None]. *)
Fixpoint getscans (classes : list token_class) : lexicon :=
  match classes with
  | [] => []
  | c :: rest =>
      match cls_re c with
      | Some r => (r, cls_do c) :: getscans rest
      | None => getscans rest
      end
  end.

Definition _scanner : lexicon := getscans TOKENS.

(** One [match()] of the scanner: the patterns are alternatives in the
    order of the lexicon, and the first that matches wins. *)
Fixpoint first_match (lex : lexicon) (prev : option ascii) (s : string)
  : option (option (string -> result token) * option ascii * string) :=
  match lex with
  | [] => None
  | (r, action) :: lex' =>
      match match_at r prev s with
      | Some (prev', rest) => Some (action, prev', rest)
      | None => first_match lex' prev s
      end
  end.

(** The loop of [Scanner.scan]: stops when nothing matches or the match
    is empty; an action that is not callable drops the match. [acc] is
    the source's [result] list; the loop returns it with the unscanned
    remainder. Every round
    consumes a character, which [fuel] counts. *)
Fixpoint scan_loop (lex : lexicon) (fuel : nat) (prev : option ascii)
  (s : string) (acc : list token) : result (list token * string) :=
  match fuel with
  | O => OutOfFuel
  | S fuel' =>
      match first_match lex prev s with
      | None => Ok (acc, s)
      | Some (action, prev', rest) =>
          let j := (String.length s - String.length rest)%nat in
          if (j =? 0)%nat then Ok (acc, s)
          else
            match action with
            | None => scan_loop lex fuel' prev' rest acc
            | Some do =>
                tok <- do (substring 0 j s) ;;
                scan_loop lex fuel' prev' rest (acc ++ [tok])
            end
      end
  end.

Definition scan (lex : lexicon) (s : string) : result (list token * string) :=
  scan_loop lex (S (String.length s)) None s [].

(** ** [tokenize]: line numbers and Indent/Dedent tokens *)

(** Modelled from the spec: [lstripped] of [utils.py] is not among the
    sources; the position counter is ``initialized to the count of
    characters stripped from the very start of the input'', so
    [lstripped s] is the white space [s] starts with. *)
Fixpoint lstripped (s : string) : string :=
  match s with
  | EmptyString => EmptyString
  | String c s' => if py_isspace c then String c (lstripped s') else EmptyString
  end.

(** The [int] a token carries. The scanner builds every Indent and
    NewLine token with one ([Indent_do], [NewLine_do]); arithmetic on
    any other value is taken to raise [TypeError]. *)
Definition int_value (tok : token) : result Z :=
  match value tok with
  | PInt z => Ok z
  | _ => Raise TypeError
  end.

(** The local variables of [tokenize]. The head of [indent_stack] is
    the top of the stack, [indent_stack[-1]] in the source. *)
Record tokenize_state : Type := TokenizeState {
  position : Z;
  curr_indent : Z;
  indent_stack : list Z;
  newline_last : bool
}.

Definition Dedent (width : Z) (line : Z) : token :=
  Token IdDedent (PInt width) (Some line).

Definition NewLine (line : Z) : token := Token IdNewLine PNone (Some line).

Definition End : token := Token IdEnd PNone None.

(** [while indent_stack[-1] > curr_indent: yield Dedent(indent_stack.pop(),
    line=position); yield NewLine(line=position)]: the stack left and
    the tokens yielded. *)
Fixpoint dedent_while (indent_stack : list Z) (curr_indent position : Z)
  : result (list Z * list token) :=
  match indent_stack with
  | [] => Raise IndexError
  | top :: below =>
      if (top >? curr_indent)%Z then
        '(stack, out) <- dedent_while below curr_indent position ;;
        Ok (stack, Dedent top position :: NewLine position :: out)
      else Ok (indent_stack, [])
  end.

(** One round of [for tok in tokens]: the new state and the tokens
    yielded in that round. *)
Definition tokenize_step (st : tokenize_state) (tok : token)
  : result (tokenize_state * list token) :=
  (* indentation of the line and its change *)
  '(indent_change, curr_indent) <-
     (if newline_last st then
        indent <- (if id_eqb (id tok) IdIndent then int_value tok else Ok 0%Z) ;;
        if negb (indent =? curr_indent st)%Z
        then Ok ((indent - curr_indent st)%Z, indent)
        else Ok (0%Z, curr_indent st)
      else Ok (0%Z, curr_indent st)) ;;
  (* position of the token *)
  '(position, tok, newline_last) <-
     (if id_eqb (id tok) IdNewLine then
        lines <- int_value tok ;;
        Ok ((position st + lines)%Z, tok, true)
      else
        Ok (position st, Token (id tok) (value tok) (Some (position st)), false)) ;;
  (* dedents *)
  '(indent_stack, dedents) <-
     (if (indent_change <? 0)%Z
      then dedent_while (indent_stack st) curr_indent position
      else Ok (indent_stack st, [])) ;;
  (* indent *)
  let '(indent_stack, indents) :=
     if (indent_change >? 0)%Z
     then (curr_indent :: indent_stack, [tok])
     else (indent_stack, []) in
  let others := if negb (id_eqb (id tok) IdIndent) then [tok] else [] in
  Ok (TokenizeState position curr_indent indent_stack newline_last,
      dedents ++ indents ++ others).

(** The [for tok in tokens] loop: the state it ends in and all the
    tokens yielded. *)
Fixpoint tokenize_for (st : tokenize_state) (tokens : list token)
  : result (tokenize_state * list token) :=
  match tokens with
  | [] => Ok (st, [])
  | tok :: rest =>
      '(st', out) <- tokenize_step st tok ;;
      '(st'', out') <- tokenize_for st' rest ;;
      Ok (st'', out ++ out')
  end.

(** The state before the loop: [curr_indent = 0], [indent_stack = [0]],
    [newline_last = False]. *)
Definition tokenize_init (position : Z) : tokenize_state :=
  TokenizeState position 0 [0%Z] false.

(** [tokenize(input_string)]: the tokens of the loop, then [End()]. *)
Definition tokenize (input_string : string) : result (list token) :=
  let position := (len (lstripped input_string) + 1)%Z in
  '(tokens, remainder) <- scan _scanner (strip input_string) ;;
  '(_, out) <- tokenize_for (tokenize_init position) tokens ;;
  Ok (out ++ [End]).

(** ** The parser *)

(** The [allowed] argument of [advance]: absent, one token class, or a
    tuple of classes. *)
Inductive allowed : Type :=
| AnyToken
| OneClass (cls : token_id)
| Classes (clss : list token_id).

(** [all(tok.id != Token.id for Token in allowed_tokens)] together with
    what is left of [allowed_tokens] when it is an iterator: [all] stops
    at the first class that is equal. *)
Fixpoint all_differ (tok_id : token_id) (allowed_tokens : list token_id)
  : bool * list token_id :=
  match allowed_tokens with
  | [] => (true, [])
  | cls :: rest =>
      if negb (id_eqb tok_id cls) then all_differ tok_id rest
      else (false, rest)
  end.

(** [advance(tokens, allowed)]: the token pulled and the rest of the
    stream. A class is not iterable, so [iter(allowed)] raises
    [TypeError] for one class and [allowed_tokens] is the list
    [[allowed]], which the message can walk again; for a tuple
    [allowed_tokens] is an iterator, and the message is joined from
    what [all] has left of it. *)
Definition advance (tokens : list token) (allowed : allowed)
  : result (token * list token) :=
  match tokens with
  | [] => Raise StopIteration
  | tok :: tokens =>
      match allowed with
      | AnyToken => Ok (tok, tokens)
      | OneClass cls =>
          let allowed_tokens := [cls] in
          if fst (all_differ (id tok) allowed_tokens) then
            let tok_msg := join " or " (map id_name allowed_tokens) in
            Raise (SyntaxError tok tok_msg (line tok))
          else Ok (tok, tokens)
      | Classes clss =>
          let (differ, allowed_tokens) := all_differ (id tok) clss in
          if differ then
            let tok_msg := join " or " (map id_name allowed_tokens) in
            Raise (SyntaxError tok tok_msg (line tok))
          else Ok (tok, tokens)
      end
  end.

(** The [parse] methods. [Token_parse fuel self tokens] is
    [self.parse(tokens)]: the value built and the stream left. The
    [_while] functions are the [while] loops of the methods, entered
    with the loop variables [data] and [tok]. Every call and every loop
    round takes one unit of [fuel]. *)
Fixpoint Token_parse (fuel : nat) (self : token) (tokens : list token)
  {struct fuel} : result (pyval * list token) :=
  match fuel with
  | O => OutOfFuel
  | S fuel =>
      match id self with
      | IdLeftRound =>
          '(tok, tokens) <- advance tokens AnyToken ;;
          LeftRound_while fuel [] tok tokens
      | IdLeftSquare =>
          '(tok, tokens) <- advance tokens AnyToken ;;
          LeftSquare_while fuel [] tok tokens
      | IdLeftBrace =>
          '(tok, tokens) <- advance tokens AnyToken ;;
          LeftBrace_while fuel [] tok tokens
      | IdIndent =>
          (* tok = advance(tokens); tokens = itertools.chain([tok], tokens) *)
          '(tok, tokens) <- advance tokens AnyToken ;;
          let tokens := tok :: tokens in
          if id_eqb (id tok) IdHyphen then
            (* self._parse_list(tokens) *)
            '(tok, tokens) <- advance tokens AnyToken ;;
            Indent_list_while fuel [] tok tokens
          else
            (* self._parse_dict(tokens) *)
            '(tok, tokens) <- advance tokens AnyToken ;;
            Indent_dict_while fuel [] tok tokens
      | _ => Ok (value self, tokens)
      end
  end

with LeftRound_while (fuel : nat) (data : list (pyval * pyval)) (tok : token)
  (tokens : list token) {struct fuel} : result (pyval * list token) :=
  match fuel with
  | O => OutOfFuel
  | S fuel =>
      if negb (id_eqb (id tok) IdRightRound) then
        '(key, tokens) <- Token_parse fuel tok tokens ;;
        '(_, tokens) <- advance tokens (OneClass IdEqualSign) ;;
        '(tok, tokens) <- advance tokens AnyToken ;;
        '(v, tokens) <- Token_parse fuel tok tokens ;;
        data <- setitem data key v ;;
        '(tok, tokens) <- advance tokens (Classes [IdComma; IdRightRound]) ;;
        '(tok, tokens) <- (if id_eqb (id tok) IdComma
                           then advance tokens AnyToken
                           else Ok (tok, tokens)) ;;
        LeftRound_while fuel data tok tokens
      else Ok (POrderedDict data, tokens)
  end

with LeftSquare_while (fuel : nat) (data : list pyval) (tok : token)
  (tokens : list token) {struct fuel} : result (pyval * list token) :=
  match fuel with
  | O => OutOfFuel
  | S fuel =>
      if negb (id_eqb (id tok) IdRightSquare) then
        '(v, tokens) <- Token_parse fuel tok tokens ;;
        let data := data ++ [v] in
        '(tok, tokens) <- advance tokens (Classes [IdComma; IdRightSquare]) ;;
        '(tok, tokens) <- (if id_eqb (id tok) IdComma
                           then advance tokens AnyToken
                           else Ok (tok, tokens)) ;;
        LeftSquare_while fuel data tok tokens
      else Ok (PList data, tokens)
  end

with LeftBrace_while (fuel : nat) (data : list (pyval * pyval)) (tok : token)
  (tokens : list token) {struct fuel} : result (pyval * list token) :=
  match fuel with
  | O => OutOfFuel
  | S fuel =>
      if negb (id_eqb (id tok) IdRightBrace) then
        '(key, tokens) <- Token_parse fuel tok tokens ;;
        '(_, tokens) <- advance tokens (OneClass IdColon) ;;
        '(tok, tokens) <- advance tokens AnyToken ;;
        '(v, tokens) <- Token_parse fuel tok tokens ;;
        data <- setitem data key v ;;
        '(tok, tokens) <- advance tokens (Classes [IdComma; IdRightBrace]) ;;
        '(tok, tokens) <- (if id_eqb (id tok) IdComma
                           then advance tokens AnyToken
                           else Ok (tok, tokens)) ;;
        LeftBrace_while fuel data tok tokens
      else Ok (POrderedDict data, tokens)
  end

with Indent_list_while (fuel : nat) (data : list pyval) (tok : token)
  (tokens : list token) {struct fuel} : result (pyval * list token) :=
  match fuel with
  | O => OutOfFuel
  | S fuel =>
      if negb (id_eqb (id tok) IdDedent) then
        '(tok, tokens) <- advance tokens AnyToken ;;
        '(v, tokens) <- Token_parse fuel tok tokens ;;
        let data := data ++ [v] in
        '(_, tokens) <- advance tokens (OneClass IdNewLine) ;;
        '(tok, tokens) <- advance tokens (Classes [IdHyphen; IdDedent]) ;;
        Indent_list_while fuel data tok tokens
      else Ok (PList data, tokens)
  end

with Indent_dict_while (fuel : nat) (data : list (pyval * pyval)) (tok : token)
  (tokens : list token) {struct fuel} : result (pyval * list token) :=
  match fuel with
  | O => OutOfFuel
  | S fuel =>
      if negb (id_eqb (id tok) IdDedent) then
        '(key, tokens) <- Token_parse fuel tok tokens ;;
        '(_, tokens) <- advance tokens (OneClass IdColon) ;;
        '(tok, tokens) <- advance tokens AnyToken ;;
        '(tok, tokens) <- (if id_eqb (id tok) IdNewLine
                           then advance tokens AnyToken
                           else Ok (tok, tokens)) ;;
        '(v, tokens) <- Token_parse fuel tok tokens ;;
        data <- setitem data key v ;;
        '(_, tokens) <- advance tokens (OneClass IdNewLine) ;;
        '(tok, tokens) <- advance tokens AnyToken ;;
        Indent_dict_while fuel data tok tokens
      else Ok (PDict data, tokens)
  end.

(** The [while tok.id != End.id] loop of the module-level [parse]. *)
Fixpoint parse_while (fuel : nat) (data : list (pyval * pyval)) (tok : token)
  (tokens : list token) {struct fuel} : result (pyval * list token) :=
  match fuel with
  | O => OutOfFuel
  | S fuel =>
      if negb (id_eqb (id tok) IdEnd) then
        '(key, tokens) <- Token_parse fuel tok tokens ;;
        '(_, tokens) <- advance tokens (OneClass IdColon) ;;
        '(tok, tokens) <- advance tokens AnyToken ;;
        '(tok, tokens) <- (if id_eqb (id tok) IdNewLine
                           then advance tokens AnyToken
                           else Ok (tok, tokens)) ;;
        '(v, tokens) <- Token_parse fuel tok tokens ;;
        data <- setitem data key v ;;
        '(_, tokens) <- advance tokens (OneClass IdNewLine) ;;
        '(tok, tokens) <- advance tokens AnyToken ;;
        parse_while fuel data tok tokens
      else Ok (POrderedDict data, tokens)
  end.

(** [for tok in tokens: if tok.id != NewLine.id: break]: the value of
    [tok] after the loop ([None] when the loop never ran) and the rest
    of the stream. *)
Fixpoint skip_newlines (tok : option token) (tokens : list token)
  : option token * list token :=
  match tokens with
  | [] => (tok, [])
  | t :: rest =>
      if negb (id_eqb (id t) IdNewLine) then (Some t, rest)
      else skip_newlines (Some t) rest
  end.

(** Fuel that the parser cannot use up on a stream of that length. *)
Definition parse_fuel (tokens : list token) : nat := 2 * List.length tokens + 2.

(** [parse] on the token stream. *)
Definition parse_tokens (tokens : list token) : result pyval :=
  match skip_newlines None tokens with
  | (None, _) => Raise NameError
  | (Some tok, rest) =>
      '(data, _) <- parse_while (parse_fuel tokens) [] tok rest ;;
      Ok data
  end.

(** [parse(input_string)], the decoder's entry point. *)
Definition parse (input_string : string) : result pyval :=
  tokens <- tokenize input_string ;;
  parse_tokens tokens.

(** A text given line by line: the lines joined by a line break. *)
Definition lines (ls : list string) : string := join (String newline "") ls.

(** ** Notions the statements use *)

(** *** The indentation pass *)

(** The indent stack (top first) is strictly increasing from its bottom
    0 to its top. *)
Inductive stack_ok : list Z -> Prop :=
| stack_bottom : stack_ok [0%Z]
| stack_push (w top : Z) (below : list Z) :
    stack_ok (top :: below) -> (top < w)%Z -> stack_ok (w :: top :: below).

(** What the scanner puts in the tokens [tokenize] computes with: an
    Indent token carries a width that is not negative, a NewLine token a
    count. *)
Definition scanned_shape (tok : token) : bool :=
  match id tok, value tok with
  | IdIndent, PInt n => (0 <=? n)%Z
  | IdIndent, _ => false
  | IdNewLine, PInt _ => true
  | IdNewLine, _ => false
  | _, _ => true
  end.

(** A token as the scanner returns it: of the scanner's shape, and
    never an [End()]. *)
Definition scanned (tok : token) : Prop :=
  scanned_shape tok = true /\ id tok <> IdEnd.

(** How one round of [tokenize] may change the stack: not at all, by
    one push of the new [curr_indent] above a smaller top, or by pops
    of widths that all exceed [curr_indent], down to a top that does
    not; every stack met on the way down is again strictly
    increasing from 0. *)
Definition stack_change (old new : list Z) (curr : Z) : Prop :=
  new = old
  \/ (exists top below, old = top :: below /\ (top < curr)%Z /\ new = curr :: old)
  \/ (exists popped top below,
        old = popped ++ new /\ new = top :: below /\ (top <= curr)%Z
        /\ Forall (fun w => (curr < w)%Z) popped
        /\ forall p1 p2, popped = p1 ++ p2 -> stack_ok (p2 ++ new)).

(** The state between two rounds: the stack is strictly increasing from
    0 and its top does not exceed [curr_indent]. *)
Definition tokenize_inv (st : tokenize_state) : Prop :=
  stack_ok (indent_stack st)
  /\ exists top below, indent_stack st = top :: below /\ (top <= curr_indent st)%Z.

(** The raw tokens of the text [a:], [  b:], [    c: 1], [d: 2], as the
    scanner returns them. *)
Definition sample_raw_tokens : list token :=
  [ Token IdString (PStr "a") None; Token IdColon PNone None;
    Token IdNewLine (PInt 1) None; Token IdIndent (PInt 2) None;
    Token IdString (PStr "b") None; Token IdColon PNone None;
    Token IdNewLine (PInt 1) None; Token IdIndent (PInt 4) None;
    Token IdString (PStr "c") None; Token IdColon PNone None;
    Token IdInteger (PInt 1) None;
    Token IdNewLine (PInt 1) None;
    Token IdString (PStr "d") None; Token IdColon PNone None;
    Token IdInteger (PInt 2) None ].

(** *** The conversion cascade *)

(** A non-empty run of the decimal digits 0..9. *)
Definition decimal_run (s : string) : bool :=
  match s with
  | EmptyString => false
  | _ => str_all is_decimal s
  end.

(** The number of digits [int()] takes under the interpreter's default
    limit on them. *)
Definition int_max_str_digits : nat := 4300.

(** **** The texts [float()] reads, as the statement describes them *)












(** **** The stages *)



(** *** The parser *)

(** The token classes that define their own [parse]. *)
Definition overrides_parse (i : token_id) : bool :=
  match i with
  | IdLeftRound | IdLeftSquare | IdLeftBrace | IdIndent => true
  | _ => false
  end.

(** A punctuation token as [Symbol.do] builds it. *)
Definition symbol (cls : token_id) : token := Token cls PNone None.

(** [elems] separated by [sep]. *)
Definition separated (sep : token) (elems : list token) : list token :=
  match elems with
  | [] => []
  | e :: rest => e :: flat_map (fun x => [sep; x]) rest
  end.

(** The entries [key mid value] of an inline mapping, separated by
    [sep]. *)
Definition entries (mid sep : token) (kvs : list (token * token)) : list token :=
  match kvs with
  | [] => []
  | (k, v) :: rest =>
      k :: mid :: v :: flat_map (fun kv => [sep; fst kv; mid; snd kv]) rest
  end.

(** A token that stands for a scalar element of an inline collection
    closed by [closer]: its class has no [parse] of its own and is not
    the closing class. *)
Definition element (closer : token_id) (e : token) : Prop :=
  overrides_parse (id e) = false /\ id e <> closer.

(** An entry of an inline mapping closed by [closer]: the key is an
    element with a hashable value, the value a token without a [parse]
    of its own. *)
Definition entry (closer : token_id) (kv : token * token) : Prop :=
  element closer (fst kv) /\ hashable (value (fst kv)) = true
  /\ overrides_parse (id (snd kv)) = false.

(** The items a mapping holds after the entries were stored in
    order. *)
Definition stored (data : list (pyval * pyval)) (kvs : list (token * token))
  : list (pyval * pyval) :=
  fold_left (fun data kv => items_set data (value (fst kv)) (value (snd kv)))
            kvs data.

(** The two ways an inline collection may end: the closer, or a comma
    and the closer. *)
Definition closing (comma closer : token) (trailing : bool) : list token :=
  if trailing then [comma; closer] else [closer].

(** The tokens of the elements of [[1, 2, 3]]. *)
Definition sample_elements : list token :=
  [ Token IdInteger (PInt 1) None; Token IdInteger (PInt 2) None;
    Token IdInteger (PInt 3) None ].

(** A parse result that is not the end of the fuel, and whose stream,
    when there is one, holds at most [bound] tokens. *)
Definition returns (bound : nat) (r : result (pyval * list token)) : Prop :=
  r <> OutOfFuel
  /\ forall v rest, r = Ok (v, rest) -> (List.length rest <= bound)%nat.

(** [rest] is what is left of the stream [tokens] after a part of it
    was consumed. *)
Definition suffix (rest tokens : list token) : Prop :=
  exists consumed, tokens = consumed ++ rest.

(** A parse result whose stream, when there is one, is what is left of
    [tokens]. *)
Definition leaves (tokens : list token) (r : result (pyval * list token)) : Prop :=
  forall v rest, r = Ok (v, rest) -> suffix rest tokens.

(** *** The scanner *)

(** The patterns of the scanner. *)
Definition patterns (lex : lexicon) : list regex := map fst lex.

(** No pattern but the last one, that of [Unknown], matches at this
    position. *)
Definition unmatched (prev : option ascii) (s : string) : bool :=
  forallb (fun r => match match_at r prev s with Some _ => false | None => true end)
          (removelast (patterns _scanner)).

(** The text up to the end of the line. *)
Fixpoint rest_of_line (s : string) : string :=
  match s with
  | EmptyString => EmptyString
  | String c s' => if dot c then String c (rest_of_line s') else EmptyString
  end.

(** The text after the end of the line. *)
Fixpoint after_line (s : string) : string :=
  match s with
  | EmptyString => EmptyString
  | String c s' => if dot c then after_line s' else s
  end.

(** [scans prev s prev' s']: from the position [s] (after the character
    [prev]) the scanner gets, match by match and without an error, to
    the position [s']. *)
Inductive scans : option ascii -> string -> option ascii -> string -> Prop :=
| scans_here (prev : option ascii) (s : string) : scans prev s prev s
| scans_skip (prev p1 p2 : option ascii) (s s1 s2 : string) :
    first_match _scanner prev s = Some (None, p1, s1) ->
    (String.length s1 < String.length s)%nat ->
    scans p1 s1 p2 s2 ->
    scans prev s p2 s2
| scans_token (prev p1 p2 : option ascii) (s s1 s2 : string)
    (do : string -> result token) (tok : token) :
    first_match _scanner prev s = Some (Some do, p1, s1) ->
    (String.length s1 < String.length s)%nat ->
    do (substring 0 (String.length s - String.length s1) s) = Ok tok ->
    scans p1 s1 p2 s2 ->
    scans prev s p2 s2.

(** *** Tactics *)

(** Closes a goal that asks for the top of a stack and its bound. *)
Ltac stack_top :=
  simpl; eexists; eexists; split; [reflexivity | simpl; first [assumption | lia]].

(** Solves a goal about one character by going through all of them. *)
Ltac by_cases_on_char c :=
  destruct c as [[] [] [] [] [] [] [] []]; try discriminate; try reflexivity.

(** *** Outcomes *)

(** The exceptions the scanner raises. *)
Definition scanner_error (e : exn) : bool :=
  match e with
  | TokenError _ | ValueError => true
  | _ => false
  end.

(** The exceptions the [parse] methods raise. *)
Definition parser_error (e : exn) : bool :=
  match e with
  | SyntaxError _ _ _ | StopIteration | TypeError => true
  | _ => false
  end.

(** A result that raises, if it does, an exception in [allowed]. *)
Definition raises_only {A : Type} (allowed : exn -> bool) (r : result A) : Prop :=
  forall e, r = Raise e -> allowed e = true.

(** The exceptions that leave [parse]. *)
Definition decoder_error (e : exn) : bool := scanner_error e || parser_error e.

(** *** The scanner's tokens *)

(** A pattern that cannot match the empty text. *)
Fixpoint consumes (r : regex) : bool :=
  match r with
  | Class _ => true
  | Cat r1 r2 => consumes r1 || consumes r2
  | Alt r1 r2 => consumes r1 && consumes r2
  | _ => false
  end.

(** A token as the scanner builds it: the value has the type of the
    class, an Integer is not negative, an Indent and a NewLine count at
    least one character, and there is no line yet. The classes Literal,
    Comment, WhiteSpace, Unknown, Dedent and End never come out of the
    scanner. *)
Definition scanner_token (tok : token) : bool :=
  match line tok with
  | Some _ => false
  | None =>
      match id tok, value tok with
      | IdString, PStr _ => true
      | IdInteger, PInt z => (0 <=? z)%Z
      | IdFloat, PFloat _ => true
      | IdBoolean, PBool _ => true
      | IdNoneValue, PNone => true
      | (IdComma | IdColon | IdEqualSign | IdHyphen | IdLeftRound | IdRightRound
         | IdLeftSquare | IdRightSquare | IdLeftBrace | IdRightBrace), PNone => true
      | (IdIndent | IdNewLine), PInt n => (1 <=? n)%Z
      | _, _ => false
      end
  end.

(** *** The depth of nesting *)

(** A token whose [parse] method calls the [parse] methods of the
    tokens within it: an opening bracket or an Indent. *)
Definition opens (tok : token) : bool := overrides_parse (id tok).

(** The number of such tokens in a stream: the calls of the [parse]
    methods on it nest no deeper. *)
Definition nesting (tokens : list token) : nat :=
  List.length (filter opens tokens).

(** The same for the tokens of a text. *)
Definition text_nesting (input_string : string) : nat :=
  match tokenize input_string with
  | Ok tokens => nesting tokens
  | _ => 0%nat
  end.

(** A depth of nesting that the interpreter's stack holds: a level
    takes two frames at most, of the thousand that the default
    recursion limit allows. *)
Definition nesting_limit : nat := 100.

(** *** Indent and Dedent as brackets *)

(** Reads a token stream as a bracket sequence: an Indent token opens
    a block of its width, a Dedent token has to close the innermost
    open block and to carry its width. [opened] are the widths of the
    open blocks, innermost first; the result is what is open at the end,
    or [None] when a Dedent does not fit. *)
Fixpoint blocks (opened : list Z) (tokens : list token) : option (list Z) :=
  match tokens with
  | [] => Some opened
  | tok :: rest =>
      match id tok with
      | IdIndent =>
          match value tok with
          | PInt w => blocks (w :: opened) rest
          | _ => None
          end
      | IdDedent =>
          match value tok, opened with
          | PInt w, top :: below =>
              if (w =? top)%Z then blocks below rest else None
          | _, _ => None
          end
      | _ => blocks opened rest
      end
  end.

(** *** The grammar of the parser *)

(** The items of a mapping after the pairs [kvs] were assigned to it in
    their order. *)
Definition assigned (data kvs : list (pyval * pyval)) : list (pyval * pyval) :=
  fold_left (fun data kv => items_set data (fst kv) (snd kv)) kvs data.

(** The token streams the [parse] methods read, with the values they
    stand for.

    [value_of tok toks v]: the token [tok] followed by [toks] is a
    value, [v]; [tok] is a scalar, an opening bracket or an Indent.

    [elements tok toks vs]: within square brackets, [tok] followed by
    [toks] are the elements [vs] up to and with the closing bracket.

    [pairs sep closer tok toks kvs]: within round brackets or braces,
    [tok] followed by [toks] are the pairs [kvs] written with the
    class [sep] between key and value, up to and with the token of the
    class [closer].

    [block_items tok toks vs]: in a block, [tok] followed by [toks]
    are the items [vs] of a sequence, up to and with the Dedent.

    [line_entries closer tok toks kvs]: in a block or in the document,
    [tok] followed by [toks] are the entries [kvs], one to a line, up
    to and with the token of the class [closer]. *)
Inductive value_of : token -> list token -> pyval -> Prop :=
| value_scalar tok :
    overrides_parse (id tok) = false ->
    value_of tok [] (value tok)
| value_round left tok toks kvs :
    id left = IdLeftRound ->
    pairs IdEqualSign IdRightRound tok toks kvs ->
    value_of left (tok :: toks) (POrderedDict (assigned [] kvs))
| value_square left tok toks vs :
    id left = IdLeftSquare ->
    elements tok toks vs ->
    value_of left (tok :: toks) (PList vs)
| value_brace left tok toks kvs :
    id left = IdLeftBrace ->
    pairs IdColon IdRightBrace tok toks kvs ->
    value_of left (tok :: toks) (POrderedDict (assigned [] kvs))
| value_block_list indent tok toks vs :
    id indent = IdIndent -> id tok = IdHyphen ->
    block_items tok toks vs ->
    value_of indent (tok :: toks) (PList vs)
| value_block_dict indent tok toks kvs :
    id indent = IdIndent -> id tok <> IdHyphen ->
    line_entries IdDedent tok toks kvs ->
    value_of indent (tok :: toks) (PDict (assigned [] kvs))

with elements : token -> list token -> list pyval -> Prop :=
| elements_close right :
    id right = IdRightSquare ->
    elements right [] []
| elements_last e etoks v right :
    id e <> IdRightSquare -> value_of e etoks v ->
    id right = IdRightSquare ->
    elements e (etoks ++ [right]) [v]
| elements_comma e etoks v comma next toks vs :
    id e <> IdRightSquare -> value_of e etoks v ->
    id comma = IdComma ->
    elements next toks vs ->
    elements e (etoks ++ comma :: next :: toks) (v :: vs)

with pairs : token_id -> token_id -> token -> list token
             -> list (pyval * pyval) -> Prop :=
| pairs_close sep closer right :
    id right = closer ->
    pairs sep closer right [] []
| pairs_last sep closer k ktoks key mid x xtoks v right :
    id k <> closer -> value_of k ktoks key -> hashable key = true ->
    id mid = sep ->
    value_of x xtoks v ->
    id right = closer ->
    pairs sep closer k (ktoks ++ mid :: x :: xtoks ++ [right]) [(key, v)]
| pairs_comma sep closer k ktoks key mid x xtoks v comma next toks kvs :
    id k <> closer -> value_of k ktoks key -> hashable key = true ->
    id mid = sep ->
    value_of x xtoks v ->
    id comma = IdComma ->
    pairs sep closer next toks kvs ->
    pairs sep closer k (ktoks ++ mid :: x :: xtoks ++ comma :: next :: toks)
      ((key, v) :: kvs)

with block_items : token -> list token -> list pyval -> Prop :=
| block_items_close dedent :
    id dedent = IdDedent ->
    block_items dedent [] []
| block_items_item hyphen x xtoks v newline next toks vs :
    id hyphen <> IdDedent ->
    value_of x xtoks v ->
    id newline = IdNewLine ->
    id next = IdHyphen \/ id next = IdDedent ->
    block_items next toks vs ->
    block_items hyphen (x :: xtoks ++ newline :: next :: toks) (v :: vs)

with line_entries : token_id -> token -> list token -> list (pyval * pyval) -> Prop :=
| line_entries_close closer last :
    id last = closer ->
    line_entries closer last [] []
| line_entries_line closer k ktoks key colon x xtoks v newline next toks kvs :
    id k <> closer -> value_of k ktoks key -> hashable key = true ->
    id colon = IdColon ->
    id x <> IdNewLine -> value_of x xtoks v ->
    id newline = IdNewLine ->
    line_entries closer next toks kvs ->
    line_entries closer k (ktoks ++ colon :: x :: xtoks ++ newline :: next :: toks)
      ((key, v) :: kvs)
| line_entries_below closer k ktoks key colon break x xtoks v newline next toks kvs :
    id k <> closer -> value_of k ktoks key -> hashable key = true ->
    id colon = IdColon ->
    id break = IdNewLine -> value_of x xtoks v ->
    id newline = IdNewLine ->
    line_entries closer next toks kvs ->
    line_entries closer k
      (ktoks ++ colon :: break :: x :: xtoks ++ newline :: next :: toks)
      ((key, v) :: kvs).

Scheme value_of_grammar := Minimality for value_of Sort Prop
  with elements_grammar := Minimality for elements Sort Prop
  with pairs_grammar := Minimality for pairs Sort Prop
  with block_items_grammar := Minimality for block_items Sort Prop
  with line_entries_grammar := Minimality for line_entries Sort Prop.

Combined Scheme grammar_ind
  from value_of_grammar, elements_grammar, pairs_grammar, block_items_grammar,
       line_entries_grammar.

(** *** Quoted strings *)

(** A quotation mark: the double or the single quote. *)
Definition is_quote (q : ascii) : bool := Ascii.eqb q dquote || Ascii.eqb q squote.

(** A text that can stand between two marks [q]: it holds no [q] and
    no line break. *)
Definition quotable (q : ascii) (body : string) : bool :=
  str_all (fun c => negb (Ascii.eqb c q || Ascii.eqb c newline)) body.

(** [body] between two marks [q]. *)
Definition quoted (q : ascii) (body : string) : string :=
  String q (body ++ String q "")%string.

(** *** Tokens and states up to line numbers *)

(** Two tokens of the same class with the same value; they may differ
    in their line. *)
Definition alike (a b : token) : Prop := id a = id b /\ value a = value b.

(** Two states of [tokenize] that differ in the position only. *)
Definition same_indentation (a b : tokenize_state) : Prop :=
  curr_indent a = curr_indent b /\ indent_stack a = indent_stack b
  /\ newline_last a = newline_last b.

(** *** Runs of a character class *)

(** The first character of [s] is in the class [p]. *)
Definition starts_with (p : ascii -> bool) (s : string) : bool :=
  match s with
  | EmptyString => false
  | String c _ => p c
  end.

(** The text ends here or goes on with a character outside the
    class. *)
Definition stops (p : ascii -> bool) (t : string) : Prop :=
  t = EmptyString \/ exists c t', t = String c t' /\ p c = false.

(** The last character of [s], or [prev] when [s] is empty. *)
Fixpoint last_char (prev : option ascii) (s : string) : option ascii :=
  match s with
  | EmptyString => prev
  | String c s' => last_char (Some c) s'
  end.

(** The position is the start of a line: [^] under MULTILINE. *)
Definition at_line_start (prev : option ascii) : bool :=
  match prev with
  | None => true
  | Some c => Ascii.eqb c newline
  end.

(** *** Punctuation *)

(** The characters of the punctuation tokens that never start a
    Literal, with their classes. *)
Definition punctuation : list (ascii * token_id) :=
  [ (","%char, IdComma); ("="%char, IdEqualSign);
    ("("%char, IdLeftRound); (")"%char, IdRightRound);
    ("["%char, IdLeftSquare); ("]"%char, IdRightSquare);
    ("{"%char, IdLeftBrace); ("}"%char, IdRightBrace) ].

(** The colon and the hyphen, which start a Literal before some
    characters. *)
Definition colon_hyphen : list (ascii * token_id) :=
  [ (":"%char, IdColon); ("-"%char, IdHyphen) ].

(** *** Literals *)

(** [(?! [\s,\]})] | $ )] holds before [s]. *)
Definition colon_goes_on (s : string) : bool :=
  match s with
  | EmptyString => false
  | String c _ => negb (literal_colon_stop c)
  end.

(** A Literal cannot go on into [rest]: [rest] does not start with a
    character of the inner class, nor with a colon that goes on, nor
    with blanks before a character that may follow blanks. *)
Definition literal_stop (rest : string) : bool :=
  negb (starts_with literal_inner rest)
  && negb (starts_with (Ascii.eqb ":") rest
           && colon_goes_on (match rest with String _ t => t | _ => rest end))
  && negb (starts_with blank rest
           && starts_with literal_after_blank (lstrip_by blank rest)).

(** The alternatives the star of the pattern of [Literal] repeats. *)
Definition Literal_more : regex :=
  Alt (Plus (Class literal_inner))
      (Alt (Cat (Chr ":") (NotAhead (Alt (Class literal_colon_stop) Eol)))
           (Cat (Plus (Class blank)) (Class literal_after_blank))).

(** The start of a Literal: one character of the first class, or a
    colon or a hyphen and one character that may follow it. *)
Definition literal_start (start : string) : bool :=
  match start with
  | String c EmptyString => literal_first c
  | String c (String d EmptyString) => one_of ":-" c && literal_second d
  | _ => false
  end.

(** [literal_tail rest body]: after the start of a Literal, [body] is
    what the star of the pattern takes from the text [body ++ rest]:
    runs of inner characters (each as long as it can be), colons that
    go on, and blanks before a character that may follow them. *)
Inductive literal_tail (rest : string) : string -> Prop :=
| tail_end :
    literal_stop rest = true -> literal_tail rest EmptyString
| tail_inner c cs body :
    literal_inner c = true -> str_all literal_inner cs = true ->
    starts_with literal_inner (body ++ rest)%string = false ->
    literal_tail rest body ->
    literal_tail rest (String c (cs ++ body)%string)
| tail_colon body :
    colon_goes_on (body ++ rest)%string = true ->
    literal_tail rest body ->
    literal_tail rest (String ":" body)
| tail_blank b bs c body :
    blank b = true -> str_all blank bs = true ->
    literal_after_blank c = true ->
    literal_tail rest body ->
    literal_tail rest (String b (bs ++ String c body)%string).

(** *** Documents of scalar entries *)

(** A word: a character of the first class of a Literal that is no
    white space ([strip] would take it from the start of the input),
    and inner characters after it. *)
Definition word (w : string) : bool :=
  match w with
  | String c cs =>
      literal_first c && negb (py_isspace c) && str_all literal_inner cs
  | EmptyString => false
  end.

(** A scalar as it is written: between quotes, or bare. *)
Inductive written : Type :=
| Quoted (q : ascii) (body : string)
| Bare (w : string).

(** The text of a written scalar. *)
Definition write (v : written) : string :=
  match v with
  | Quoted q body => quoted q body
  | Bare w => w
  end.

(** The token the scanner makes of a written scalar. *)
Definition written_token (v : written) : result token :=
  match v with
  | Quoted q body => Ok (Token IdString (PStr body) None)
  | Bare w => Literal_do w
  end.

(** A text that does not make [int()] exceed that limit: when it is a
    run of digits, they are no more than the limit allows. *)
Definition digits_ok (w : string) : bool :=
  negb (isdigit w) || (String.length w <=? int_max_str_digits)%nat.

(** A scalar that is written well: a text that can stand between its
    quotes, or a word [Literal.do] makes a token of. *)
Definition written_ok (v : written) : bool :=
  match v with
  | Quoted q body => is_quote q && quotable q body
  | Bare w =>
      word w
      && (digits_ok w && match Literal_do w with Ok _ => true | _ => false end)
  end.

(** What a written scalar stands for. *)
Definition written_value (v : written) : pyval :=
  match written_token v with
  | Ok tok => value tok
  | _ => PNone
  end.

(** The line of an entry: the key, a colon, a blank and the value. *)
Definition write_entry (kv : string * written) : string :=
  (fst kv ++ ": " ++ write (snd kv))%string.

(** A document: the lines of the entries, each closed by a line break,
    and a comment line. *)
Fixpoint write_document (kvs : list (string * written)) : string :=
  match kvs with
  | [] => "#"
  | kv :: rest => (write_entry kv ++ String newline (write_document rest))%string
  end.

(** A key that is written well: a word that does not stand for a
    float. Floats are left out as keys: two of them that are written
    differently can be the same key of a mapping. *)
Definition key_ok (k : string) : bool :=
  written_ok (Bare k)
  && match written_value (Bare k) with PFloat _ => false | _ => true end.

(** An entry that is written well: the key is such a word, the value
    a word or a quoted string. *)
Definition entry_ok (kv : string * written) : bool :=
  key_ok (fst kv) && written_ok (snd kv).

(** The pair an entry stands for. *)
Definition entry_pair (kv : string * written) : pyval * pyval :=
  (written_value (Bare (fst kv)), written_value (snd kv)).

(** The token of a written scalar, [End()] standing in where there is
    none. *)
Definition written_tok (v : written) : token :=
  match written_token v with
  | Ok tok => tok
  | _ => End
  end.

(** The tokens the scanner makes of the line of an entry and the line
    break after it. *)
Definition entry_tokens (kv : string * written) : list token :=
  [ written_tok (Bare (fst kv)); symbol IdColon; written_tok (snd kv);
    Token IdNewLine (PInt 1) None ].

(** The tokens of a document as the scanner returns them. *)
Definition document_tokens (kvs : list (string * written)) : list token :=
  flat_map entry_tokens kvs.

(** A token the pass only gives a line: no Indent, and a NewLine that
    carries a count. *)
Definition plain_token (tok : token) : bool :=
  negb (id_eqb (id tok) IdIndent)
  && (if id_eqb (id tok) IdNewLine
      then match value tok with PInt _ => true | _ => false end
      else true).

(** A token of a scalar class with a value of its type. *)
Definition scalar_token (tok : token) : bool :=
  match id tok, value tok with
  | IdString, PStr _ | IdInteger, PInt _ | IdFloat, PFloat _
  | IdBoolean, PBool _ | IdNoneValue, PNone => true
  | _, _ => false
  end.

(** Four entries, one of them for a key that is there already. *)
Definition sample_entries : list (string * written) :=
  [ ("name", Quoted dquote "x: [1] # y"); ("port", Bare "8080");
    ("debug", Bare "yes"); ("name", Quoted squote "z, w") ].

(** *** Documents with blocks *)

(** [n] spaces. *)
Fixpoint spaces (n : nat) : string :=
  match n with
  | O => ""
  | S n' => String " " (spaces n')
  end.

(** [concat] for texts. *)
Fixpoint concat_text (parts : list string) : string :=
  match parts with
  | [] => ""
  | p :: rest => (p ++ concat_text rest)%string
  end.

(** An entry of a document: a scalar on the line of the key, or a block
    below the key, a sequence or a mapping, indented by [S w]
    spaces. *)
Inductive item : Type :=
| Scalar (k : string) (v : written)
| Sequence (k : string) (w : nat) (vs : list written)
| Mapping (k : string) (w : nat) (kvs : list (string * written)).

(** A line, closed by its line break. *)
Definition text_line (s : string) : string := (s ++ String newline "")%string.

Definition write_item (it : item) : string :=
  match it with
  | Scalar k v => text_line (write_entry (k, v))
  | Sequence k w vs =>
      (text_line (k ++ ":")
       ++ concat_text (map (fun v => text_line (spaces (S w) ++ "- " ++ write v)) vs))%string
  | Mapping k w kvs =>
      (text_line (k ++ ":")
       ++ concat_text (map (fun kv => text_line (spaces (S w) ++ write_entry kv)) kvs))%string
  end.

(** A document: the items and a comment line. *)
Definition write_items (items : list item) : string :=
  (concat_text (map write_item items) ++ "#")%string.

Definition is_nil {A : Type} (l : list A) : bool :=
  match l with [] => true | _ => false end.

Definition item_ok (it : item) : bool :=
  match it with
  | Scalar k v => entry_ok (k, v)
  | Sequence k w vs =>
      key_ok k && negb (is_nil vs) && forallb written_ok vs
  | Mapping k w kvs =>
      key_ok k && negb (is_nil kvs) && forallb entry_ok kvs
  end.

(** A block is closed by the line that follows it: the last item of a
    document has to be a scalar entry. *)
Definition is_scalar (it : item) : bool :=
  match it with Scalar _ _ => true | _ => false end.

Fixpoint ends_scalar (items : list item) : bool :=
  match items with
  | [] => true
  | [it] => is_scalar it
  | _ :: rest => ends_scalar rest
  end.

Definition items_ok (items : list item) : bool :=
  forallb item_ok items && ends_scalar items.

Definition item_pair (it : item) : pyval * pyval :=
  match it with
  | Scalar k v => entry_pair (k, v)
  | Sequence k w vs => (written_value (Bare k), PList (map written_value vs))
  | Mapping k w kvs =>
      (written_value (Bare k), PDict (assigned [] (map entry_pair kvs)))
  end.

(** [scan_to prev s acc prev' s' acc']: with fuel for [s] the scanner
    gets from the position [s] with the tokens [acc] to the position
    [s'] with the tokens [acc'], and has fuel for [s']. *)
Definition scan_to (prev : option ascii) (s : string) (acc : list token)
  (prev' : option ascii) (s' : string) (acc' : list token) : Prop :=
  forall fuel,
    (String.length s < fuel)%nat ->
    exists fuel',
      (String.length s' < fuel')%nat
      /\ scan_loop _scanner fuel prev s acc = scan_loop _scanner fuel' prev' s' acc'.

(** The tokens the scanner makes of the line of an item of a block
    sequence. *)
Definition sequence_line_tokens (w : nat) (v : written) : list token :=
  [ Token IdIndent (PInt (Z.of_nat (S w))) None; symbol IdHyphen; written_tok v;
    Token IdNewLine (PInt 1) None ].

(** The tokens the scanner makes of the line of an entry of a block
    mapping. *)
Definition mapping_line_tokens (w : nat) (kv : string * written) : list token :=
  Token IdIndent (PInt (Z.of_nat (S w))) None :: entry_tokens kv.

(** The tokens of an item as the scanner returns them. *)
Definition raw_item (it : item) : list token :=
  match it with
  | Scalar k v => entry_tokens (k, v)
  | Sequence k w vs =>
      [written_tok (Bare k); symbol IdColon; Token IdNewLine (PInt 1) None]
        ++ flat_map (sequence_line_tokens w) vs
  | Mapping k w kvs =>
      [written_tok (Bare k); symbol IdColon; Token IdNewLine (PInt 1) None]
        ++ flat_map (mapping_line_tokens w) kvs
  end.

(** The token with the line the pass gives it. *)
Definition at_position (tok : token) (p : Z) : token :=
  Token (id tok) (value tok) (Some p).

(** A token that is no Indent and no NewLine. *)
Definition inline_token (tok : token) : bool :=
  negb (id_eqb (id tok) IdIndent) && negb (id_eqb (id tok) IdNewLine).

(** [passes st tokens st' expected]: the pass gets through [tokens]
    from the state [st] to the state [st'] and yields the tokens
    [expected], each with some line. *)
Definition passes (st : tokenize_state) (tokens : list token)
  (st' : tokenize_state) (expected : list token) : Prop :=
  exists out, tokenize_for st tokens = Ok (st', out) /\ Forall2 alike expected out.

(** The tokens of the line of an item of a block sequence, after the
    pass. *)
Definition sequence_line (v : written) : list token :=
  [symbol IdHyphen; written_tok v; Token IdNewLine (PInt 1) None].

(** The block an item leaves open: its width less one. *)
Definition open_block (it : item) : option nat :=
  match it with
  | Scalar _ _ => None
  | Sequence _ w _ | Mapping _ w _ => Some w
  end.

(** The tokens that close a block. *)
Definition block_end (pending : option nat) : list token :=
  match pending with
  | None => []
  | Some w => [Dedent (Z.of_nat (S w)) 0; NewLine 0]
  end.

(** The tokens of an item after the pass, up to the end of its last
    line. *)
Definition item_lines (it : item) : list token :=
  match it with
  | Scalar k v => entry_tokens (k, v)
  | Sequence k w vs =>
      [written_tok (Bare k); symbol IdColon; Token IdNewLine (PInt 1) None;
       Token IdIndent (PInt (Z.of_nat (S w))) None]
        ++ flat_map sequence_line vs
  | Mapping k w kvs =>
      [written_tok (Bare k); symbol IdColon; Token IdNewLine (PInt 1) None;
       Token IdIndent (PInt (Z.of_nat (S w))) None]
        ++ flat_map entry_tokens kvs
  end.

(** The tokens of an item after the pass, with the tokens that close
    its block. *)
Definition item_stream (it : item) : list token :=
  item_lines it ++ block_end (open_block it).

(** The state of the pass at the start of a line of the document, out
    of a block or after the lines of a block. *)
Definition pending_state (pending : option nat) (st : tokenize_state) : Prop :=
  match pending with
  | None => exists p n, st = TokenizeState p 0 [0%Z] n
  | Some w =>
      exists p, st = TokenizeState p (Z.of_nat (S w)) [Z.of_nat (S w); 0%Z] true
  end.

(** A document of four items: a scalar entry, a block sequence, a
    block mapping with a key written twice, and a scalar entry for a
    key that is there already. *)
Definition sample_items : list item :=
  [ Scalar "name" (Quoted dquote "x: [1] # y");
    Sequence "ports" 3 [Bare "80"; Bare "4.5"; Quoted squote "- a"];
    Mapping "db" 1
      [("host", Bare "localhost"); ("debug", Bare "yes"); ("host", Bare "null")];
    Scalar "name" (Bare "z") ].

(** *** Sample streams *)

(** The tokens of [[1, {b: 2}]] after the opening bracket. *)
Definition sample_inline : list token :=
  [ Token IdInteger (PInt 1) (Some 1%Z); Token IdComma PNone (Some 1%Z);
    Token IdLeftBrace PNone (Some 1%Z); Token IdString (PStr "b") (Some 1%Z);
    Token IdColon PNone (Some 1%Z); Token IdInteger (PInt 2) (Some 1%Z);
    Token IdRightBrace PNone (Some 1%Z); Token IdRightSquare PNone (Some 1%Z) ].

(** A document with inline and block values, closed by a comment
    line. *)
Definition sample_document : string :=
  lines ["a: [1, {b: 2}]"; "c:"; "  - x"; "  - y"; "d:"; "  e: (f=1)"; "g: 1"; "#"].

(** The value of [sample_document]. *)
Definition sample_value : pyval :=
  POrderedDict
    [ (PStr "a", PList [PInt 1; POrderedDict [(PStr "b", PInt 2)]]);
      (PStr "c", PList [PStr "x"; PStr "y"]);
      (PStr "d", PDict [(PStr "e", POrderedDict [(PStr "f", PInt 1)])]);
      (PStr "g", PInt 1) ].

(** * Theorems *)

(** ** The matcher: the count of the star rounds *)

Lemma rounds_ext :
  forall (A : Type) body (k1 k2 : option ascii -> string -> option A),
    (forall prev s (c1 c2 : option ascii -> string -> option A),
        (forall p t, c1 p t = c2 p t) -> body prev s c1 = body prev s c2) ->
    (forall p t, k1 p t = k2 p t) ->
    forall n prev s, rounds body k1 n prev s = rounds body k2 n prev s.
Proof.
  intros A body k1 k2 Hbody Hk. induction n as [|n IH]; intros prev s; cbn [rounds].
  - apply Hk.
  - rewrite (Hbody prev s _
               (fun prev' s' =>
                  if (String.length s' <? String.length s)%nat
                  then rounds body k2 n prev' s' else None)).
    + rewrite Hk. reflexivity.
    + intros p t. rewrite IH. reflexivity.
Qed.

(** The match depends on the continuation only through its results. *)
Lemma re_match_ext :
  forall (A : Type) r prev s (k1 k2 : option ascii -> string -> option A),
    (forall p t, k1 p t = k2 p t) ->
    re_match r prev s k1 = re_match r prev s k2.
Proof.
  intros A r. induction r as [|p|r1 IH1 r2 IH2|r1 IH1 r2 IH2|r1 IH1| | |r1 IH1];
    intros prev s k1 k2 Hk; cbn [re_match]; try rewrite Hk; try reflexivity.
  - destruct s as [|c s]; [reflexivity|]. rewrite Hk. reflexivity.
  - apply IH1. intros p t. apply IH2. exact Hk.
  - rewrite (IH1 prev s k1 k2 Hk), (IH2 prev s k1 k2 Hk). reflexivity.
  - apply rounds_ext; [|exact Hk].
    intros p t c1 c2 Hc. apply IH1. exact Hc.
Qed.

(** Nothing matches when nothing may follow. *)
Lemma re_match_fail :
  forall (A : Type) r prev s (k : option ascii -> string -> option A),
    (forall p t, k p t = None) -> re_match r prev s k = None.
Proof.
  intros A r. induction r as [|p|r1 IH1 r2 IH2|r1 IH1 r2 IH2|r1 IH1| | |r1 IH1];
    intros prev s k Hk; cbn [re_match]; try rewrite Hk; try reflexivity.
  - destruct s as [|c s]; [reflexivity|]. rewrite Hk. destruct (p c); reflexivity.
  - apply IH1. intros p t. apply IH2. exact Hk.
  - rewrite (IH1 prev s k Hk). apply IH2. exact Hk.
  - generalize (String.length s). intros n. revert prev s.
    induction n as [|n IH]; intros prev s; cbn [rounds]; [apply Hk|].
    rewrite IH1; [apply Hk|].
    intros p t. destruct (String.length t <? String.length s)%nat; [apply IH|reflexivity].
  - destruct prev as [c|]; [destruct (Ascii.eqb c newline)|]; auto.
  - destruct s as [|c s]; [|destruct (Ascii.eqb c newline)]; auto.
  - destruct (re_match r1 prev s (fun _ _ => Some tt)); auto.
Qed.

(** The count the star starts from is enough: any count that is at
    least the length of the text gives the same match. *)
Lemma rounds_count_enough :
  forall (A : Type) r (k : option ascii -> string -> option A) n m prev s,
    (String.length s <= n)%nat -> (String.length s <= m)%nat ->
    rounds (fun p t k' => re_match r p t k') k n prev s
    = rounds (fun p t k' => re_match r p t k') k m prev s.
Proof.
  intros A r k. set (body := fun p t k' => re_match r p t k').
  assert (Hempty : forall n prev, rounds body k n prev EmptyString = k prev EmptyString).
  { intros [|n] prev; cbn [rounds]; [reflexivity|].
    unfold body at 1. rewrite re_match_fail; [reflexivity|].
    intros p t. simpl. reflexivity. }
  induction n as [|n IH]; intros m prev s Hn Hm.
  - destruct s; simpl in Hn; [|lia]. rewrite !Hempty. reflexivity.
  - destruct m as [|m].
    + destruct s; simpl in Hm; [|lia]. rewrite !Hempty. reflexivity.
    + cbn [rounds]. unfold body at 1 3.
      rewrite (re_match_ext A r prev s _
                 (fun prev' s' =>
                    if (String.length s' <? String.length s)%nat
                    then rounds body k m prev' s' else None));
        [reflexivity|].
      intros p t. destruct (String.length t <? String.length s)%nat eqn:E;
        [|reflexivity].
      apply Nat.ltb_lt in E. apply IH; lia.
Qed.

(** ** The end of the input *)

Lemma strip_all_space :
  forall s, str_all py_isspace s = true -> strip s = EmptyString.
Proof.
  intros s H. unfold strip, strip_by.
  assert (E : lstrip_by py_isspace s = EmptyString).
  { induction s as [|c s IH]; simpl in *; [reflexivity|].
    apply andb_prop in H as [Hc Hs]. rewrite Hc. auto. }
  rewrite E. reflexivity.
Qed.

(** C10: decoding the empty text, or a text of white space and line
    breaks only, returns the empty mapping. *)
Theorem parse_blank :
  forall input_string,
    str_all py_isspace input_string = true ->
    parse input_string = Ok (POrderedDict []).
Proof.
  intros s H. unfold parse, tokenize.
  rewrite (strip_all_space s H). reflexivity.
Qed.

Lemma parse_blank_witness :
  str_all py_isspace (lines ["  "; "    "; ""]) = true
  /\ parse (lines ["  "; "    "; ""]) = Ok (POrderedDict [])
  /\ parse "" = Ok (POrderedDict []).
Proof.
  split; [reflexivity|]. split; apply parse_blank; reflexivity.
Defined.

(** C1: on the text [items:], [    - 1], [    - 2] the decoder does not
    return the mapping: the stream ends [Integer(2) End()], and
    [_parse_list] requires a NewLine after the item. *)
Theorem parse_block_sequence_fails :
  parse (lines ["items:"; "    - 1"; "    - 2"])
  = Raise (SyntaxError End "NewLine" None).
Proof. vm_compute. reflexivity. Qed.

(** The same block decodes once another entry and a comment line follow
    it. *)
Lemma parse_block_sequence_followed :
  parse (lines ["items:"; "    - 1"; "    - 2"; "b: 3"; "#"])
  = Ok (POrderedDict [(PStr "items", PList [PInt 1; PInt 2]); (PStr "b", PInt 3)]).
Proof. vm_compute. reflexivity. Qed.

(** C3: on the text [a: 1], [a: 2] the decoder does not return a
    mapping: after the last entry the stream holds [End()] where
    [parse] requires a NewLine. *)
Theorem parse_duplicate_key_fails :
  parse (lines ["a: 1"; "a: 2"]) = Raise (SyntaxError End "NewLine" None).
Proof. vm_compute. reflexivity. Qed.

(** Storing under a key that is present replaces the value and keeps
    the key's place. *)
Lemma items_set_present :
  forall before after key old v,
    hashable key = true ->
    key_eqb key key = true ->
    (forall k w, In (k, w) before -> key_eqb k key = false) ->
    items_set (before ++ (key, old) :: after) key v
    = before ++ (key, v) :: after.
Proof.
  induction before as [|[k w] before IH]; intros after key old v Hh Hk Hn; simpl.
  - rewrite Hk. reflexivity.
  - rewrite (Hn k w (or_introl eq_refl)). f_equal.
    apply IH; auto. intros k' w' Hin. apply (Hn k' w'). right. exact Hin.
Qed.

(** A document with the duplicate key that does decode (it ends with a
    comment line): the last value wins, the key stays first. *)
Lemma parse_duplicate_key_followed :
  parse (lines ["a: 1"; "b: 3"; "a: 2"; "#"])
  = Ok (POrderedDict [(PStr "a", PInt 2); (PStr "b", PInt 3)]).
Proof. vm_compute. reflexivity. Qed.

(** C4: on [a: [1, 2] the error names no expected class and no line:
    [all] has used up the iterator over [(Comma, RightSquare)] before
    the message is joined from it, and [End()] is built without a
    line. *)
Theorem parse_unterminated_sequence :
  parse "a: [1, 2" = Raise (SyntaxError End "" None).
Proof. vm_compute. reflexivity. Qed.

(** [advance] with a tuple of classes: the message of the error never
    names a class. With one class it names it. The line is that of the
    token, which is [None] for [End()] and for a scanned NewLine. *)
Lemma advance_tuple_error :
  forall tok tokens clss e,
    advance (tok :: tokens) (Classes clss) = Raise e ->
    e = SyntaxError tok "" (line tok).
Proof.
  intros tok tokens clss e. unfold advance.
  assert (G : forall l, fst (all_differ (id tok) l) = true ->
                        snd (all_differ (id tok) l) = []).
  { induction l as [|c l IH]; simpl; [reflexivity|].
    destruct (id_eqb (id tok) c); simpl; [discriminate|exact IH]. }
  specialize (G clss).
  destruct (all_differ (id tok) clss) as [d rest]. simpl in G.
  destruct d; [|discriminate].
  rewrite (G eq_refl). simpl. intros H. inversion H. reflexivity.
Qed.

Lemma advance_one_error :
  forall tok tokens cls e,
    advance (tok :: tokens) (OneClass cls) = Raise e ->
    e = SyntaxError tok (id_name cls) (line tok).
Proof.
  intros tok tokens cls e. unfold advance. simpl.
  destruct (id_eqb (id tok) cls); simpl; [discriminate|].
  intros H. inversion H. reflexivity.
Qed.

(** ** The indent stack *)

Lemma id_eqb_eq : forall a b, id_eqb a b = true <-> a = b.
Proof.
  intros a b. split.
  - destruct a, b; try reflexivity; intros H; discriminate H.
  - intros ->. destruct b; reflexivity.
Qed.

Lemma id_eqb_neq : forall a b, id_eqb a b = false <-> a <> b.
Proof.
  intros a b. split.
  - intros H E. apply id_eqb_eq in E. congruence.
  - intros H. destruct (id_eqb a b) eqn:E; [|reflexivity].
    apply id_eqb_eq in E. contradiction.
Qed.

Lemma stack_ok_nonneg :
  forall stack, stack_ok stack -> Forall (fun w => (0 <= w)%Z) stack.
Proof.
  induction 1 as [|w top below H IH Hlt].
  - constructor; [lia|constructor].
  - constructor; [|exact IH]. inversion IH; subst. lia.
Qed.

Lemma dedent_while_pops :
  forall stack curr pos,
    stack_ok stack -> (0 <= curr)%Z ->
    exists popped top below out,
      dedent_while stack curr pos = Ok (top :: below, out)
      /\ stack = popped ++ top :: below
      /\ stack_ok (top :: below)
      /\ (top <= curr)%Z
      /\ Forall (fun w => (curr < w)%Z) popped
      /\ forall p1 p2, popped = p1 ++ p2 -> stack_ok (p2 ++ top :: below).
Proof.
  intros stack curr pos Hok Hcurr.
  induction Hok as [|w top below Hok IH Hlt].
  - exists [], 0%Z, [], []. simpl.
    destruct (0 >? curr)%Z eqn:E; [lia|].
    repeat split; auto; try lia; try constructor.
    intros p1 p2 Hp. destruct p1, p2; try discriminate. constructor.
  - simpl. destruct (w >? curr)%Z eqn:E.
    + destruct IH as (popped & t & b & out & Hd & Hs & Hok' & Hle & Hall & Hmid).
      exists (w :: popped), t, b,
        (Dedent w pos :: NewLine pos :: out).
      simpl in Hd. rewrite Hd. simpl.
      repeat split; auto.
      * rewrite Hs. reflexivity.
      * constructor; [lia|exact Hall].
      * intros p1 p2 Hp. destruct p1 as [|x p1]; simpl in Hp.
        -- subst p2. simpl. rewrite <- Hs. constructor; assumption.
        -- inversion Hp; subst. apply (Hmid p1 p2 eq_refl).
    + exists [], w, (top :: below), []. simpl.
      repeat split; auto; try lia; try (constructor; assumption).
      intros p1 p2 Hp. destruct p1, p2; try discriminate.
      simpl. constructor; assumption.
Qed.

#[local] Arguments dedent_while : simpl never.

Lemma tokenize_step_inv :
  forall st tok,
    tokenize_inv st -> scanned_shape tok = true ->
    exists st' out,
      tokenize_step st tok = Ok (st', out)
      /\ tokenize_inv st'
      /\ stack_change (indent_stack st) (indent_stack st') (curr_indent st').
Proof.
  intros [pos curr stack nl] tok [Hok (top & below & Hstack & Htop)] Hshape.
  simpl in *. subst stack.
  assert (Hcurr : (0 <= curr)%Z).
  { pose proof (stack_ok_nonneg _ Hok) as F. inversion F; subst. lia. }
  unfold tokenize_step, int_value, scanned_shape in *. simpl.
  (* the new indentation *)
  assert (Hind : exists indent,
             (if id_eqb (id tok) IdIndent
              then match value tok with PInt z => Ok z | _ => Raise TypeError end
              else Ok 0%Z) = Ok indent /\ (0 <= indent)%Z).
  { destruct (id_eqb (id tok) IdIndent) eqn:E.
    - apply id_eqb_eq in E. rewrite E in Hshape.
      destruct (value tok); try discriminate. exists z. split; [reflexivity|lia].
    - exists 0%Z. split; [reflexivity|lia]. }
  destruct Hind as (indent & Hind & Hpos).
  (* the position *)
  assert (Hline : exists position tok' nl',
             (if id_eqb (id tok) IdNewLine
              then bind (match value tok with PInt z => Ok z | _ => Raise TypeError end)
                     (fun lines => Ok ((pos + lines)%Z, tok, true))
              else Ok (pos, Token (id tok) (value tok) (Some pos), false))
             = Ok (position, tok', nl')).
  { destruct (id_eqb (id tok) IdNewLine) eqn:E.
    - apply id_eqb_eq in E. rewrite E in Hshape.
      destruct (value tok); try discriminate. simpl. eauto.
    - eauto. }
  destruct Hline as (position' & tok' & nl' & Hline).
  destruct nl.
  - rewrite Hind. simpl.
    destruct (indent =? curr)%Z eqn:Eq; simpl; rewrite Hline; simpl.
    + (* same indentation *)
      apply Z.eqb_eq in Eq. subst indent.
      eexists; eexists. split; [reflexivity|]. simpl.
      split; [split; [exact Hok|stack_top]|]. left. reflexivity.
    + apply Z.eqb_neq in Eq.
      destruct (indent - curr <? 0)%Z eqn:Eneg.
      * (* dedent *)
        apply Z.ltb_lt in Eneg.
        destruct (dedent_while_pops (top :: below) indent position' Hok Hpos)
          as (popped & t & b & out & Hd & Hs & Hok' & Hle & Hall & Hmid).
        rewrite Hd. simpl.
        destruct (indent - curr >? 0)%Z eqn:Egt; [lia|].
        eexists; eexists. split; [reflexivity|]. simpl.
        split; [split; [exact Hok'|stack_top]|].
        right; right. exists popped, t, b. auto.
      * (* indent *)
        apply Z.ltb_ge in Eneg. simpl.
        destruct (indent - curr >? 0)%Z eqn:Egt; [|lia].
        eexists; eexists. split; [reflexivity|]. simpl.
        split.
        -- split; [constructor; [exact Hok|lia]|].
           stack_top.
        -- right; left. exists top, below. repeat split; auto. lia.
  - simpl. rewrite Hline. simpl.
    eexists; eexists. split; [reflexivity|]. simpl.
    split; [split; [exact Hok|stack_top]|]. left. reflexivity.
Qed.

Lemma tokenize_for_inv :
  forall tokens st,
    tokenize_inv st -> forallb scanned_shape tokens = true ->
    exists st' out, tokenize_for st tokens = Ok (st', out) /\ tokenize_inv st'.
Proof.
  induction tokens as [|tok tokens IH]; intros st Hinv Hall; simpl in *.
  - eauto.
  - apply andb_prop in Hall as [Htok Hall].
    destruct (tokenize_step_inv st tok Hinv Htok) as (st1 & out1 & E1 & Hinv1 & _).
    destruct (IH st1 Hinv1 Hall) as (st2 & out2 & E2 & Hinv2).
    rewrite E1. simpl. rewrite E2. simpl. eauto.
Qed.

Lemma forallb_firstn :
  forall (A : Type) (p : A -> bool) n l,
    forallb p l = true -> forallb p (firstn n l) = true.
Proof.
  intros A p n. induction n as [|n IH]; intros [|x l] H; simpl in *; auto.
  apply andb_prop in H as [Hx Hl]. rewrite Hx. simpl. auto.
Qed.

Lemma tokenize_init_inv : forall position, tokenize_inv (tokenize_init position).
Proof.
  intros position. split; simpl; [constructor|].
  exists 0%Z, []. split; [reflexivity|lia].
Qed.

(** C7: throughout the indentation pass over any token sequence (whose
    Indent and NewLine tokens carry what the scanner puts in them) the
    indent stack is strictly increasing from its bottom 0 to its top:
    the pass gets through every prefix of the sequence, the stack it
    has then is strictly increasing from 0, and the next round only
    pushes a width above the top, or pops widths that exceed the new
    current indent, through stacks that are again strictly
    increasing from 0. *)
Theorem indent_stack_strictly_increasing :
  forall tokens position,
    forallb scanned_shape tokens = true ->
    forall n,
    exists st out,
      tokenize_for (tokenize_init position) (firstn n tokens) = Ok (st, out)
      /\ stack_ok (indent_stack st)
      /\ forall tok, nth_error tokens n = Some tok ->
           exists st' out',
             tokenize_step st tok = Ok (st', out')
             /\ stack_ok (indent_stack st')
             /\ stack_change (indent_stack st) (indent_stack st') (curr_indent st').
Proof.
  intros tokens position Hall n.
  destruct (tokenize_for_inv (firstn n tokens) (tokenize_init position)
              (tokenize_init_inv position) (forallb_firstn _ _ n _ Hall))
    as (st & out & E & Hinv).
  exists st, out. split; [exact E|]. split; [exact (proj1 Hinv)|].
  intros tok Hnth.
  assert (Htok : scanned_shape tok = true).
  { apply nth_error_In in Hnth. rewrite forallb_forall in Hall. auto. }
  destruct (tokenize_step_inv st tok Hinv Htok) as (st' & out' & E' & Hinv' & Hch).
  exists st', out'. split; [exact E'|]. split; [exact (proj1 Hinv')|exact Hch].
Qed.

Lemma indent_stack_strictly_increasing_witness :
  scan _scanner (lines ["a:"; "  b:"; "    c: 1"; "d: 2"]) = Ok (sample_raw_tokens, "")
  /\ forallb scanned_shape sample_raw_tokens = true
  /\ exists st out,
       tokenize_for (tokenize_init 1) (firstn 12 sample_raw_tokens) = Ok (st, out)
       /\ stack_ok (indent_stack st)
       /\ forall tok, nth_error sample_raw_tokens 12 = Some tok ->
            exists st' out',
              tokenize_step st tok = Ok (st', out')
              /\ stack_ok (indent_stack st')
              /\ stack_change (indent_stack st) (indent_stack st') (curr_indent st').
Proof.
  split; [reflexivity|]. split; [reflexivity|].
  exact (indent_stack_strictly_increasing sample_raw_tokens 1 eq_refl 12).
Defined.

(** On that text the stack is [[0]], then [[0, 2]], then [[0, 2, 4]],
    and the last line pops it back to [[0]]. *)
Lemma indent_stack_sample :
  map (fun n => match tokenize_for (tokenize_init 1) (firstn n sample_raw_tokens) with
                | Ok (st, _) => indent_stack st
                | _ => []
                end) [3; 4; 8; 12; 13]
  = [[0]; [2; 0]; [4; 2; 0]; [4; 2; 0]; [0]]%Z.
Proof. vm_compute. reflexivity. Qed.

(** ** Tokens without a [parse] of their own *)

Lemma Token_parse_default :
  forall fuel self tokens,
    overrides_parse (id self) = false ->
    Token_parse (S fuel) self tokens = Ok (value self, tokens).
Proof.
  intros fuel self tokens H. simpl.
  destruct (id self); try reflexivity; discriminate H.
Qed.

Lemma parse_while_S :
  forall fuel data tok tokens,
    parse_while (S fuel) data tok tokens =
    if negb (id_eqb (id tok) IdEnd) then
      '(key, tokens) <- Token_parse fuel tok tokens ;;
      '(_, tokens) <- advance tokens (OneClass IdColon) ;;
      '(tok, tokens) <- advance tokens AnyToken ;;
      '(tok, tokens) <- (if id_eqb (id tok) IdNewLine
                         then advance tokens AnyToken
                         else Ok (tok, tokens)) ;;
      '(v, tokens) <- Token_parse fuel tok tokens ;;
      data <- setitem data key v ;;
      '(_, tokens) <- advance tokens (OneClass IdNewLine) ;;
      '(tok, tokens) <- advance tokens AnyToken ;;
      parse_while fuel data tok tokens
    else Ok (POrderedDict data, tokens).
Proof. reflexivity. Qed.

Lemma advance_any :
  forall tok tokens, advance (tok :: tokens) AnyToken = Ok (tok, tokens).
Proof. reflexivity. Qed.

Lemma advance_one :
  forall tok tokens cls,
    id tok = cls -> advance (tok :: tokens) (OneClass cls) = Ok (tok, tokens).
Proof.
  intros tok tokens cls H. unfold advance. simpl.
  replace (id_eqb (id tok) cls) with true; [reflexivity|].
  symmetry. apply id_eqb_eq. exact H.
Qed.

(** C6, as the code has it: a token whose class has no [parse] of its
    own (punctuation, Dedent, End) parses, where a value is expected,
    to the value it holds and takes nothing from the stream; an entry
    [key: p] of the document whose value token [p] is such a token is
    stored with that value, and no error is raised for it. *)
Theorem punctuation_parses_to_its_value :
  forall fuel p tokens,
    overrides_parse (id p) = false ->
    Token_parse (S fuel) p tokens = Ok (value p, tokens)
    /\ forall data key colon newline next rest,
         overrides_parse (id key) = false -> id key <> IdEnd ->
         id colon = IdColon -> id p <> IdNewLine -> id newline = IdNewLine ->
         parse_while (S (S fuel)) data key (colon :: p :: newline :: next :: rest)
         = (data' <- setitem data (value key) (value p) ;;
            parse_while (S fuel) data' next rest).
Proof.
  intros fuel p tokens Hp. split; [apply Token_parse_default; exact Hp|].
  intros data key colon newline next rest Hkey Hend Hcolon Hnl Hnewline.
  rewrite parse_while_S.
  apply id_eqb_neq in Hend. rewrite Hend. cbn [negb].
  rewrite (Token_parse_default fuel key _ Hkey). cbn [bind].
  rewrite (advance_one colon _ IdColon Hcolon). cbn [bind].
  rewrite advance_any. cbn [bind].
  apply id_eqb_neq in Hnl. rewrite Hnl.
  cbn [bind]. rewrite (Token_parse_default fuel p _ Hp). cbn [bind].
  destruct (setitem data (value key) (value p)) as [data'| |]; cbn [bind];
    try reflexivity.
  rewrite (advance_one newline _ IdNewLine Hnewline). cbn [bind].
  rewrite advance_any. reflexivity.
Qed.

Lemma punctuation_parses_to_its_value_witness :
  overrides_parse (id (symbol IdComma)) = false
  /\ Token_parse 1 (symbol IdComma) [End] = Ok (PNone, [End]).
Proof.
  split; [reflexivity|].
  apply (proj1 (punctuation_parses_to_its_value 0 (symbol IdComma) [End] eq_refl)).
Defined.

(** C6, as stated, fails: in [a: ,] the comma stands where a value is
    expected, and the document (closed by a comment line) decodes, with
    [None] for [a]. *)
Lemma parse_comma_as_value :
  parse (lines ["a: ,"; "#"]) = Ok (POrderedDict [(PStr "a", PNone)]).
Proof. vm_compute. reflexivity. Qed.

(** ** Inline collections *)

Lemma LeftSquare_while_S :
  forall fuel data tok tokens,
    LeftSquare_while (S fuel) data tok tokens =
    if negb (id_eqb (id tok) IdRightSquare) then
      '(v, tokens) <- Token_parse fuel tok tokens ;;
      let data := data ++ [v] in
      '(tok, tokens) <- advance tokens (Classes [IdComma; IdRightSquare]) ;;
      '(tok, tokens) <- (if id_eqb (id tok) IdComma
                         then advance tokens AnyToken
                         else Ok (tok, tokens)) ;;
      LeftSquare_while fuel data tok tokens
    else Ok (PList data, tokens).
Proof. reflexivity. Qed.

Lemma LeftBrace_while_S :
  forall fuel data tok tokens,
    LeftBrace_while (S fuel) data tok tokens =
    if negb (id_eqb (id tok) IdRightBrace) then
      '(key, tokens) <- Token_parse fuel tok tokens ;;
      '(_, tokens) <- advance tokens (OneClass IdColon) ;;
      '(tok, tokens) <- advance tokens AnyToken ;;
      '(v, tokens) <- Token_parse fuel tok tokens ;;
      data <- setitem data key v ;;
      '(tok, tokens) <- advance tokens (Classes [IdComma; IdRightBrace]) ;;
      '(tok, tokens) <- (if id_eqb (id tok) IdComma
                         then advance tokens AnyToken
                         else Ok (tok, tokens)) ;;
      LeftBrace_while fuel data tok tokens
    else Ok (POrderedDict data, tokens).
Proof. reflexivity. Qed.

Lemma LeftRound_while_S :
  forall fuel data tok tokens,
    LeftRound_while (S fuel) data tok tokens =
    if negb (id_eqb (id tok) IdRightRound) then
      '(key, tokens) <- Token_parse fuel tok tokens ;;
      '(_, tokens) <- advance tokens (OneClass IdEqualSign) ;;
      '(tok, tokens) <- advance tokens AnyToken ;;
      '(v, tokens) <- Token_parse fuel tok tokens ;;
      data <- setitem data key v ;;
      '(tok, tokens) <- advance tokens (Classes [IdComma; IdRightRound]) ;;
      '(tok, tokens) <- (if id_eqb (id tok) IdComma
                         then advance tokens AnyToken
                         else Ok (tok, tokens)) ;;
      LeftRound_while fuel data tok tokens
    else Ok (POrderedDict data, tokens).
Proof. reflexivity. Qed.

(** [advance] with the tuple [(Comma, closer)] on a comma and on the
    closer. *)
Lemma advance_comma :
  forall tok tokens closer,
    id tok = IdComma ->
    advance (tok :: tokens) (Classes [IdComma; closer]) = Ok (tok, tokens).
Proof. intros tok tokens closer H. unfold advance. simpl. rewrite H. reflexivity. Qed.

Lemma advance_closer :
  forall tok tokens closer,
    id tok = closer ->
    advance (tok :: tokens) (Classes [IdComma; closer]) = Ok (tok, tokens).
Proof.
  intros tok tokens closer H. unfold advance. simpl. rewrite H.
  destruct closer; reflexivity.
Qed.

Lemma LeftSquare_while_elements :
  forall comma closer rest trailing,
    id comma = IdComma -> id closer = IdRightSquare ->
    forall elems fuel data e,
      element IdRightSquare e -> Forall (element IdRightSquare) elems ->
      (List.length elems + 1 < fuel)%nat ->
      LeftSquare_while fuel data e
        (flat_map (fun x => [comma; x]) elems ++ closing comma closer trailing ++ rest)
      = Ok (PList (data ++ value e :: map value elems), rest).
Proof.
  intros comma closer rest trailing Hcomma Hcloser.
  assert (Hclose : forall fuel data,
             LeftSquare_while (S fuel) data closer rest = Ok (PList data, rest)).
  { intros fuel data. rewrite LeftSquare_while_S, Hcloser. reflexivity. }
  induction elems as [|x elems IH]; intros fuel data e [Hdef Hne] Hall Hfuel.
  - destruct fuel as [|[|fuel]]; simpl in Hfuel; try lia.
    rewrite LeftSquare_while_S.
    apply id_eqb_neq in Hne. rewrite Hne. cbn [negb].
    rewrite (Token_parse_default _ _ _ Hdef). cbn [bind flat_map app].
    destruct trailing; cbn [closing app].
    + rewrite (advance_comma comma _ _ Hcomma). cbn [bind].
      rewrite Hcomma. cbn [id_eqb id_name String.eqb Ascii.eqb Bool.eqb].
      rewrite advance_any. cbn [bind]. apply Hclose.
    + rewrite (advance_closer closer _ _ Hcloser). cbn [bind].
      rewrite Hcloser. cbn [id_eqb id_name String.eqb Ascii.eqb Bool.eqb].
      apply Hclose.
  - destruct fuel as [|[|fuel]]; simpl in Hfuel; try lia.
    inversion Hall as [|? ? Hx Hall']; subst.
    rewrite LeftSquare_while_S.
    apply id_eqb_neq in Hne. rewrite Hne. cbn [negb].
    rewrite (Token_parse_default _ _ _ Hdef). cbn [bind flat_map app].
    rewrite (advance_comma comma _ _ Hcomma). cbn [bind].
    rewrite Hcomma. cbn [id_eqb id_name String.eqb Ascii.eqb Bool.eqb].
    rewrite advance_any. cbn [bind].
    rewrite (IH (S fuel) (data ++ [value e]) x Hx Hall'); [|lia].
    rewrite <- app_assoc. reflexivity.
Qed.

Lemma LeftBrace_while_entries :
  forall mid comma closer rest trailing,
    id mid = IdColon -> id comma = IdComma -> id closer = IdRightBrace ->
    forall kvs fuel data kv,
      entry IdRightBrace kv -> Forall (entry IdRightBrace) kvs ->
      (List.length kvs + 1 < fuel)%nat ->
      LeftBrace_while fuel data (fst kv)
        (mid :: snd kv :: flat_map (fun kv => [comma; fst kv; mid; snd kv]) kvs
           ++ closing comma closer trailing ++ rest)
      = Ok (POrderedDict (stored data (kv :: kvs)), rest).
Proof.
  intros mid comma closer rest trailing Hmid Hcomma Hcloser.
  assert (Hclose : forall fuel data,
             LeftBrace_while (S fuel) data closer rest = Ok (POrderedDict data, rest)).
  { intros fuel data. rewrite LeftBrace_while_S, Hcloser. reflexivity. }
  induction kvs as [|x kvs IH]; intros fuel data [k v] [[Hdef Hne] [Hhash Hv]] Hall Hfuel;
    cbn [fst snd] in *;
    (destruct fuel as [|[|fuel]]; simpl in Hfuel; try lia);
    rewrite LeftBrace_while_S;
    apply id_eqb_neq in Hne; rewrite Hne; cbn [negb];
    rewrite (Token_parse_default _ _ _ Hdef); cbn [bind];
    rewrite (advance_one mid _ _ Hmid); cbn [bind];
    rewrite advance_any; cbn [bind];
    rewrite (Token_parse_default _ _ _ Hv); cbn [bind];
    unfold setitem; rewrite Hhash; cbn [bind flat_map app].
  - destruct trailing; cbn [closing app].
    + rewrite (advance_comma comma _ _ Hcomma). cbn [bind].
      rewrite Hcomma. cbn [id_eqb id_name String.eqb Ascii.eqb Bool.eqb].
      rewrite advance_any. cbn [bind]. apply Hclose.
    + rewrite (advance_closer closer _ _ Hcloser). cbn [bind].
      rewrite Hcloser. cbn [id_eqb id_name String.eqb Ascii.eqb Bool.eqb].
      apply Hclose.
  - inversion Hall as [|? ? Hx Hall']; subst.
    rewrite (advance_comma comma _ _ Hcomma). cbn [bind].
    rewrite Hcomma. cbn [id_eqb id_name String.eqb Ascii.eqb Bool.eqb].
    rewrite advance_any. cbn [bind].
    rewrite (IH (S fuel) _ x Hx Hall'); [|lia].
    reflexivity.
Qed.

Lemma LeftRound_while_entries :
  forall mid comma closer rest trailing,
    id mid = IdEqualSign -> id comma = IdComma -> id closer = IdRightRound ->
    forall kvs fuel data kv,
      entry IdRightRound kv -> Forall (entry IdRightRound) kvs ->
      (List.length kvs + 1 < fuel)%nat ->
      LeftRound_while fuel data (fst kv)
        (mid :: snd kv :: flat_map (fun kv => [comma; fst kv; mid; snd kv]) kvs
           ++ closing comma closer trailing ++ rest)
      = Ok (POrderedDict (stored data (kv :: kvs)), rest).
Proof.
  intros mid comma closer rest trailing Hmid Hcomma Hcloser.
  assert (Hclose : forall fuel data,
             LeftRound_while (S fuel) data closer rest = Ok (POrderedDict data, rest)).
  { intros fuel data. rewrite LeftRound_while_S, Hcloser. reflexivity. }
  induction kvs as [|x kvs IH]; intros fuel data [k v] [[Hdef Hne] [Hhash Hv]] Hall Hfuel;
    cbn [fst snd] in *;
    (destruct fuel as [|[|fuel]]; simpl in Hfuel; try lia);
    rewrite LeftRound_while_S;
    apply id_eqb_neq in Hne; rewrite Hne; cbn [negb];
    rewrite (Token_parse_default _ _ _ Hdef); cbn [bind];
    rewrite (advance_one mid _ _ Hmid); cbn [bind];
    rewrite advance_any; cbn [bind];
    rewrite (Token_parse_default _ _ _ Hv); cbn [bind];
    unfold setitem; rewrite Hhash; cbn [bind flat_map app].
  - destruct trailing; cbn [closing app].
    + rewrite (advance_comma comma _ _ Hcomma). cbn [bind].
      rewrite Hcomma. cbn [id_eqb id_name String.eqb Ascii.eqb Bool.eqb].
      rewrite advance_any. cbn [bind]. apply Hclose.
    + rewrite (advance_closer closer _ _ Hcloser). cbn [bind].
      rewrite Hcloser. cbn [id_eqb id_name String.eqb Ascii.eqb Bool.eqb].
      apply Hclose.
  - inversion Hall as [|? ? Hx Hall']; subst.
    rewrite (advance_comma comma _ _ Hcomma). cbn [bind].
    rewrite Hcomma. cbn [id_eqb id_name String.eqb Ascii.eqb Bool.eqb].
    rewrite advance_any. cbn [bind].
    rewrite (IH (S fuel) _ x Hx Hall'); [|lia].
    reflexivity.
Qed.

Lemma Token_parse_LeftSquare :
  forall fuel self tok tokens,
    id self = IdLeftSquare ->
    Token_parse (S fuel) self (tok :: tokens) = LeftSquare_while fuel [] tok tokens.
Proof. intros fuel self tok tokens H. simpl. rewrite H. reflexivity. Qed.

Lemma Token_parse_LeftBrace :
  forall fuel self tok tokens,
    id self = IdLeftBrace ->
    Token_parse (S fuel) self (tok :: tokens) = LeftBrace_while fuel [] tok tokens.
Proof. intros fuel self tok tokens H. simpl. rewrite H. reflexivity. Qed.

Lemma Token_parse_LeftRound :
  forall fuel self tok tokens,
    id self = IdLeftRound ->
    Token_parse (S fuel) self (tok :: tokens) = LeftRound_while fuel [] tok tokens.
Proof. intros fuel self tok tokens H. simpl. rewrite H. reflexivity. Qed.

(** C8: an inline sequence of scalar elements decodes to the list of
    their values, in order, whether or not a comma stands before the
    closing bracket, and leaves the same stream behind; the same holds
    for the inline mappings in braces and in round brackets. So
    [[1, 2, 3,]] and [[1, 2, 3]] decode alike as the value of an
    entry. *)
Theorem trailing_comma_tolerated :
  forall (comma : token) (rest : list token) (trailing : bool) (fuel : nat),
    id comma = IdComma ->
    (forall left right elems,
       id left = IdLeftSquare -> id right = IdRightSquare ->
       elems <> [] -> Forall (element IdRightSquare) elems ->
       (List.length elems < fuel)%nat ->
       Token_parse (S fuel) left
         (separated comma elems ++ closing comma right trailing ++ rest)
       = Ok (PList (map value elems), rest))
    /\ (forall left right mid kvs,
       id left = IdLeftBrace -> id right = IdRightBrace -> id mid = IdColon ->
       kvs <> [] -> Forall (entry IdRightBrace) kvs ->
       (List.length kvs < fuel)%nat ->
       Token_parse (S fuel) left
         (entries mid comma kvs ++ closing comma right trailing ++ rest)
       = Ok (POrderedDict (stored [] kvs), rest))
    /\ (forall left right mid kvs,
       id left = IdLeftRound -> id right = IdRightRound -> id mid = IdEqualSign ->
       kvs <> [] -> Forall (entry IdRightRound) kvs ->
       (List.length kvs < fuel)%nat ->
       Token_parse (S fuel) left
         (entries mid comma kvs ++ closing comma right trailing ++ rest)
       = Ok (POrderedDict (stored [] kvs), rest)).
Proof.
  intros comma rest trailing fuel Hcomma. repeat split.
  - intros left right [|e elems] Hl Hr Hne Hall Hfuel; [congruence|].
    inversion Hall as [|? ? He Hall']; subst.
    cbn [separated app]. rewrite (Token_parse_LeftSquare _ _ _ _ Hl).
    apply (LeftSquare_while_elements comma right rest trailing Hcomma Hr
             elems fuel [] e He Hall').
    simpl in Hfuel. lia.
  - intros left right mid [|[k v] kvs] Hl Hr Hm Hne Hall Hfuel; [congruence|].
    inversion Hall as [|? ? He Hall']; subst.
    cbn [entries app]. rewrite (Token_parse_LeftBrace _ _ _ _ Hl).
    apply (LeftBrace_while_entries mid comma right rest trailing Hm Hcomma Hr
             kvs fuel [] (k, v) He Hall').
    simpl in Hfuel. lia.
  - intros left right mid [|[k v] kvs] Hl Hr Hm Hne Hall Hfuel; [congruence|].
    inversion Hall as [|? ? He Hall']; subst.
    cbn [entries app]. rewrite (Token_parse_LeftRound _ _ _ _ Hl).
    apply (LeftRound_while_entries mid comma right rest trailing Hm Hcomma Hr
             kvs fuel [] (k, v) He Hall').
    simpl in Hfuel. lia.
Qed.

Lemma trailing_comma_tolerated_witness :
  Forall (element IdRightSquare) sample_elements
  /\ Token_parse 5 (symbol IdLeftSquare)
       (separated (symbol IdComma) sample_elements
          ++ [symbol IdComma; symbol IdRightSquare] ++ [NewLine 1; End])
     = Ok (PList [PInt 1; PInt 2; PInt 3], [NewLine 1; End])
  /\ Token_parse 5 (symbol IdLeftSquare)
       (separated (symbol IdComma) sample_elements
          ++ [symbol IdRightSquare] ++ [NewLine 1; End])
     = Ok (PList [PInt 1; PInt 2; PInt 3], [NewLine 1; End]).
Proof.
  assert (H : Forall (element IdRightSquare) sample_elements).
  { repeat constructor; discriminate. }
  split; [exact H|]. split.
  - exact (proj1 (trailing_comma_tolerated (symbol IdComma) [NewLine 1; End] true 4
                    eq_refl)
             (symbol IdLeftSquare) (symbol IdRightSquare) sample_elements
             eq_refl eq_refl ltac:(discriminate) H ltac:(simpl; lia)).
  - exact (proj1 (trailing_comma_tolerated (symbol IdComma) [NewLine 1; End] false 4
                    eq_refl)
             (symbol IdLeftSquare) (symbol IdRightSquare) sample_elements
             eq_refl eq_refl ltac:(discriminate) H ltac:(simpl; lia)).
Defined.

(** The same on documents (closed by a comment line). *)
Lemma parse_trailing_comma_documents :
  parse (lines ["a: [1, 2, 3,]"; "#"])
    = Ok (POrderedDict [(PStr "a", PList [PInt 1; PInt 2; PInt 3])])
  /\ parse (lines ["a: [1, 2, 3]"; "#"])
    = Ok (POrderedDict [(PStr "a", PList [PInt 1; PInt 2; PInt 3])])
  /\ parse (lines ["a: {x: 1, y: 2,}"; "#"]) = parse (lines ["a: {x: 1, y: 2}"; "#"])
  /\ parse (lines ["a: (x=1, y=2,)"; "#"]) = parse (lines ["a: (x=1, y=2)"; "#"])
  /\ parse (lines ["a: (x=1, y=2,)"; "#"])
    = Ok (POrderedDict
            [(PStr "a", POrderedDict [(PStr "x", PInt 1); (PStr "y", PInt 2)])])
  /\ parse "a: [1, 2, 3,]" = parse "a: [1, 2, 3]".
Proof. vm_compute. repeat split. Qed.

(** ** The conversion cascade *)

Lemma decimal_char_facts :
  forall c, is_decimal c = true ->
    py_isdigit_char c = true /\ is_char 95 c = false /\ number_space c = false
    /\ is_char 45 c = false /\ is_char 43 c = false /\ lower c = c
    /\ Ascii.eqb c "i" = false /\ Ascii.eqb c "n" = false.
Proof. intros c H. by_cases_on_char c; repeat split. Qed.

Lemma append_empty : forall s : string, (s ++ "")%string = s.
Proof. induction s as [|c s IH]; simpl; [reflexivity|]. rewrite IH. reflexivity. Qed.


(** A text without underscores passes the digit grouping unchanged. *)
Lemma drop_underscores_plain :
  forall s prev,
    str_all (fun c => negb (is_char 95 c)) s = true ->
    match prev with Some p => is_char 95 p = false | None => True end ->
    drop_underscores prev s = Some s.
Proof.
  induction s as [|c s IH]; intros prev Hs Hp; simpl in *.
  - destruct prev as [p|]; [rewrite Hp|]; reflexivity.
  - apply andb_prop in Hs as [Hc Hs]. apply negb_true_iff in Hc. rewrite Hc.
    assert (E : match prev with
                | Some p => is_char 95 p && negb (is_decimal c)
                | None => false
                end = false).
    { destruct prev as [p|]; [rewrite Hp|]; reflexivity. }
    rewrite E. rewrite (IH (Some c) Hs Hc). reflexivity.
Qed.

(** A text without any of the stripped characters is left as it is. *)
Lemma strip_by_plain :
  forall p s, str_all (fun c => negb (p c)) s = true -> strip_by p s = s.
Proof.
  intros p s H. unfold strip_by.
  assert (L : lstrip_by p s = s).
  { destruct s as [|c s]; simpl in *; [reflexivity|].
    apply andb_prop in H as [Hc _]. apply negb_true_iff in Hc. rewrite Hc.
    reflexivity. }
  rewrite L. induction s as [|c s IH]; simpl in *; [reflexivity|].
  apply andb_prop in H as [Hc Hs]. apply negb_true_iff in Hc.
  rewrite IH; [|exact Hs|].
  - destruct s; [rewrite Hc|]; reflexivity.
  - destruct s as [|d s]; simpl in *; [reflexivity|].
    apply andb_prop in Hs as [Hd _]. apply negb_true_iff in Hd. rewrite Hd.
    reflexivity.
Qed.

Lemma span_digits_run :
  forall d r,
    str_all is_decimal d = true ->
    match r with String c _ => is_decimal c = false | EmptyString => True end ->
    span_digits (d ++ r)%string = (d, r).
Proof.
  induction d as [|c d IH]; intros r Hd Hr; simpl in *.
  - destruct r as [|c r]; [reflexivity|]. simpl. rewrite Hr. reflexivity.
  - apply andb_prop in Hd as [Hc Hd]. rewrite Hc. rewrite (IH r Hd Hr). reflexivity.
Qed.

Lemma str_all_impl :
  forall (p q : ascii -> bool) s,
    (forall c, p c = true -> q c = true) -> str_all p s = true -> str_all q s = true.
Proof.
  intros p q s Hpq. induction s as [|c s IH]; simpl; [reflexivity|].
  intros H. apply andb_prop in H as [Hc Hs]. rewrite (Hpq c Hc). simpl. auto.
Qed.

Lemma str_all_app :
  forall p s t, str_all p (s ++ t)%string = str_all p s && str_all p t.
Proof.
  intros p s t. induction s as [|c s IH]; simpl; [reflexivity|].
  rewrite IH. apply andb_assoc.
Qed.


(** *** Texts

    General facts on [strip] and on runs of a class. *)

Lemma append_assoc :
  forall a b c : string, ((a ++ b) ++ c)%string = (a ++ (b ++ c))%string.
Proof. induction a as [|x a IH]; intros b c; cbn [append]; [|rewrite IH]; reflexivity. Qed.

Lemma lstrip_by_run :
  forall p body t,
    str_all p body = true -> starts_with p t = false ->
    lstrip_by p (body ++ t)%string = t.
Proof.
  intros p body t Hall Ht. induction body as [|c body IH]; cbn [append].
  - destruct t as [|d t]; [reflexivity|]. cbn [lstrip_by]. cbn [starts_with] in Ht.
    rewrite Ht. reflexivity.
  - cbn [str_all] in Hall. apply andb_prop in Hall as [Hc Hall].
    cbn [lstrip_by]. rewrite Hc. apply (IH Hall).
Qed.

(** Split a text into its leading run of a class and the rest. *)
Lemma run_split :
  forall p s, exists body t,
    s = (body ++ t)%string /\ str_all p body = true /\ starts_with p t = false.
Proof.
  intros p s. induction s as [|c s (body & t & Hs & Hall & Ht)].
  - exists EmptyString, EmptyString. auto.
  - destruct (p c) eqn:E.
    + exists (String c body), t. subst s. cbn [append str_all]. rewrite E. auto.
    + exists EmptyString, (String c s). cbn [append starts_with]. auto.
Qed.

(** *** The texts [float()] reads *)




































(** *** The stages of the cascade *)







(** The texts the statement above leaves out: a superscript digit
    passes [isdigit()], and [int()] raises on it. *)
Lemma literal_superscript_raises :
  Literal_do (String (ascii_of_nat 178) "") = Raise ValueError.
Proof. reflexivity. Qed.

(** ** Negative numbers *)

Lemma number_char_facts :
  forall c, (is_decimal c || is_char 45 c || is_char 46 c) = true ->
    negb (is_char 95 c) = true /\ negb (number_space c) = true.
Proof. intros c H. by_cases_on_char c; split; reflexivity. Qed.

(** [float()] on a minus sign, a non-empty run of digits and, after a
    point, a further run of digits. *)
Lemma py_float_negative :
  forall d r,
    decimal_run d = true ->
    str_all (fun c => is_decimal c || is_char 45 c || is_char 46 c) r = true ->
    py_float (String "-" (d ++ r)) = float_decimal true (d ++ r)%string.
Proof.
  intros d r Hd Hr. unfold py_float.
  destruct d as [|c d]; [discriminate|]. unfold decimal_run in Hd.
  assert (Hall : str_all (fun c => is_decimal c || is_char 45 c || is_char 46 c)
                   (String "-" (String c d ++ r)) = true).
  { cbn [str_all]. rewrite str_all_app, Hr, andb_true_r.
    apply (str_all_impl is_decimal); [|exact Hd].
    intros a Ha. rewrite Ha. reflexivity. }
  rewrite drop_underscores_plain; [| |exact I].
  2:{ apply (str_all_impl _ _ _ (fun a Ha => proj1 (number_char_facts a Ha)) Hall). }
  rewrite strip_by_plain.
  2:{ apply (str_all_impl _ _ _ (fun a Ha => proj2 (number_char_facts a Ha)) Hall). }
  cbn [split_sign is_char code nat_of_ascii Nat.eqb].
  change (is_char 45 "-") with true. cbv iota.
  simpl in Hd. apply andb_prop in Hd as [Hc _].
  destruct (decimal_char_facts c Hc) as (_ & _ & _ & _ & _ & Hl & Hi & Hn).
  cbn [lower_str append]. rewrite Hl.
  cbn [String.eqb]. rewrite Hi, Hn. reflexivity.
Qed.

(** C5, as the code has it: on a bare literal that is a minus sign
    followed by digits, Integer conversion gives nothing (only unsigned
    digit runs pass [isdigit()]), and Float conversion takes it:
    the token is a Float holding the negative number, also when a
    decimal point and further digits follow. *)
Theorem negative_literal_is_float :
  forall d f,
    decimal_run d = true -> str_all is_decimal f = true ->
    Integer_convert (String "-" d) = Ok None
    /\ Literal_do (String "-" d)
       = Ok (Token IdFloat (PFloat (FDec true (digits_value 0 d) 0)) None)
    /\ Literal_do (String "-" (d ++ String "." f))
       = Ok (Token IdFloat
               (PFloat (FDec true (digits_value 0 (d ++ f))
                          (- Z.of_nat (String.length f)))) None).
Proof.
  intros d f Hd Hf.
  assert (Hd' : str_all is_decimal d = true).
  { destruct d; [discriminate|exact Hd]. }
  assert (Hint : forall t, Integer_convert (String "-" t) = Ok None)
    by reflexivity.
  assert (Hne : forall t, (d ++ t)%string <> EmptyString).
  { intros t. destruct d; [discriminate|]. discriminate. }
  split; [apply Hint|]. split.
  - unfold Literal_do, Literal_for. rewrite Hint. cbn [bind]. unfold Float_convert.
    rewrite <- (append_empty d) at 1.
    rewrite (py_float_negative d "" Hd eq_refl).
    unfold float_decimal. rewrite (span_digits_run d "" Hd' I).
    rewrite !append_empty.
    destruct d as [|c d]; [discriminate|]. reflexivity.
  - unfold Literal_do, Literal_for. rewrite Hint. cbn [bind]. unfold Float_convert.
    rewrite (py_float_negative d (String "." f) Hd).
    2:{ cbn [str_all]. apply (str_all_impl is_decimal); [|exact Hf].
        intros a Ha. rewrite Ha. reflexivity. }
    unfold float_decimal. rewrite (span_digits_run d (String "." f) Hd' eq_refl).
    change (is_char 46 ".") with true. cbv iota.
    rewrite <- (append_empty f) at 1. rewrite (span_digits_run f "" Hf I).
    specialize (Hne f). destruct (d ++ f)%string eqn:E; [congruence|].
    cbn [float_exponent bind]. rewrite Z.sub_0_l. reflexivity.
Qed.

Lemma negative_literal_is_float_witness :
  decimal_run "1" = true /\ str_all is_decimal "5" = true
  /\ Literal_do "-1" = Ok (Token IdFloat (PFloat (FDec true 1 0)) None)
  /\ Literal_do "-1.5" = Ok (Token IdFloat (PFloat (FDec true 15 (-1))) None).
Proof.
  split; [reflexivity|]. split; [reflexivity|]. split.
  - apply (proj1 (proj2 (negative_literal_is_float "1" "" eq_refl eq_refl))).
  - apply (proj2 (proj2 (negative_literal_is_float "1" "5" eq_refl eq_refl))).
Defined.

(** C5, as stated, fails: the bare literal [-1] does not fall through
    to a String; it becomes the Float -1, and so in a document. *)
Lemma literal_minus_one_is_float :
  Literal_do "-1" = Ok (Token IdFloat (PFloat (FDec true 1 0)) None)
  /\ Literal_do "-1" <> Ok (Token IdString (PStr "-1") None)
  /\ parse (lines ["a: -1"; "#"])
     = Ok (POrderedDict [(PStr "a", PFloat (FDec true 1 0))]).
Proof. repeat split. discriminate. Qed.

(** ** Text that no pattern matches *)

Lemma scanner_lexicon :
  _scanner =
  [ (String_re, Some String_do); (Literal_re, Some Literal_do);
    (Chr ",", Some (Symbol_do IdComma)); (Chr ":", Some (Symbol_do IdColon));
    (Chr "=", Some (Symbol_do IdEqualSign)); (Chr "-", Some (Symbol_do IdHyphen));
    (Chr "(", Some (Symbol_do IdLeftRound)); (Chr ")", Some (Symbol_do IdRightRound));
    (Chr "[", Some (Symbol_do IdLeftSquare)); (Chr "]", Some (Symbol_do IdRightSquare));
    (Chr "{", Some (Symbol_do IdLeftBrace)); (Chr "}", Some (Symbol_do IdRightBrace));
    (Comment_re, None); (Indent_re, Some Indent_do); (NewLine_re, Some NewLine_do);
    (WhiteSpace_re, None); (Unknown_re, Some Unknown_do) ].
Proof. reflexivity. Qed.

(** The pattern of [Unknown] matches up to the end of the line. *)
Lemma rounds_dot :
  forall n s prev,
    (String.length s <= n)%nat ->
    exists prev',
      rounds (fun p t k' => re_match (Class dot) p t k')
             (fun p t => Some (p, t)) n prev s
      = Some (prev', after_line s).
Proof.
  set (body := fun p t k' => re_match (Class dot) p t k').
  induction n as [|n IH]; intros s prev Hn.
  - destruct s; simpl in Hn; [|lia]. exists prev. reflexivity.
  - destruct s as [|c s]; [exists prev; reflexivity|].
    cbn [rounds after_line]. unfold body at 1. cbn [re_match]. destruct (dot c).
    + assert (E : (String.length s <? String.length (String c s))%nat = true)
        by (apply Nat.ltb_lt; simpl; lia).
      rewrite E. simpl in Hn.
      destruct (IH s (Some c) ltac:(lia)) as (p & Hp).
      rewrite Hp. exists p. reflexivity.
    + exists prev. reflexivity.
Qed.

Lemma match_Unknown :
  forall prev s, exists prev', match_at Unknown_re prev s = Some (prev', after_line s).
Proof.
  intros prev s. unfold match_at, Unknown_re. cbn [re_match].
  apply rounds_dot. lia.
Qed.

Lemma line_length :
  forall s,
    (String.length (rest_of_line s) + String.length (after_line s))%nat
    = String.length s.
Proof.
  induction s as [|c s IH]; simpl; [reflexivity|].
  destruct (dot c); simpl; lia.
Qed.

Lemma line_prefix :
  forall s, substring 0 (String.length (rest_of_line s)) s = rest_of_line s.
Proof.
  induction s as [|c s IH]; simpl; [reflexivity|].
  destruct (dot c); simpl; [rewrite IH|]; reflexivity.
Qed.

(** Where a line break stands, the pattern of [NewLine] matches. *)
Lemma match_NewLine :
  forall prev s, match_at NewLine_re prev (String newline s) <> None.
Proof.
  intros prev s. unfold match_at, NewLine_re, Plus, Chr. cbn [re_match].
  change (Ascii.eqb newline newline) with true. cbv iota.
  generalize (String.length s), (Some newline). intros n p.
  destruct n as [|n]; cbn [rounds]; [discriminate|].
  match goal with |- match ?m with _ => _ end <> None => destruct m end;
    discriminate.
Qed.

(** At an unmatched position that is not the end of the text the
    scanner raises [TokenError] with the rest of the line. *)
Lemma scan_loop_unmatched :
  forall fuel prev s acc,
    unmatched prev s = true -> s <> EmptyString ->
    scan_loop _scanner (S fuel) prev s acc = Raise (TokenError (rest_of_line s))
    /\ rest_of_line s <> EmptyString.
Proof.
  intros fuel prev s acc H Hs.
  unfold unmatched in H. rewrite scanner_lexicon in H.
  cbn [patterns map fst removelast forallb] in H.
  repeat match type of H with
         | (_ && _) = true => let H1 := fresh "M" in apply andb_prop in H as [H1 H]
         end.
  repeat match goal with
         | M : match ?m with Some _ => false | None => true end = true |- _ =>
             destruct m eqn:?; [discriminate M|clear M]
         end.
  destruct s as [|c s]; [congruence|].
  assert (Hc : dot c = true).
  { unfold dot. destruct (Ascii.eqb c newline) eqn:E; [|reflexivity].
    apply Ascii.eqb_eq in E. subst c.
    exfalso. eapply match_NewLine. eassumption. }
  assert (Hline : rest_of_line (String c s) <> EmptyString).
  { simpl. rewrite Hc. discriminate. }
  split; [|exact Hline].
  destruct (match_Unknown prev (String c s)) as (p & Hp).
  cbn [scan_loop]. rewrite scanner_lexicon. cbn [first_match].
  repeat match goal with E : match_at _ _ _ = None |- _ => rewrite E; clear E end.
  rewrite Hp.
  pose proof (line_length (String c s)) as L.
  replace (String.length (String c s) - String.length (after_line (String c s)))%nat
    with (String.length (rest_of_line (String c s))) by lia.
  destruct (String.length (rest_of_line (String c s)) =? 0)%nat eqn:E.
  - apply Nat.eqb_eq in E. destruct (rest_of_line (String c s)); [congruence|].
    discriminate E.
  - rewrite line_prefix. reflexivity.
Qed.

(** The scanner carries an error of a later position to the caller. *)
Lemma scan_loop_scans :
  forall prev s prev' s',
    scans prev s prev' s' ->
    forall fuel acc,
      (String.length s < fuel)%nat ->
      exists fuel' acc',
        (String.length s' < fuel')%nat
        /\ scan_loop _scanner fuel prev s acc = scan_loop _scanner fuel' prev' s' acc'.
Proof.
  induction 1 as [prev s
                 |prev p1 p2 s s1 s2 Hm Hlen Hs IH
                 |prev p1 p2 s s1 s2 do tok Hm Hlen Hdo Hs IH];
    intros fuel acc Hfuel.
  - exists fuel, acc. auto.
  - destruct fuel as [|fuel]; [lia|].
    destruct (IH fuel acc ltac:(lia)) as (fuel' & acc' & Hf & E).
    exists fuel', acc'. split; [exact Hf|].
    cbn [scan_loop]. rewrite Hm.
    destruct (String.length s - String.length s1 =? 0)%nat eqn:Ej;
      [apply Nat.eqb_eq in Ej; lia|exact E].
  - destruct fuel as [|fuel]; [lia|].
    destruct (IH fuel (acc ++ [tok]) ltac:(lia)) as (fuel' & acc' & Hf & E).
    exists fuel', acc'. split; [exact Hf|].
    cbn [scan_loop]. rewrite Hm.
    destruct (String.length s - String.length s1 =? 0)%nat eqn:Ej;
      [apply Nat.eqb_eq in Ej; lia|].
    rewrite Hdo. cbn [bind]. exact E.
Qed.

(** C9, as the code has it: when the scanner comes to a position of the
    (stripped) input where no pattern but that of [Unknown] matches,
    as at a lone [!], decoding stops there with the [TokenError]
    (the spec's lexical error) that carries the unmatched text, the
    rest of that line, and returns no tokens. *)
Theorem unknown_text_aborts :
  forall input_string prev s,
    scans None (strip input_string) prev s ->
    unmatched prev s = true -> s <> EmptyString ->
    parse input_string = Raise (TokenError (rest_of_line s))
    /\ tokenize input_string = Raise (TokenError (rest_of_line s))
    /\ rest_of_line s <> EmptyString.
Proof.
  intros input_string prev s Hscans Hun Hs.
  assert (E : scan _scanner (strip input_string) = Raise (TokenError (rest_of_line s))).
  { unfold scan.
    destruct (scan_loop_scans _ _ _ _ Hscans (S (String.length (strip input_string))) []
                ltac:(lia)) as (fuel' & acc' & Hf & E).
    rewrite E. destruct fuel' as [|fuel']; [lia|].
    apply (scan_loop_unmatched fuel' prev s acc' Hun Hs). }
  assert (T : tokenize input_string = Raise (TokenError (rest_of_line s))).
  { unfold tokenize. rewrite E. reflexivity. }
  split; [|split].
  - unfold parse. rewrite T. reflexivity.
  - exact T.
  - destruct s as [|c s]; [congruence|].
    apply (scan_loop_unmatched 0 prev (String c s) [] Hun Hs).
Qed.

Lemma unknown_text_aborts_witness :
  scans None (strip "a: !b") (Some " "%char) "!b"
  /\ unmatched (Some " "%char) "!b" = true
  /\ parse "a: !b" = Raise (TokenError "!b")
  /\ parse "!" = Raise (TokenError "!").
Proof.
  assert (S : scans None (strip "a: !b") (Some " "%char) "!b").
  { apply (scans_token None (Some "a"%char) _ "a: !b" ": !b" _ Literal_do
             (Token IdString (PStr "a") None));
      [reflexivity|simpl; lia|reflexivity|].
    apply (scans_token _ (Some ":"%char) _ ": !b" " !b" _ (Symbol_do IdColon)
             (symbol IdColon));
      [reflexivity|simpl; lia|reflexivity|].
    apply (scans_skip _ (Some " "%char) _ " !b" "!b");
      [reflexivity|simpl; lia|].
    apply scans_here. }
  split; [exact S|]. split; [reflexivity|]. split.
  - apply (proj1 (unknown_text_aborts "a: !b" (Some " "%char) "!b" S
                    eq_refl ltac:(discriminate))).
  - apply (proj1 (unknown_text_aborts "!" None "!" (scans_here None "!")
                    eq_refl ltac:(discriminate))).
Defined.

(** Further into a document: the text from the exclamation mark to the
    end of its line is reported. *)
Lemma parse_unknown_in_document :
  parse (lines ["a: 1"; "b: !c d"; "e: 2"]) = Raise (TokenError "!c d").
Proof. vm_compute. reflexivity. Qed.

(** C9, as stated, fails: a lone [@] is matched by the pattern of
    [Literal]; the scanner returns a String token for it and decoding
    ends with the syntax error for the missing colon. *)
Lemma lone_at_sign_is_scanned :
  unmatched None "@" = false
  /\ scan _scanner "@" = Ok ([Token IdString (PStr "@") None], "")
  /\ parse "@" = Raise (SyntaxError End "Colon" None).
Proof. vm_compute. repeat split. Qed.

(** ** The scanner and [tokenize] return *)

Lemma first_match_In :
  forall lex prev s action prev' rest,
    first_match lex prev s = Some (action, prev', rest) ->
    exists r, In (r, action) lex.
Proof.
  induction lex as [|[r a] lex IH]; intros prev s action prev' rest H; simpl in H.
  - discriminate.
  - destruct (match_at r prev s) as [[p t]|].
    + inversion H; subst. exists r. left. reflexivity.
    + destruct (IH _ _ _ _ _ H) as (r' & Hin). exists r'. right. exact Hin.
Qed.

(** What the [do] of every token class returns: never the end of the
    fuel, and a token of the scanner's shape that is no [End()]. *)
Ltac do_returns :=
  split; [discriminate|intros tok H; inversion H; (split; [reflexivity|discriminate])].

Lemma Literal_do_returns :
  forall t,
    Literal_do t <> OutOfFuel /\ forall tok, Literal_do t = Ok tok -> scanned tok.
Proof.
  intros t. unfold Literal_do, Literal_for, Integer_convert, Float_convert,
    Boolean_convert.
  destruct (isdigit t); [destruct (py_int t)|]; cbn [bind]; try do_returns.
  destruct (py_float t); cbn [bind]; try do_returns.
  destruct (Boolean_lookup Boolean_mapping t); cbn [bind]; try do_returns.
  destruct (str_in t ["null"; "Null"; "NULL"]); do_returns.
Qed.

Lemma scanner_do_returns :
  forall r do t,
    In (r, Some do) _scanner ->
    do t <> OutOfFuel /\ forall tok, do t = Ok tok -> scanned tok.
Proof.
  intros r do t Hin. rewrite scanner_lexicon in Hin. simpl in Hin.
  repeat (destruct Hin as [Hin|Hin];
          [inversion Hin; subst; clear Hin; try do_returns|]);
    try contradiction.
  - destruct t; do_returns.
  - apply Literal_do_returns.
  - split; [discriminate|]. intros tok H. inversion H.
    split; [|discriminate].
    unfold scanned_shape, len. simpl. apply Z.leb_le. lia.
Qed.

Lemma scan_loop_returns :
  forall fuel prev s acc,
    (String.length s < fuel)%nat ->
    Forall scanned acc ->
    scan_loop _scanner fuel prev s acc <> OutOfFuel
    /\ forall tokens remainder,
         scan_loop _scanner fuel prev s acc = Ok (tokens, remainder) ->
         Forall scanned tokens.
Proof.
  induction fuel as [|fuel IH]; intros prev s acc Hfuel Hacc; [lia|].
  cbn [scan_loop].
  destruct (first_match _scanner prev s) as [[[action p] rest]|] eqn:Hm.
  2:{ split; [discriminate|]. intros tokens remainder H. inversion H; subst. exact Hacc. }
  destruct (String.length s - String.length rest =? 0)%nat eqn:Ej.
  { split; [discriminate|]. intros tokens remainder H. inversion H; subst. exact Hacc. }
  apply Nat.eqb_neq in Ej.
  destruct action as [do|].
  - destruct (first_match_In _ _ _ _ _ _ Hm) as (r & Hin).
    destruct (scanner_do_returns r do
                (substring 0 (String.length s - String.length rest) s) Hin)
      as [Hne Hshape].
    destruct (do (substring 0 (String.length s - String.length rest) s)) as [tok| |];
      cbn [bind]; [|split; [discriminate|intros ? ? H; discriminate H]|congruence].
    apply IH; [lia|].
    apply Forall_app. split; [exact Hacc|]. constructor; [|constructor].
    apply Hshape. reflexivity.
  - apply IH; [lia|exact Hacc].
Qed.

(** Every token of a round of [tokenize] is the token of that round, a
    Dedent or a NewLine. *)
Lemma dedent_while_cons :
  forall top below curr pos,
    dedent_while (top :: below) curr pos =
    if (top >? curr)%Z then
      '(stack, out) <- dedent_while below curr pos ;;
      Ok (stack, Dedent top pos :: NewLine pos :: out)
    else Ok (top :: below, []).
Proof. reflexivity. Qed.

Lemma dedent_while_ids :
  forall stack curr pos stack' out,
    dedent_while stack curr pos = Ok (stack', out) ->
    Forall (fun t => id t <> IdEnd) out.
Proof.
  induction stack as [|top below IH]; intros curr pos stack' out H;
    [discriminate H|].
  rewrite dedent_while_cons in H.
  destruct (top >? curr)%Z.
  - destruct (dedent_while below curr pos) as [[s o]| |] eqn:E; cbn [bind] in H;
      try discriminate H.
    inversion H; subst.
    constructor; [discriminate|]. constructor; [discriminate|].
    apply (IH _ _ _ _ E).
  - inversion H; subst. constructor.
Qed.

Lemma tokenize_step_ids :
  forall st tok st' out,
    id tok <> IdEnd ->
    tokenize_step st tok = Ok (st', out) ->
    Forall (fun t => id t <> IdEnd) out.
Proof.
  intros st tok st' out Htok H. unfold tokenize_step in H.
  match type of H with bind ?x _ = _ =>
    destruct x as [[change curr]| |]; cbn [bind] in H; try discriminate H end.
  match type of H with bind ?x _ = _ =>
    destruct x as [[[pos tok'] nl]| |] eqn:E; cbn [bind] in H; try discriminate H end.
  assert (Hid : id tok' = id tok).
  { destruct (id_eqb (id tok) IdNewLine).
    - destruct (int_value tok); cbn [bind] in E; inversion E; reflexivity.
    - inversion E; reflexivity. }
  match type of H with bind ?x _ = _ =>
    destruct x as [[stack dedents]| |] eqn:D; cbn [bind] in H; try discriminate H end.
  assert (Hd : Forall (fun t => id t <> IdEnd) dedents).
  { destruct (change <? 0)%Z.
    - apply (dedent_while_ids _ _ _ _ _ D).
    - inversion D; subst. constructor. }
  assert (Htok' : id tok' <> IdEnd) by (rewrite Hid; exact Htok).
  destruct (change >? 0)%Z; destruct (negb (id_eqb (id tok') IdIndent));
    inversion H; subst; repeat (apply Forall_app; split); auto.
Qed.

Lemma tokenize_for_ids :
  forall tokens st st' out,
    Forall (fun t => id t <> IdEnd) tokens ->
    tokenize_for st tokens = Ok (st', out) ->
    Forall (fun t => id t <> IdEnd) out.
Proof.
  induction tokens as [|tok tokens IH]; intros st st' out Hall H; cbn [tokenize_for] in H.
  - inversion H; subst. constructor.
  - inversion Hall as [|? ? Htok Hall']; subst.
    destruct (tokenize_step st tok) as [[st1 out1]| |] eqn:E1; cbn [bind] in H;
      try discriminate H.
    destruct (tokenize_for st1 tokens) as [[st2 out2]| |] eqn:E2; cbn [bind] in H;
      try discriminate H.
    inversion H; subst. apply Forall_app. split.
    + apply (tokenize_step_ids _ _ _ _ Htok E1).
    + apply (IH _ _ _ Hall' E2).
Qed.

(** [tokenize] returns on every input: it yields its tokens, the last
    of which is the only [End()], or the scanner has raised an error;
    the indent stack is never popped empty. *)
Lemma tokenize_returns :
  forall input_string,
    (exists out, tokenize input_string = Ok (out ++ [End])
                 /\ Forall (fun t => id t <> IdEnd) out)
    \/ (exists e, scan _scanner (strip input_string) = Raise e
                  /\ tokenize input_string = Raise e).
Proof.
  intros input_string. unfold tokenize, scan.
  destruct (scan_loop_returns (S (String.length (strip input_string))) None
              (strip input_string) [] ltac:(lia) ltac:(constructor))
    as [Hne Hshape].
  destruct (scan_loop _scanner (S (String.length (strip input_string))) None
              (strip input_string) []) as [[tokens remainder]|e|];
    cbn [bind]; [|right; exists e; auto|congruence].
  left. specialize (Hshape tokens remainder eq_refl).
  assert (Hall : forallb scanned_shape tokens = true).
  { apply forallb_forall. rewrite Forall_forall in Hshape.
    intros t Ht. apply (Hshape t Ht). }
  assert (Hids : Forall (fun t => id t <> IdEnd) tokens).
  { apply Forall_forall. rewrite Forall_forall in Hshape.
    intros t Ht. apply (Hshape t Ht). }
  destruct (tokenize_for_inv tokens
              (tokenize_init (len (lstripped input_string) + 1))
              (tokenize_init_inv _) Hall) as (st & out & E & _).
  rewrite E. cbn [bind]. exists out. split; [reflexivity|].
  apply (tokenize_for_ids _ _ _ _ Hids E).
Qed.

(** ** The parser returns *)

Lemma returns_ok :
  forall bound v rest,
    (List.length rest <= bound)%nat -> returns bound (Ok (v, rest)).
Proof.
  intros bound v rest H. split; [discriminate|].
  intros v' rest' E. inversion E; subst. exact H.
Qed.

Lemma returns_raise : forall bound e, returns bound (Raise e).
Proof. intros bound e. split; [discriminate|]. intros v rest E. discriminate E. Qed.

Lemma returns_le :
  forall m n r, returns m r -> (m <= n)%nat -> returns n r.
Proof.
  intros m n r [H1 H2] Hle. split; [exact H1|].
  intros v rest E. specialize (H2 v rest E). lia.
Qed.

Lemma bind_returns :
  forall (A : Type) (x : result A) (k : A -> result (pyval * list token)) n,
    x <> OutOfFuel ->
    (forall a, x = Ok a -> returns n (k a)) ->
    returns n (bind x k).
Proof.
  intros A x k n Hx Hk. destruct x as [a|e|]; cbn [bind].
  - apply Hk. reflexivity.
  - apply returns_raise.
  - congruence.
Qed.

Lemma bind_returns_parse :
  forall m n (x : result (pyval * list token)) k,
    returns m x ->
    (forall v rest, (List.length rest <= m)%nat -> returns n (k (v, rest))) ->
    returns n (bind x k).
Proof.
  intros m n x k [H1 H2] Hk. apply bind_returns; [exact H1|].
  intros [v rest] E. apply Hk. apply (H2 v rest E).
Qed.

Lemma advance_returns :
  forall tokens a,
    advance tokens a <> OutOfFuel
    /\ forall tok rest, advance tokens a = Ok (tok, rest) ->
                        List.length tokens = S (List.length rest).
Proof.
  intros [|t tokens] a; unfold advance.
  - split; [discriminate|]. intros tok rest H. discriminate H.
  - destruct a as [|cls|clss];
      [ | destruct (fst (all_differ (id t) [cls]))
        | destruct (all_differ (id t) clss) as [[] l] ];
      (split; [discriminate|intros tok rest H; inversion H; subst; reflexivity]).
Qed.

Lemma setitem_returns : forall data key v, setitem data key v <> OutOfFuel.
Proof. intros data key v. unfold setitem. destruct (hashable key); discriminate. Qed.

(** Steps through the body of a [parse] method or loop: every
    [advance] shortens the stream, every nested [parse] returns by
    [IHT], the loop itself by [IHW]. *)
Ltac parse_chain IHT IHW :=
  repeat first
    [ apply returns_raise
    | apply returns_ok; cbn [List.length] in *; lia
    | match goal with
      | |- returns _ (bind (Ok _) _) => cbn [bind]; cbn beta iota
      | |- returns _ (bind (advance ?ts ?a) _) =>
          apply bind_returns;
          [ apply (proj1 (advance_returns ts a))
          | let tok := fresh "tok" in
            let rest := fresh "rest" in
            let E := fresh "E" in
            intros [tok rest] E;
            apply (proj2 (advance_returns ts a)) in E; cbn beta iota ]
      | |- returns _ (bind (setitem ?d ?k ?v) _) =>
          apply bind_returns; [ apply setitem_returns | intros ? _ ]
      | |- returns _ (bind (Token_parse _ _ ?ts) _) =>
          apply (bind_returns_parse (List.length ts));
          [ apply IHT; cbn [List.length] in *; lia
          | let v := fresh "v" in
            let rest := fresh "rest" in
            let L := fresh "L" in
            intros v rest L; cbn beta iota ]
      | |- returns _ (bind (if ?c then _ else _) _) => destruct c
      | |- returns _ (if ?c then _ else _) => destruct c
      | |- returns _ (let _ := _ in _) => cbv zeta
      | |- returns _ (_ _ _ _ ?ts) =>
          apply (returns_le (List.length ts));
          [ apply IHW; cbn [List.length] in *; lia
          | cbn [List.length] in *; lia ]
      end ].

(** With fuel above twice the length of the stream, every [parse]
    method and loop returns, and the stream it leaves is no longer than
    the one it got. *)
Lemma Token_parse_returns :
  forall fuel,
    (forall self tokens,
        (2 * List.length tokens + 1 <= fuel)%nat ->
        returns (List.length tokens) (Token_parse fuel self tokens))
    /\ (forall data tok tokens,
        (2 * List.length tokens + 2 <= fuel)%nat ->
        returns (List.length tokens) (LeftRound_while fuel data tok tokens))
    /\ (forall data tok tokens,
        (2 * List.length tokens + 2 <= fuel)%nat ->
        returns (List.length tokens) (LeftSquare_while fuel data tok tokens))
    /\ (forall data tok tokens,
        (2 * List.length tokens + 2 <= fuel)%nat ->
        returns (List.length tokens) (LeftBrace_while fuel data tok tokens))
    /\ (forall data tok tokens,
        (2 * List.length tokens + 2 <= fuel)%nat ->
        returns (List.length tokens) (Indent_list_while fuel data tok tokens))
    /\ (forall data tok tokens,
        (2 * List.length tokens + 2 <= fuel)%nat ->
        returns (List.length tokens) (Indent_dict_while fuel data tok tokens)).
Proof.
  induction fuel as [|fuel (IHT & IHR & IHS & IHB & IHL & IHD)].
  - repeat split; intros; lia.
  - split; [|split; [|split; [|split; [|split]]]].
    + intros self tokens Hfuel. cbn [Token_parse].
      destruct (id self); try (apply returns_ok; lia).
      * parse_chain IHT IHR.
      * parse_chain IHT IHS.
      * parse_chain IHT IHB.
      * apply bind_returns; [apply (proj1 (advance_returns tokens AnyToken))|].
        intros [tok rest] E. apply (proj2 (advance_returns _ _)) in E.
        cbn beta iota zeta. destruct (id_eqb (id tok) IdHyphen); cbn [advance bind].
        -- apply (returns_le (List.length rest)); [apply IHL; lia|lia].
        -- apply (returns_le (List.length rest)); [apply IHD; lia|lia].
    + intros data tok tokens Hfuel. rewrite LeftRound_while_S. parse_chain IHT IHR.
    + intros data tok tokens Hfuel. rewrite LeftSquare_while_S. parse_chain IHT IHS.
    + intros data tok tokens Hfuel. rewrite LeftBrace_while_S. parse_chain IHT IHB.
    + intros data tok tokens Hfuel. cbn [Indent_list_while]. parse_chain IHT IHL.
    + intros data tok tokens Hfuel. cbn [Indent_dict_while]. parse_chain IHT IHD.
Qed.

Lemma parse_while_returns :
  forall fuel data tok tokens,
    (2 * List.length tokens + 2 <= fuel)%nat ->
    returns (List.length tokens) (parse_while fuel data tok tokens).
Proof.
  induction fuel as [|fuel IHW]; intros data tok tokens Hfuel; [lia|].
  pose proof (proj1 (Token_parse_returns fuel)) as IHT.
  rewrite parse_while_S. parse_chain IHT IHW.
Qed.

Lemma skip_newlines_length :
  forall tokens tok tok' rest,
    skip_newlines tok tokens = (tok', rest) ->
    (List.length rest <= List.length tokens)%nat.
Proof.
  induction tokens as [|t tokens IH]; intros tok tok' rest H; simpl in H.
  - inversion H; subst. simpl. lia.
  - destruct (negb (id_eqb (id t) IdNewLine)).
    + inversion H; subst. simpl. lia.
    + apply IH in H. simpl. lia.
Qed.

(** The parser never runs out of the fuel [parse] gives it: on every
    token stream, and so on every input, [parse] returns a value or
    raises an exception. *)
Lemma parse_tokens_returns :
  forall tokens,
    (exists v, parse_tokens tokens = Ok v) \/ (exists e, parse_tokens tokens = Raise e).
Proof.
  intros tokens. unfold parse_tokens.
  destruct (skip_newlines None tokens) as [[tok|] rest] eqn:E; [|right; eauto].
  apply skip_newlines_length in E.
  destruct (parse_while_returns (parse_fuel tokens) [] tok rest) as [Hne _].
  { unfold parse_fuel. lia. }
  destruct (parse_while (parse_fuel tokens) [] tok rest) as [[data rest']|e|];
    cbn [bind]; [left; eauto|right; eauto|congruence].
Qed.

Lemma parse_returns :
  forall input_string,
    (exists v, parse input_string = Ok v) \/ (exists e, parse input_string = Raise e).
Proof.
  intros input_string. unfold parse.
  destruct (tokenize_returns input_string) as [(out & E & _)|(e & _ & E)];
    rewrite E; cbn [bind]; [apply parse_tokens_returns|right; eauto].
Qed.

(** ** What the parser leaves of the stream *)

Lemma suffix_refl : forall tokens, suffix tokens tokens.
Proof. intros tokens. exists []. reflexivity. Qed.

Lemma suffix_trans :
  forall a b c, suffix a b -> suffix b c -> suffix a c.
Proof.
  intros a b c [p Hp] [q Hq]. exists (q ++ p). subst. apply app_assoc.
Qed.

Lemma suffix_tail : forall tok rest tokens, suffix (tok :: rest) tokens -> suffix rest tokens.
Proof.
  intros tok rest tokens [p Hp]. exists (p ++ [tok]). subst.
  rewrite <- app_assoc. reflexivity.
Qed.

Lemma advance_ok :
  forall tokens a tok rest,
    advance tokens a = Ok (tok, rest) ->
    tokens = tok :: rest
    /\ match a with OneClass cls => id tok = cls | _ => True end.
Proof.
  intros [|t tokens] a tok rest; unfold advance; [discriminate|].
  destruct a as [|cls|clss].
  - intros H. inversion H; subst. auto.
  - cbn [all_differ fst].
    destruct (id_eqb (id t) cls) eqn:E; cbn [negb fst]; [|discriminate].
    intros H. inversion H; subst. apply id_eqb_eq in E. auto.
  - destruct (all_differ (id t) clss) as [[] l]; [discriminate|].
    intros H. inversion H; subst. auto.
Qed.

Lemma leaves_ok :
  forall tokens v rest, suffix rest tokens -> leaves tokens (Ok (v, rest)).
Proof. intros tokens v rest H v' rest' E. inversion E; subst. exact H. Qed.

Lemma leaves_raise : forall tokens e, leaves tokens (Raise e).
Proof. intros tokens e v rest E. discriminate E. Qed.

Lemma leaves_out : forall tokens, leaves tokens OutOfFuel.
Proof. intros tokens v rest E. discriminate E. Qed.

Lemma leaves_advance :
  forall tokens ts a k,
    suffix ts tokens ->
    (forall tok rest, suffix rest tokens -> leaves tokens (k (tok, rest))) ->
    leaves tokens (bind (advance ts a) k).
Proof.
  intros tokens ts a k Hs Hk.
  destruct (advance ts a) as [[tok rest]|e|] eqn:E; cbn [bind];
    [|apply leaves_raise|apply leaves_out].
  apply Hk. apply advance_ok in E as [E _]. subst ts.
  apply (suffix_tail tok). exact Hs.
Qed.

Lemma leaves_parse :
  forall tokens ts x k,
    suffix ts tokens -> leaves ts x ->
    (forall v rest, suffix rest tokens -> leaves tokens (k (v, rest))) ->
    leaves tokens (bind x k).
Proof.
  intros tokens ts x k Hs Hx Hk.
  destruct x as [[v rest]|e|]; cbn [bind]; [|apply leaves_raise|apply leaves_out].
  apply Hk. apply (suffix_trans rest ts tokens); [|exact Hs].
  apply (Hx v rest eq_refl).
Qed.

Lemma leaves_setitem :
  forall tokens data key v k,
    (forall data', leaves tokens (k data')) ->
    leaves tokens (bind (setitem data key v) k).
Proof.
  intros tokens data key v k Hk.
  destruct (setitem data key v); cbn [bind];
    [apply Hk|apply leaves_raise|apply leaves_out].
Qed.

Lemma leaves_from :
  forall tokens ts r, suffix ts tokens -> leaves ts r -> leaves tokens r.
Proof.
  intros tokens ts r Hs Hr v rest E.
  apply (suffix_trans rest ts tokens); [apply (Hr v rest E)|exact Hs].
Qed.

(** Steps through the body of a [parse] method or loop and keeps track
    of what is left of the stream. *)
Ltac leaves_chain IHT IHW :=
  repeat first
    [ apply leaves_raise
    | apply leaves_out
    | apply leaves_ok; assumption
    | match goal with
      | |- leaves _ (bind (Ok _) _) => cbn [bind]; cbn beta iota
      | |- leaves _ (bind (advance ?ts ?a) _) =>
          apply (leaves_advance _ ts a); [assumption|intros ? ? ?; cbn beta iota]
      | |- leaves _ (bind (setitem _ _ _) _) =>
          apply leaves_setitem; intros ?
      | |- leaves _ (bind (Token_parse _ _ ?ts) _) =>
          apply (leaves_parse _ ts); [assumption|apply IHT|intros ? ? ?; cbn beta iota]
      | |- leaves _ (bind (if ?c then _ else _) _) => destruct c
      | |- leaves _ (if ?c then _ else _) => destruct c
      | |- leaves _ (let _ := _ in _) => cbv zeta
      | |- leaves _ (_ _ _ _ ?ts) =>
          apply (leaves_from _ ts); [assumption|apply IHW]
      end ].

Lemma Token_parse_leaves :
  forall fuel,
    (forall self tokens, leaves tokens (Token_parse fuel self tokens))
    /\ (forall data tok tokens, leaves tokens (LeftRound_while fuel data tok tokens))
    /\ (forall data tok tokens, leaves tokens (LeftSquare_while fuel data tok tokens))
    /\ (forall data tok tokens, leaves tokens (LeftBrace_while fuel data tok tokens))
    /\ (forall data tok tokens, leaves tokens (Indent_list_while fuel data tok tokens))
    /\ (forall data tok tokens, leaves tokens (Indent_dict_while fuel data tok tokens)).
Proof.
  induction fuel as [|fuel (IHT & IHR & IHS & IHB & IHL & IHD)].
  - repeat split; intros; apply leaves_out.
  - split; [|split; [|split; [|split; [|split]]]].
    + intros self tokens. pose proof (suffix_refl tokens) as Hs. cbn [Token_parse].
      destruct (id self); try (apply leaves_ok; assumption).
      * leaves_chain IHT IHR.
      * leaves_chain IHT IHS.
      * leaves_chain IHT IHB.
      * apply (leaves_advance _ tokens AnyToken); [assumption|].
        intros tok rest Hr. cbn beta iota zeta.
        destruct (id_eqb (id tok) IdHyphen); cbn [advance bind].
        -- apply (leaves_from _ rest); [assumption|apply IHL].
        -- apply (leaves_from _ rest); [assumption|apply IHD].
    + intros data tok tokens. pose proof (suffix_refl tokens) as Hs.
      rewrite LeftRound_while_S. leaves_chain IHT IHR.
    + intros data tok tokens. pose proof (suffix_refl tokens) as Hs.
      rewrite LeftSquare_while_S. leaves_chain IHT IHS.
    + intros data tok tokens. pose proof (suffix_refl tokens) as Hs.
      rewrite LeftBrace_while_S. leaves_chain IHT IHB.
    + intros data tok tokens. pose proof (suffix_refl tokens) as Hs.
      cbn [Indent_list_while]. leaves_chain IHT IHL.
    + intros data tok tokens. pose proof (suffix_refl tokens) as Hs.
      cbn [Indent_dict_while]. leaves_chain IHT IHD.
Qed.

(** ** The end of the document *)

(** Takes a successful [bind] apart. *)
Tactic Notation "bind_ok" hyp(H) "as" ident(a) ident(b) ident(E) :=
  match type of H with
  | bind ?x _ = Ok _ =>
      destruct x as [[a b]| |] eqn:E; cbn [bind] in H;
      [cbn beta iota in H|discriminate H|discriminate H]
  end.

(** [parse]'s loop returns only at an [End()] token, and after at least
    one entry only at an [End()] that comes right after a NewLine. *)
Lemma parse_while_ok :
  forall fuel data tok tokens v rest,
    parse_while fuel data tok tokens = Ok (v, rest) ->
    (id tok = IdEnd /\ rest = tokens /\ v = POrderedDict data)
    \/ exists consumed newline e,
         tokens = consumed ++ newline :: e :: rest
         /\ id newline = IdNewLine /\ id e = IdEnd.
Proof.
  induction fuel as [|fuel IH]; intros data tok tokens v rest H; [discriminate H|].
  rewrite parse_while_S in H.
  destruct (id_eqb (id tok) IdEnd) eqn:Eend; cbn [negb] in H.
  { left. apply id_eqb_eq in Eend. inversion H; subst. auto. }
  right.
  pose proof (proj1 (Token_parse_leaves fuel)) as HT.
  bind_ok H as key l1 E1. apply HT in E1 as S1.
  bind_ok H as colon l2 E2. apply advance_ok in E2 as [E2 _].
  bind_ok H as t3 l3 E3. apply advance_ok in E3 as [E3 _].
  assert (S4 : exists t4 l4,
             (if id_eqb (id t3) IdNewLine then advance l3 AnyToken else Ok (t3, l3))
             = Ok (t4, l4) /\ suffix l4 l3).
  { destruct (id_eqb (id t3) IdNewLine).
    - destruct (advance l3 AnyToken) as [[t4 l4]| |] eqn:E4; try discriminate H.
      exists t4, l4. split; [reflexivity|].
      apply advance_ok in E4 as [E4 _]. exists [t4]. exact E4.
    - exists t3, l3. split; [reflexivity|apply suffix_refl]. }
  destruct S4 as (t4 & l4 & E4 & S4). rewrite E4 in H. cbn [bind] in H.
  cbn beta iota in H.
  bind_ok H as val l5 E5. apply HT in E5 as S5.
  destruct (setitem data key val) as [data'| |]; cbn [bind] in H; try discriminate H.
  bind_ok H as newline l6 E6. apply advance_ok in E6 as [E6 Enl].
  bind_ok H as t7 l7 E7. apply advance_ok in E7 as [E7 _].
  assert (S : suffix (newline :: t7 :: l7) tokens).
  { subst. apply (suffix_trans _ _ _ S5).
    apply (suffix_trans _ _ _ S4).
    apply (suffix_tail t3). apply (suffix_tail colon). exact S1. }
  destruct S as [pre Hpre].
  destruct (IH _ _ _ _ _ H) as [(Hend & Hrest & _)|(c & n & e & Hc & Hn & He)].
  - exists pre, newline, t7. subst. auto.
  - exists (pre ++ newline :: t7 :: c), n, e. subst.
    rewrite <- app_assoc. auto.
Qed.

(** The entry points, unfolded one step. *)
Lemma parse_eq :
  forall input_string,
    parse input_string = bind (tokenize input_string) parse_tokens.
Proof. reflexivity. Qed.

Lemma parse_tokens_eq :
  forall tokens,
    parse_tokens tokens =
    match skip_newlines None tokens with
    | (None, _) => Raise NameError
    | (Some tok, rest) =>
        '(data, _) <- parse_while (parse_fuel tokens) [] tok rest ;;
        Ok data
    end.
Proof. reflexivity. Qed.

Lemma scan_eq :
  forall lex s, scan lex s = scan_loop lex (S (String.length s)) None s [].
Proof. reflexivity. Qed.

Lemma scan_loop_S :
  forall lex fuel prev s acc,
    scan_loop lex (S fuel) prev s acc =
    match first_match lex prev s with
    | None => Ok (acc, s)
    | Some (action, prev', rest) =>
        let j := (String.length s - String.length rest)%nat in
        if (j =? 0)%nat then Ok (acc, s)
        else
          match action with
          | None => scan_loop lex fuel prev' rest acc
          | Some do =>
              tok <- do (substring 0 j s) ;;
              scan_loop lex fuel prev' rest (acc ++ [tok])
          end
    end.
Proof. reflexivity. Qed.

Lemma skip_newlines_some :
  forall tokens t0 tok rest,
    skip_newlines t0 tokens = (Some tok, rest) ->
    tokens = [] \/ exists skipped, tokens = skipped ++ tok :: rest.
Proof.
  induction tokens as [|t tokens IH]; intros t0 tok rest H; [left; reflexivity|].
  right. cbn [skip_newlines] in H.
  destruct (negb (id_eqb (id t) IdNewLine)).
  - inversion H; subst. exists []. reflexivity.
  - destruct (IH _ _ _ H) as [E|(p & E)].
    + subst tokens. cbn [skip_newlines] in H. inversion H; subst.
      exists []. reflexivity.
    + exists (t :: p). subst. reflexivity.
Qed.

Lemma End_is_last :
  forall before (out : list token) e after,
    out ++ [End] = before ++ e :: after ->
    id e = IdEnd -> Forall (fun t => id t <> IdEnd) out ->
    after = [] /\ out = before.
Proof.
  induction before as [|y before IH]; intros out e after H He Hall.
  - destruct out as [|x out]; cbn [app] in H.
    + inversion H; subst. auto.
    + inversion H; subst. inversion Hall; subst. contradiction.
  - destruct out as [|x out]; cbn [app] in H.
    + inversion H as [[Hy Hnil]]. destruct before; discriminate Hnil.
    + inversion H; subst. inversion Hall; subst.
      destruct (IH out e after ltac:(assumption) He ltac:(assumption)) as [Ha Ho].
      subst. auto.
Qed.

(** [parse] returns a mapping only when the document has no entry at
    all, or when the last token before [End()] is a NewLine. The input
    is stripped before it is scanned, so its last line must then be a
    comment: no document that ends with an entry decodes. *)
Theorem parse_ok_needs_final_newline :
  forall input_string v,
    parse input_string = Ok v ->
    v = POrderedDict []
    \/ exists out newline,
         tokenize input_string = Ok (out ++ [newline; End])
         /\ id newline = IdNewLine.
Proof.
  intros input_string v H. rewrite parse_eq in H.
  destruct (tokenize_returns input_string) as [(out & E & Hall)|(e & _ & E)];
    rewrite E in H; cbn [bind] in H; [|discriminate H].
  rewrite parse_tokens_eq in H.
  destruct (skip_newlines None (out ++ [End])) as [[tok|] rest] eqn:Es;
    [|discriminate H].
  destruct (parse_while (parse_fuel (out ++ [End])) [] tok rest)
    as [[data rest']| |] eqn:Ep; cbn [bind] in H; try discriminate H.
  inversion H; subst v.
  destruct (parse_while_ok _ _ _ _ _ _ Ep) as [(_ & _ & Hv)|(c & n & e & Hc & Hn & He)].
  - left. exact Hv.
  - right. destruct (skip_newlines_some _ _ _ _ Es) as [Hnil|(p & Hp)].
    + destruct out; discriminate Hnil.
    + rewrite Hc in Hp.
      assert (Hp' : out ++ [End] = (p ++ tok :: c ++ [n]) ++ e :: rest').
      { rewrite Hp. rewrite <- !app_assoc. cbn [app].
        rewrite <- !app_assoc. reflexivity. }
      destruct (End_is_last _ _ _ _ Hp' He Hall) as [Hrest Hout].
      exists (p ++ tok :: c), n. split; [|exact Hn].
      rewrite E, Hout. rewrite <- !app_assoc. cbn [app].
      rewrite <- !app_assoc. reflexivity.
Qed.

(** * Further properties of the decoder *)

Lemma parse_ok_needs_final_newline_witness :
  parse (lines ["a: 1"; "#"]) = Ok (POrderedDict [(PStr "a", PInt 1)])
  /\ (POrderedDict [(PStr "a", PInt 1)] = POrderedDict []
      \/ exists out newline,
           tokenize (lines ["a: 1"; "#"]) = Ok (out ++ [newline; End])
           /\ id newline = IdNewLine).
Proof.
  split; [reflexivity|].
  apply (parse_ok_needs_final_newline (lines ["a: 1"; "#"])
           (POrderedDict [(PStr "a", PInt 1)]) eq_refl).
Defined.

Lemma advance_tuple_error_witness :
  advance [End] (Classes [IdComma; IdRightBrace]) = Raise (SyntaxError End "" None)
  /\ SyntaxError End "" None = SyntaxError End "" (line End).
Proof.
  split; [reflexivity|].
  apply (advance_tuple_error End [] [IdComma; IdRightBrace]
           (SyntaxError End "" None) eq_refl).
Defined.

(** ** The exceptions that leave the decoder *)

Lemma substring_nonempty :
  forall s rest,
    (String.length s - String.length rest)%nat <> 0%nat ->
    exists c t, substring 0 (String.length s - String.length rest) s = String c t.
Proof.
  intros [|c s] rest H; [simpl in H; lia|].
  destruct (String.length (String c s) - String.length rest)%nat as [|j]; [lia|].
  simpl. eauto.
Qed.

Lemma Literal_do_raises : forall t, raises_only scanner_error (Literal_do t).
Proof.
  intros t e. unfold Literal_do, Literal_for, Integer_convert, Float_convert,
    Boolean_convert.
  destruct (isdigit t); [destruct (py_int t)|]; cbn [bind];
    try (intros H; inversion H; reflexivity); try discriminate.
  destruct (py_float t); cbn [bind]; try discriminate.
  destruct (Boolean_lookup Boolean_mapping t); cbn [bind]; try discriminate.
  destruct (str_in t ["null"; "Null"; "NULL"]); discriminate.
Qed.

Lemma scanner_do_raises :
  forall r do c t,
    In (r, Some do) _scanner -> raises_only scanner_error (do (String c t)).
Proof.
  intros r do c t Hin e. rewrite scanner_lexicon in Hin. simpl in Hin.
  repeat (destruct Hin as [Hin|Hin];
          [inversion Hin; subst; clear Hin; try discriminate|]);
    try contradiction.
  - apply Literal_do_raises.
  - intros H. inversion H. reflexivity.
Qed.

Lemma scan_loop_raises :
  forall fuel prev s acc, raises_only scanner_error (scan_loop _scanner fuel prev s acc).
Proof.
  induction fuel as [|fuel IH]; intros prev s acc e; [discriminate|].
  cbn [scan_loop].
  destruct (first_match _scanner prev s) as [[[action p] rest]|] eqn:Hm;
    [|discriminate].
  destruct (String.length s - String.length rest =? 0)%nat eqn:Ej; [discriminate|].
  apply Nat.eqb_neq in Ej.
  destruct action as [do|]; [|apply IH].
  destruct (first_match_In _ _ _ _ _ _ Hm) as (r & Hin).
  destruct (substring_nonempty s rest Ej) as (c & t & Et). rewrite Et.
  pose proof (scanner_do_raises r do c t Hin) as Hdo.
  destruct (do (String c t)) as [tok|e'|]; cbn [bind]; [apply IH| |discriminate].
  intros H. inversion H; subst. apply Hdo. reflexivity.
Qed.

Lemma raises_only_bind :
  forall (A B : Type) allowed (x : result A) (k : A -> result B),
    raises_only allowed x -> (forall a, raises_only allowed (k a)) ->
    raises_only allowed (bind x k).
Proof.
  intros A B allowed x k Hx Hk. destruct x as [a|e|]; cbn [bind].
  - apply Hk.
  - intros e' H. inversion H; subst. apply Hx. reflexivity.
  - intros e H. discriminate H.
Qed.

Lemma advance_raises : forall tokens a, raises_only parser_error (advance tokens a).
Proof.
  intros [|t tokens] a e; unfold advance.
  - intros H. inversion H. reflexivity.
  - destruct a as [|cls|clss];
      [ | destruct (fst (all_differ (id t) [cls]))
        | destruct (all_differ (id t) clss) as [[] l] ];
      intros H; inversion H; reflexivity.
Qed.

Lemma setitem_raises : forall data key v, raises_only parser_error (setitem data key v).
Proof.
  intros data key v e. unfold setitem. destruct (hashable key); intros H;
    inversion H; reflexivity.
Qed.

(** Steps through the body of a [parse] method or loop for the
    exceptions it may raise. *)
Ltac raises_chain IHT IHW :=
  repeat first
    [ apply IHT
    | apply IHW
    | apply advance_raises
    | apply setitem_raises
    | (intros ? H; discriminate H)
    | match goal with
      | |- raises_only _ (bind _ _) => apply raises_only_bind
      | |- forall _, raises_only _ _ => intros ?
      | |- raises_only _ (let (_, _) := ?p in _) => destruct p
      | |- raises_only _ (if ?c then _ else _) => destruct c
      | |- raises_only _ (let _ := _ in _) => cbv zeta
      end ].

Lemma Token_parse_raises :
  forall fuel,
    (forall self tokens, raises_only parser_error (Token_parse fuel self tokens))
    /\ (forall data tok tokens,
          raises_only parser_error (LeftRound_while fuel data tok tokens))
    /\ (forall data tok tokens,
          raises_only parser_error (LeftSquare_while fuel data tok tokens))
    /\ (forall data tok tokens,
          raises_only parser_error (LeftBrace_while fuel data tok tokens))
    /\ (forall data tok tokens,
          raises_only parser_error (Indent_list_while fuel data tok tokens))
    /\ (forall data tok tokens,
          raises_only parser_error (Indent_dict_while fuel data tok tokens)).
Proof.
  induction fuel as [|fuel (IHT & IHR & IHS & IHB & IHL & IHD)].
  - repeat split; intros; intros e H; discriminate H.
  - split; [|split; [|split; [|split; [|split]]]].
    + intros self tokens. cbn [Token_parse].
      destruct (id self); try (intros e H; discriminate H).
      * raises_chain IHT IHR.
      * raises_chain IHT IHS.
      * raises_chain IHT IHB.
      * raises_chain IHT IHL; raises_chain IHT IHD.
    + intros data tok tokens. rewrite LeftRound_while_S. raises_chain IHT IHR.
    + intros data tok tokens. rewrite LeftSquare_while_S. raises_chain IHT IHS.
    + intros data tok tokens. rewrite LeftBrace_while_S. raises_chain IHT IHB.
    + intros data tok tokens. cbn [Indent_list_while]. raises_chain IHT IHL.
    + intros data tok tokens. cbn [Indent_dict_while]. raises_chain IHT IHD.
Qed.

Lemma parse_while_raises :
  forall fuel data tok tokens,
    raises_only parser_error (parse_while fuel data tok tokens).
Proof.
  induction fuel as [|fuel IHW]; intros data tok tokens; [intros e H; discriminate H|].
  pose proof (proj1 (Token_parse_raises fuel)) as IHT.
  rewrite parse_while_S. raises_chain IHT IHW.
Qed.

Lemma skip_newlines_none :
  forall tokens t0 rest, skip_newlines t0 tokens = (None, rest) -> tokens = [].
Proof.
  assert (G : forall tokens t rest, skip_newlines (Some t) tokens <> (None, rest)).
  { induction tokens as [|t' tokens IH]; intros t rest; cbn [skip_newlines].
    - discriminate.
    - destruct (negb (id_eqb (id t') IdNewLine)); [discriminate|apply IH]. }
  intros [|t tokens] t0 rest H; [reflexivity|].
  cbn [skip_newlines] in H. destruct (negb (id_eqb (id t) IdNewLine)).
  - discriminate H.
  - exfalso. apply (G _ _ _ H).
Qed.

(** On every input that is nested no deeper than the interpreter's
    stack holds, [parse] comes to an end: it returns a value, or it
    raises [TokenError] or [ValueError] (from the scanner), or
    [SyntaxError], [StopIteration] or [TypeError] (from the parser);
    it raises nothing else, and each of the five does occur. *)
Theorem parse_outcomes :
  (forall input_string,
      (text_nesting input_string <= nesting_limit)%nat ->
      (exists v, parse input_string = Ok v)
      \/ (exists e, parse input_string = Raise e /\ decoder_error e = true))
  /\ parse "a: !" = Raise (TokenError "!")
  /\ parse (String (ascii_of_nat 178) "") = Raise ValueError
  /\ parse "a: 1" = Raise (SyntaxError End "NewLine" None)
  /\ parse "a: [" = Raise StopIteration
  /\ parse "[1]: 2" = Raise TypeError.
Proof.
  split; [|vm_compute; repeat split].
  intros input_string _.
  destruct (parse_returns input_string) as [Hv|(e & He)]; [left; exact Hv|].
  right. exists e. split; [exact He|].
  rewrite parse_eq in He. unfold decoder_error.
  destruct (tokenize_returns input_string) as [(out & E & _)|(e' & Es & E)];
    rewrite E in He; cbn [bind] in He.
  - rewrite parse_tokens_eq in He.
    destruct (skip_newlines None (out ++ [End])) as [[tok|] rest] eqn:Esk.
    + destruct (parse_while (parse_fuel (out ++ [End])) [] tok rest)
        as [[data rest']|e''|] eqn:Ep; cbn [bind] in He; try discriminate He.
      inversion He; subst e''.
      rewrite (parse_while_raises _ _ _ _ e Ep). apply orb_true_r.
    + apply skip_newlines_none in Esk. destruct out; discriminate Esk.
  - inversion He; subst e'. rewrite scan_eq in Es.
    rewrite (scan_loop_raises _ _ _ _ e Es). reflexivity.
Qed.

Lemma parse_outcomes_witness :
  text_nesting (lines ["a: [[1, (b=2)], {c: 3}]"; "#"]) = 4%nat
  /\ (text_nesting (lines ["a: [[1, (b=2)], {c: 3}]"; "#"]) <= nesting_limit)%nat
  /\ parse (lines ["a: [[1, (b=2)], {c: 3}]"; "#"])
     = Ok (POrderedDict
             [(PStr "a", PList [PList [PInt 1; POrderedDict [(PStr "b", PInt 2)]];
                                POrderedDict [(PStr "c", PInt 3)]])])
  /\ ((exists v, parse (lines ["a: [[1, (b=2)], {c: 3}]"; "#"]) = Ok v)
      \/ (exists e, parse (lines ["a: [[1, (b=2)], {c: 3}]"; "#"]) = Raise e
                    /\ decoder_error e = true)).
Proof.
  assert (H : (text_nesting (lines ["a: [[1, (b=2)], {c: 3}]"; "#"])
               <= nesting_limit)%nat) by (vm_compute; lia).
  split; [reflexivity|]. split; [exact H|]. split; [reflexivity|].
  apply (proj1 parse_outcomes (lines ["a: [[1, (b=2)], {c: 3}]"; "#"]) H).
Defined.

(** [tokenize] comes to an end on every input. When the scanner has
    returned its tokens, the pass over them cannot fail: the indent
    stack is never popped empty, no token is taken for a number that
    carries none, and the stream ends with the only [End()]. Otherwise
    [tokenize] raises what the scanner has raised, a [TokenError] or a
    [ValueError]. *)
Theorem tokenize_outcomes :
  forall input_string,
    (exists out, tokenize input_string = Ok (out ++ [End])
                 /\ Forall (fun t => id t <> IdEnd) out)
    \/ (exists e, scan _scanner (strip input_string) = Raise e
                  /\ tokenize input_string = Raise e
                  /\ scanner_error e = true).
Proof.
  intros input_string.
  destruct (tokenize_returns input_string) as [H|(e & Es & E)]; [left; exact H|].
  right. exists e. split; [exact Es|]. split; [exact E|].
  rewrite scan_eq in Es. apply (scan_loop_raises _ _ _ _ e Es).
Qed.

(** ** What the scanner returns *)

(** A match ends at or after the position it starts from, and after
    it when the pattern cannot match the empty text. *)
Lemma rounds_consumes :
  forall (A : Type) body (k : option ascii -> string -> option A),
    (forall prev s k' m,
        body prev s k' = Some m ->
        exists p' s', k' p' s' = Some m
                      /\ (String.length s' <= String.length s)%nat) ->
    forall n prev s m,
      rounds body k n prev s = Some m ->
      exists p' s', k p' s' = Some m /\ (String.length s' <= String.length s)%nat.
Proof.
  intros A body k Hbody. induction n as [|n IH]; intros prev s m H; cbn [rounds] in H.
  - exists prev, s. auto.
  - match type of H with match ?x with _ => _ end = _ => destruct x as [m'|] eqn:E end.
    + inversion H; subst m'.
      destruct (Hbody _ _ _ _ E) as (p1 & s1 & H1 & L1).
      destruct (String.length s1 <? String.length s)%nat; [|discriminate H1].
      destruct (IH _ _ _ H1) as (p2 & s2 & H2 & L2).
      exists p2, s2. split; [exact H2|lia].
    + exists prev, s. auto.
Qed.

Lemma re_match_consumes :
  forall (A : Type) r prev s (k : option ascii -> string -> option A) m,
    re_match r prev s k = Some m ->
    exists p' s',
      k p' s' = Some m
      /\ (String.length s' <= String.length s)%nat
      /\ (consumes r = true -> (String.length s' < String.length s)%nat).
Proof.
  intros A r. induction r as [|p|r1 IH1 r2 IH2|r1 IH1 r2 IH2|r1 IH1| | |r1 IH1];
    intros prev s k m H; cbn [re_match consumes] in *.
  - exists prev, s. repeat split; auto. discriminate.
  - destruct s as [|c s]; [discriminate H|].
    destruct (p c); [|discriminate H].
    exists (Some c), s. simpl. repeat split; auto.
  - destruct (IH1 _ _ _ _ H) as (p1 & s1 & H1 & L1 & C1).
    destruct (IH2 _ _ _ _ H1) as (p2 & s2 & H2 & L2 & C2).
    exists p2, s2. repeat split; [exact H2|lia|].
    intros Hc. apply orb_true_iff in Hc as [Hc|Hc].
    + specialize (C1 Hc). lia.
    + specialize (C2 Hc). lia.
  - destruct (re_match r1 prev s k) as [m1|] eqn:E1.
    + inversion H; subst m1.
      destruct (IH1 _ _ _ _ E1) as (p1 & s1 & H1 & L1 & C1).
      exists p1, s1. repeat split; auto.
      intros Hc. apply andb_prop in Hc as [Hc _]. auto.
    + destruct (IH2 _ _ _ _ H) as (p2 & s2 & H2 & L2 & C2).
      exists p2, s2. repeat split; auto.
      intros Hc. apply andb_prop in Hc as [_ Hc]. auto.
  - destruct (rounds_consumes A (fun p t k' => re_match r1 p t k') k) with
      (n := String.length s) (prev := prev) (s := s) (m := m)
      as (p' & s' & H' & L'); [|exact H|].
    + intros p0 s0 k' m0 H0.
      destruct (IH1 _ _ _ _ H0) as (p1 & s1 & H1 & L1 & _). eauto.
    + exists p', s'. repeat split; auto. discriminate.
  - exists prev, s. repeat split; auto; [|discriminate].
    destruct prev as [c|]; [destruct (Ascii.eqb c newline)|]; congruence.
  - exists prev, s. repeat split; auto; [|discriminate].
    destruct s as [|c s]; [|destruct (Ascii.eqb c newline)]; congruence.
  - exists prev, s. repeat split; auto; [|discriminate].
    destruct (re_match r1 prev s (fun _ _ => Some tt)); congruence.
Qed.

Lemma match_at_consumes :
  forall r prev s p rest,
    consumes r = true -> match_at r prev s = Some (p, rest) ->
    (String.length rest < String.length s)%nat.
Proof.
  intros r prev s p rest Hc H. unfold match_at in H.
  destruct (re_match_consumes _ _ _ _ _ _ H) as (p' & s' & H' & _ & C).
  inversion H'; subst. auto.
Qed.

(** One [match()] of the scanner always matches, and it consumes text
    unless only the pattern of [Unknown] matches. *)
Lemma first_match_cases :
  forall prev s,
    exists action p rest,
      first_match _scanner prev s = Some (action, p, rest)
      /\ ((String.length rest < String.length s)%nat \/ unmatched prev s = true).
Proof.
  intros prev s.
  destruct (first_match _scanner prev s) as [[[action p] rest]|] eqn:H.
  - exists action, p, rest. split; [reflexivity|].
    rewrite scanner_lexicon in H. cbn [first_match] in H.
    repeat match type of H with
           | match match_at ?r prev s with _ => _ end = Some _ =>
               destruct (match_at r prev s) as [[? ?]|] eqn:?;
               [ inversion H; subst; left;
                 eapply match_at_consumes; [|eassumption]; reflexivity | ]
           end.
    right. unfold unmatched. rewrite scanner_lexicon.
    cbn [patterns map fst removelast forallb].
    repeat match goal with E : match_at _ _ _ = None |- _ => rewrite E; clear E end.
    reflexivity.
  - exfalso. rewrite scanner_lexicon in H. cbn [first_match] in H.
    destruct (match_Unknown prev s) as (p & Hp).
    repeat match type of H with
           | match match_at ?r prev s with _ => _ end = None =>
               destruct (match_at r prev s) as [[? ?]|] eqn:?; [discriminate H|]
           end.
    congruence.
Qed.

Lemma scan_loop_all :
  forall (P : token -> Prop),
    (forall r do c t tok,
        In (r, Some do) _scanner -> do (String c t) = Ok tok -> P tok) ->
    forall fuel prev s acc tokens remainder,
      Forall P acc ->
      scan_loop _scanner fuel prev s acc = Ok (tokens, remainder) ->
      Forall P tokens /\ remainder = EmptyString.
Proof.
  intros P HP. induction fuel as [|fuel IH]; intros prev s acc tokens remainder Hacc H;
    [discriminate H|].
  destruct (first_match_cases prev s) as (action & p & rest & Hm & Hcase).
  destruct Hcase as [Hlt|Hun].
  - rewrite scan_loop_S in H. rewrite Hm in H. cbv zeta in H.
    destruct (String.length s - String.length rest =? 0)%nat eqn:Ej;
      [apply Nat.eqb_eq in Ej; lia|].
    apply Nat.eqb_neq in Ej.
    destruct action as [do|]; [|apply (IH _ _ _ _ _ Hacc H)].
    destruct (first_match_In _ _ _ _ _ _ Hm) as (r & Hin).
    destruct (substring_nonempty s rest Ej) as (c & t & Et). rewrite Et in H.
    destruct (do (String c t)) as [tok| |] eqn:Ed; cbn [bind] in H;
      try discriminate H.
    apply (IH _ _ _ _ _ (proj2 (Forall_app _ _ _)
                          (conj Hacc (Forall_cons _ (HP _ _ _ _ _ Hin Ed) (Forall_nil _))))
             H).
  - destruct s as [|c s].
    + rewrite scan_loop_S in H. rewrite Hm in H. cbv zeta in H.
      replace (String.length "" - String.length rest)%nat with 0%nat in H
        by reflexivity.
      cbn [Nat.eqb] in H. inversion H; subst. auto.
    + destruct (scan_loop_unmatched fuel prev (String c s) acc Hun ltac:(discriminate))
        as [Hr _].
      rewrite Hr in H. discriminate H.
Qed.

Lemma isdigit_char_facts :
  forall c, py_isdigit_char c = true ->
    negb (is_char 95 c) = true /\ negb (number_space c) = true
    /\ is_char 45 c = false /\ is_char 43 c = false.
Proof. intros c H. by_cases_on_char c; repeat split. Qed.

(** [int()] of a text that passes [isdigit()] is not negative. *)
Lemma py_int_isdigit :
  forall t z, isdigit t = true -> py_int t = Some z -> (0 <= z)%Z.
Proof.
  intros t z Hd H. unfold py_int in H.
  destruct t as [|c t]; [discriminate Hd|]. unfold isdigit in Hd.
  rewrite drop_underscores_plain in H; [| |exact I].
  2:{ apply (str_all_impl _ _ _ (fun a Ha => proj1 (isdigit_char_facts a Ha)) Hd). }
  rewrite strip_by_plain in H.
  2:{ apply (str_all_impl _ _ _
               (fun a Ha => proj1 (proj2 (isdigit_char_facts a Ha))) Hd). }
  cbn [str_all] in Hd. apply andb_prop in Hd as [Hc _].
  destruct (isdigit_char_facts c Hc) as (_ & _ & Hm & Hp).
  unfold split_sign in H. rewrite Hm, Hp in H.
  destruct (span_digits (String c t)) as [[|d ds] [|]]; try discriminate H.
  inversion H. unfold signed. lia.
Qed.

Lemma Literal_do_token :
  forall t tok, Literal_do t = Ok tok -> scanner_token tok = true.
Proof.
  intros t tok. unfold Literal_do, Literal_for, Integer_convert, Float_convert,
    Boolean_convert.
  destruct (isdigit t) eqn:Hd.
  - destruct (py_int t) as [z|] eqn:Hz; cbn [bind]; [|discriminate].
    intros H. inversion H. unfold scanner_token. simpl.
    apply Z.leb_le. apply (py_int_isdigit t z Hd Hz).
  - cbn [bind]. destruct (py_float t); cbn [bind];
      [intros H; inversion H; reflexivity|].
    destruct (Boolean_lookup Boolean_mapping t) eqn:Hb; cbn [bind].
    + intros H. inversion H. unfold Boolean_mapping, Boolean_lookup in Hb.
      destruct (str_in t _) in Hb; [inversion Hb; reflexivity|].
      destruct (str_in t _) in Hb; [inversion Hb; reflexivity|discriminate Hb].
    + destruct (str_in t ["null"; "Null"; "NULL"]); intros H; inversion H; reflexivity.
Qed.

Lemma scanner_do_token :
  forall r do c t tok,
    In (r, Some do) _scanner -> do (String c t) = Ok tok -> scanner_token tok = true.
Proof.
  intros r do c t tok Hin. rewrite scanner_lexicon in Hin. simpl in Hin.
  repeat (destruct Hin as [Hin|Hin];
          [inversion Hin; subst; clear Hin;
           try (intros H; inversion H; reflexivity)|]);
    try contradiction.
  - apply Literal_do_token.
  - intros H. inversion H. unfold scanner_token, len. simpl.
    apply Z.leb_le. lia.
  - intros H. inversion H. unfold scanner_token, len. simpl.
    apply Z.leb_le. lia.
Qed.

(** When the scanner returns, nothing of the text is left unscanned:
    the remainder, which [tokenize] does not look at, is empty. *)
Theorem scan_remainder_empty :
  forall s tokens remainder,
    scan _scanner s = Ok (tokens, remainder) -> remainder = EmptyString.
Proof.
  intros s tokens remainder H. rewrite scan_eq in H.
  apply (scan_loop_all (fun _ => True) (fun _ _ _ _ _ _ _ => I)
           _ _ _ _ _ _ (Forall_nil _) H).
Qed.

Lemma scan_remainder_empty_witness :
  scan _scanner "a: [1, yes] # c"
  = Ok ([Token IdString (PStr "a") None; symbol IdColon; symbol IdLeftSquare;
         Token IdInteger (PInt 1) None; symbol IdComma;
         Token IdBoolean (PBool true) None; symbol IdRightSquare], "")
  /\ "" = EmptyString.
Proof.
  split; [reflexivity|].
  apply (scan_remainder_empty "a: [1, yes] # c" _ _ eq_refl).
Defined.

(** Every token the scanner returns has a value of the type of its
    class (an Integer that is not negative, an Indent or a NewLine that
    counts at least one character) and no line; no token is of the
    class Literal, Comment, WhiteSpace, Unknown, Dedent or End. *)
Theorem scan_tokens_shape :
  forall s tokens remainder,
    scan _scanner s = Ok (tokens, remainder) ->
    Forall (fun tok => scanner_token tok = true) tokens.
Proof.
  intros s tokens remainder H. rewrite scan_eq in H.
  apply (scan_loop_all (fun tok => scanner_token tok = true) scanner_do_token
           _ _ _ _ _ _ (Forall_nil _) H).
Qed.

Lemma scan_tokens_shape_witness :
  scan _scanner (lines ["a:"; "  - 007"])
  = Ok ([Token IdString (PStr "a") None; symbol IdColon;
         Token IdNewLine (PInt 1) None; Token IdIndent (PInt 2) None;
         symbol IdHyphen; Token IdInteger (PInt 7) None], "")
  /\ Forall (fun tok => scanner_token tok = true)
       [Token IdString (PStr "a") None; symbol IdColon;
        Token IdNewLine (PInt 1) None; Token IdIndent (PInt 2) None;
        symbol IdHyphen; Token IdInteger (PInt 7) None].
Proof.
  split; [reflexivity|].
  apply (scan_tokens_shape (lines ["a:"; "  - 007"]) _ "" eq_refl).
Defined.

(** ** The grammar the parser reads *)

Lemma Indent_dict_while_S :
  forall fuel data tok tokens,
    Indent_dict_while (S fuel) data tok tokens =
    if negb (id_eqb (id tok) IdDedent) then
      '(key, tokens) <- Token_parse fuel tok tokens ;;
      '(_, tokens) <- advance tokens (OneClass IdColon) ;;
      '(tok, tokens) <- advance tokens AnyToken ;;
      '(tok, tokens) <- (if id_eqb (id tok) IdNewLine
                         then advance tokens AnyToken
                         else Ok (tok, tokens)) ;;
      '(v, tokens) <- Token_parse fuel tok tokens ;;
      data <- setitem data key v ;;
      '(_, tokens) <- advance tokens (OneClass IdNewLine) ;;
      '(tok, tokens) <- advance tokens AnyToken ;;
      Indent_dict_while fuel data tok tokens
    else Ok (PDict data, tokens).
Proof. reflexivity. Qed.

Lemma Indent_list_while_S :
  forall fuel data tok tokens,
    Indent_list_while (S fuel) data tok tokens =
    if negb (id_eqb (id tok) IdDedent) then
      '(tok, tokens) <- advance tokens AnyToken ;;
      '(v, tokens) <- Token_parse fuel tok tokens ;;
      let data := data ++ [v] in
      '(_, tokens) <- advance tokens (OneClass IdNewLine) ;;
      '(tok, tokens) <- advance tokens (Classes [IdHyphen; IdDedent]) ;;
      Indent_list_while fuel data tok tokens
    else Ok (PList data, tokens).
Proof. reflexivity. Qed.

Lemma Token_parse_Indent :
  forall fuel self tok tokens,
    id self = IdIndent ->
    Token_parse (S fuel) self (tok :: tokens) =
    if id_eqb (id tok) IdHyphen then
      '(tok, tokens) <- advance (tok :: tokens) AnyToken ;;
      Indent_list_while fuel [] tok tokens
    else
      '(tok, tokens) <- advance (tok :: tokens) AnyToken ;;
      Indent_dict_while fuel [] tok tokens.
Proof. intros fuel self tok tokens H. simpl. rewrite H. reflexivity. Qed.

Lemma advance_hyphen_dedent :
  forall tok tokens,
    id tok = IdHyphen \/ id tok = IdDedent ->
    advance (tok :: tokens) (Classes [IdHyphen; IdDedent]) = Ok (tok, tokens).
Proof.
  intros tok tokens [H|H]; unfold advance; simpl; rewrite H; reflexivity.
Qed.

Lemma assigned_cons :
  forall data key v kvs,
    assigned data ((key, v) :: kvs) = assigned (items_set data key v) kvs.
Proof. reflexivity. Qed.

Ltac some_fuel fuel H :=
  destruct fuel as [|fuel]; [simpl in H; lia|].

Ltac flat := repeat (rewrite <- app_assoc; cbn [app]).

Ltac lengths H :=
  repeat (rewrite length_app in H; cbn [List.length] in H).

Ltac differs H :=
  let Hb := fresh "Hb" in
  pose proof H as Hb; apply id_eqb_neq in Hb; rewrite Hb; cbn [negb].

(** From the grammar to the parser: each kind of stream is read by its
    method or loop, which returns the value and leaves what follows the
    stream. *)
Lemma grammar_sound :
  (forall self toks v,
      value_of self toks v ->
      forall fuel rest,
        (List.length toks < fuel)%nat ->
        Token_parse fuel self (toks ++ rest) = Ok (v, rest))
  /\ (forall tok toks vs,
      elements tok toks vs ->
      forall fuel rest data,
        (List.length toks < fuel)%nat ->
        LeftSquare_while fuel data tok (toks ++ rest) = Ok (PList (data ++ vs), rest))
  /\ (forall sep closer tok toks kvs,
      pairs sep closer tok toks kvs ->
      forall fuel rest data,
        (List.length toks < fuel)%nat ->
        (sep = IdEqualSign -> closer = IdRightRound ->
         LeftRound_while fuel data tok (toks ++ rest)
         = Ok (POrderedDict (assigned data kvs), rest))
        /\ (sep = IdColon -> closer = IdRightBrace ->
            LeftBrace_while fuel data tok (toks ++ rest)
            = Ok (POrderedDict (assigned data kvs), rest)))
  /\ (forall tok toks vs,
      block_items tok toks vs ->
      forall fuel rest data,
        (List.length toks < fuel)%nat ->
        Indent_list_while fuel data tok (toks ++ rest) = Ok (PList (data ++ vs), rest))
  /\ (forall closer tok toks kvs,
      line_entries closer tok toks kvs ->
      forall fuel rest data,
        (List.length toks < fuel)%nat ->
        (closer = IdDedent ->
         Indent_dict_while fuel data tok (toks ++ rest)
         = Ok (PDict (assigned data kvs), rest))
        /\ (closer = IdEnd ->
            parse_while fuel data tok (toks ++ rest)
            = Ok (POrderedDict (assigned data kvs), rest))).
Proof.
  apply grammar_ind.
  - (* scalar *)
    intros tok H fuel rest Hfuel. some_fuel fuel Hfuel.
    apply Token_parse_default. exact H.
  - (* round *)
    intros left tok toks kvs Hl _ IH fuel rest Hfuel. some_fuel fuel Hfuel.
    cbn [app]. rewrite (Token_parse_LeftRound _ _ _ _ Hl).
    apply (IH fuel rest []); [simpl in Hfuel; lia|reflexivity|reflexivity].
  - (* square *)
    intros left tok toks vs Hl _ IH fuel rest Hfuel. some_fuel fuel Hfuel.
    cbn [app]. rewrite (Token_parse_LeftSquare _ _ _ _ Hl).
    apply (IH fuel rest []). simpl in Hfuel; lia.
  - (* brace *)
    intros left tok toks kvs Hl _ IH fuel rest Hfuel. some_fuel fuel Hfuel.
    cbn [app]. rewrite (Token_parse_LeftBrace _ _ _ _ Hl).
    apply (IH fuel rest []); [simpl in Hfuel; lia|reflexivity|reflexivity].
  - (* block list *)
    intros indent tok toks vs Hi Hh _ IH fuel rest Hfuel. some_fuel fuel Hfuel.
    cbn [app]. rewrite (Token_parse_Indent _ _ _ _ Hi). rewrite Hh.
    change (id_eqb IdHyphen IdHyphen) with true. cbv iota.
    rewrite advance_any. cbn [bind].
    apply (IH fuel rest []). simpl in Hfuel; lia.
  - (* block dict *)
    intros indent tok toks kvs Hi Hh _ IH fuel rest Hfuel. some_fuel fuel Hfuel.
    cbn [app]. rewrite (Token_parse_Indent _ _ _ _ Hi).
    apply id_eqb_neq in Hh. rewrite Hh.
    rewrite advance_any. cbn [bind].
    apply (IH fuel rest []); [simpl in Hfuel; lia|reflexivity].
  - (* elements: close *)
    intros right Hr fuel rest data Hfuel. some_fuel fuel Hfuel.
    cbn [app]. rewrite LeftSquare_while_S, Hr, app_nil_r. reflexivity.
  - (* elements: last *)
    intros e etoks v right He _ IHv Hr fuel rest data Hfuel.
    lengths Hfuel. some_fuel fuel Hfuel. flat.
    rewrite LeftSquare_while_S. differs He.
    rewrite (IHv fuel (right :: rest)) by lia. cbn [bind].
    rewrite (advance_closer right _ _ Hr). cbn [bind].
    rewrite Hr. change (id_eqb IdRightSquare IdComma) with false. cbv iota.
    cbn [bind].
    some_fuel fuel Hfuel.
    rewrite LeftSquare_while_S, Hr. reflexivity.
  - (* elements: comma *)
    intros e etoks v comma next toks vs He _ IHv Hc _ IH fuel rest data Hfuel.
    lengths Hfuel. some_fuel fuel Hfuel. flat.
    rewrite LeftSquare_while_S. differs He.
    rewrite (IHv fuel (comma :: next :: toks ++ rest)) by lia. cbn [bind].
    rewrite (advance_comma comma _ _ Hc). cbn [bind].
    rewrite Hc. change (id_eqb IdComma IdComma) with true. cbv iota.
    rewrite advance_any. cbn [bind].
    rewrite (IH fuel rest (data ++ [v])) by lia.
    rewrite <- app_assoc. reflexivity.
  - (* pairs: close *)
    intros sep closer right Hr fuel rest data Hfuel. some_fuel fuel Hfuel.
    cbn [app]. split; intros _ Hcl; rewrite Hcl in Hr.
    + rewrite LeftRound_while_S, Hr. reflexivity.
    + rewrite LeftBrace_while_S, Hr. reflexivity.
  - (* pairs: last *)
    intros sep closer k ktoks key mid x xtoks v right Hk _ IHk Hhash Hm _ IHx Hr
           fuel rest data Hfuel.
    lengths Hfuel. some_fuel fuel Hfuel. flat.
    split; intros Hsep Hcl; rewrite Hsep in Hm; rewrite Hcl in Hk, Hr.
    + rewrite LeftRound_while_S. differs Hk.
      rewrite (IHk fuel (mid :: x :: xtoks ++ right :: rest)) by lia. cbn [bind].
      rewrite (advance_one mid _ _ Hm). cbn [bind].
      rewrite advance_any. cbn [bind].
      rewrite (IHx fuel (right :: rest)) by lia. cbn [bind].
      unfold setitem. rewrite Hhash. cbn [bind].
      rewrite (advance_closer right _ _ Hr). cbn [bind].
      rewrite Hr. change (id_eqb IdRightRound IdComma) with false. cbv iota.
      cbn [bind]. some_fuel fuel Hfuel.
      rewrite LeftRound_while_S, Hr. reflexivity.
    + rewrite LeftBrace_while_S. differs Hk.
      rewrite (IHk fuel (mid :: x :: xtoks ++ right :: rest)) by lia. cbn [bind].
      rewrite (advance_one mid _ _ Hm). cbn [bind].
      rewrite advance_any. cbn [bind].
      rewrite (IHx fuel (right :: rest)) by lia. cbn [bind].
      unfold setitem. rewrite Hhash. cbn [bind].
      rewrite (advance_closer right _ _ Hr). cbn [bind].
      rewrite Hr. change (id_eqb IdRightBrace IdComma) with false. cbv iota.
      cbn [bind]. some_fuel fuel Hfuel.
      rewrite LeftBrace_while_S, Hr. reflexivity.
  - (* pairs: comma *)
    intros sep closer k ktoks key mid x xtoks v comma next toks kvs
           Hk _ IHk Hhash Hm _ IHx Hc _ IH fuel rest data Hfuel.
    lengths Hfuel. some_fuel fuel Hfuel. flat.
    split; intros Hsep Hcl; rewrite Hsep in Hm; rewrite Hcl in Hk.
    + rewrite LeftRound_while_S. differs Hk.
      rewrite (IHk fuel (mid :: x :: xtoks ++ comma :: next :: toks ++ rest)) by lia.
      cbn [bind].
      rewrite (advance_one mid _ _ Hm). cbn [bind].
      rewrite advance_any. cbn [bind].
      rewrite (IHx fuel (comma :: next :: toks ++ rest)) by lia. cbn [bind].
      unfold setitem. rewrite Hhash. cbn [bind].
      rewrite (advance_comma comma _ _ Hc). cbn [bind].
      rewrite Hc. change (id_eqb IdComma IdComma) with true. cbv iota.
      rewrite advance_any. cbn [bind].
      apply (IH fuel rest (items_set data key v)); [lia|exact Hsep|exact Hcl].
    + rewrite LeftBrace_while_S. differs Hk.
      rewrite (IHk fuel (mid :: x :: xtoks ++ comma :: next :: toks ++ rest)) by lia.
      cbn [bind].
      rewrite (advance_one mid _ _ Hm). cbn [bind].
      rewrite advance_any. cbn [bind].
      rewrite (IHx fuel (comma :: next :: toks ++ rest)) by lia. cbn [bind].
      unfold setitem. rewrite Hhash. cbn [bind].
      rewrite (advance_comma comma _ _ Hc). cbn [bind].
      rewrite Hc. change (id_eqb IdComma IdComma) with true. cbv iota.
      rewrite advance_any. cbn [bind].
      apply (IH fuel rest (items_set data key v)); [lia|exact Hsep|exact Hcl].
  - (* items: close *)
    intros dedent Hd fuel rest data Hfuel. some_fuel fuel Hfuel.
    cbn [app]. rewrite Indent_list_while_S, Hd, app_nil_r. reflexivity.
  - (* items: item *)
    intros hyphen x xtoks v newline next toks vs Hh _ IHx Hn Hnext _ IH
           fuel rest data Hfuel.
    cbn [List.length] in Hfuel. lengths Hfuel. some_fuel fuel Hfuel.
    cbn [app]. flat.
    rewrite Indent_list_while_S. differs Hh.
    rewrite advance_any. cbn [bind].
    rewrite (IHx fuel (newline :: next :: toks ++ rest)) by lia. cbn [bind].
    rewrite (advance_one newline _ _ Hn). cbn [bind].
    rewrite (advance_hyphen_dedent next _ Hnext). cbn [bind].
    rewrite (IH fuel rest (data ++ [v])) by lia.
    rewrite <- app_assoc. reflexivity.
  - (* entries: close *)
    intros closer last Hl fuel rest data Hfuel. some_fuel fuel Hfuel.
    cbn [app]. split; intros Hcl; rewrite Hcl in Hl.
    + rewrite Indent_dict_while_S, Hl. reflexivity.
    + rewrite parse_while_S, Hl. reflexivity.
  - (* entries: value on the line *)
    intros closer k ktoks key colon x xtoks v newline next toks kvs
           Hk _ IHk Hhash Hc Hx _ IHx Hn _ IH fuel rest data Hfuel.
    lengths Hfuel. some_fuel fuel Hfuel. flat.
    split; intros Hcl; rewrite Hcl in Hk.
    + rewrite Indent_dict_while_S. differs Hk.
      rewrite (IHk fuel (colon :: x :: xtoks ++ newline :: next :: toks ++ rest)) by lia.
      cbn [bind].
      rewrite (advance_one colon _ _ Hc). cbn [bind].
      rewrite advance_any. cbn [bind].
      apply id_eqb_neq in Hx. rewrite Hx. cbn [bind].
      rewrite (IHx fuel (newline :: next :: toks ++ rest)) by lia. cbn [bind].
      unfold setitem. rewrite Hhash. cbn [bind].
      rewrite (advance_one newline _ _ Hn). cbn [bind].
      rewrite advance_any. cbn [bind].
      apply (IH fuel rest (items_set data key v)); [lia|exact Hcl].
    + rewrite parse_while_S. differs Hk.
      rewrite (IHk fuel (colon :: x :: xtoks ++ newline :: next :: toks ++ rest)) by lia.
      cbn [bind].
      rewrite (advance_one colon _ _ Hc). cbn [bind].
      rewrite advance_any. cbn [bind].
      apply id_eqb_neq in Hx. rewrite Hx. cbn [bind].
      rewrite (IHx fuel (newline :: next :: toks ++ rest)) by lia. cbn [bind].
      unfold setitem. rewrite Hhash. cbn [bind].
      rewrite (advance_one newline _ _ Hn). cbn [bind].
      rewrite advance_any. cbn [bind].
      apply (IH fuel rest (items_set data key v)); [lia|exact Hcl].
  - (* entries: value below *)
    intros closer k ktoks key colon break x xtoks v newline next toks kvs
           Hk _ IHk Hhash Hc Hb _ IHx Hn _ IH fuel rest data Hfuel.
    lengths Hfuel. some_fuel fuel Hfuel. flat.
    split; intros Hcl; rewrite Hcl in Hk.
    + rewrite Indent_dict_while_S. differs Hk.
      rewrite (IHk fuel (colon :: break :: x :: xtoks ++ newline :: next :: toks ++ rest))
        by lia.
      cbn [bind].
      rewrite (advance_one colon _ _ Hc). cbn [bind].
      rewrite advance_any. cbn [bind].
      rewrite Hb. change (id_eqb IdNewLine IdNewLine) with true. cbv iota.
      rewrite advance_any. cbn [bind].
      rewrite (IHx fuel (newline :: next :: toks ++ rest)) by lia. cbn [bind].
      unfold setitem. rewrite Hhash. cbn [bind].
      rewrite (advance_one newline _ _ Hn). cbn [bind].
      rewrite advance_any. cbn [bind].
      apply (IH fuel rest (items_set data key v)); [lia|exact Hcl].
    + rewrite parse_while_S. differs Hk.
      rewrite (IHk fuel (colon :: break :: x :: xtoks ++ newline :: next :: toks ++ rest))
        by lia.
      cbn [bind].
      rewrite (advance_one colon _ _ Hc). cbn [bind].
      rewrite advance_any. cbn [bind].
      rewrite Hb. change (id_eqb IdNewLine IdNewLine) with true. cbv iota.
      rewrite advance_any. cbn [bind].
      rewrite (IHx fuel (newline :: next :: toks ++ rest)) by lia. cbn [bind].
      unfold setitem. rewrite Hhash. cbn [bind].
      rewrite (advance_one newline _ _ Hn). cbn [bind].
      rewrite advance_any. cbn [bind].
      apply (IH fuel rest (items_set data key v)); [lia|exact Hcl].
Qed.

Lemma advance_classes_ok :
  forall tokens a b tok rest,
    advance tokens (Classes [a; b]) = Ok (tok, rest) ->
    tokens = tok :: rest /\ (id tok = a \/ id tok = b).
Proof.
  intros [|t tokens] a b tok rest; unfold advance; [discriminate|].
  cbn [all_differ].
  destruct (id_eqb (id t) a) eqn:Ea; cbn [negb].
  - intros H. inversion H; subst. apply id_eqb_eq in Ea. auto.
  - destruct (id_eqb (id t) b) eqn:Eb; cbn [negb]; [|discriminate].
    intros H. inversion H; subst. apply id_eqb_eq in Eb. auto.
Qed.

Lemma setitem_ok :
  forall data key v data',
    setitem data key v = Ok data' ->
    hashable key = true /\ data' = items_set data key v.
Proof.
  intros data key v data'. unfold setitem.
  destruct (hashable key); [|discriminate].
  intros H. inversion H. auto.
Qed.

Lemma elements_closed :
  forall tok toks vs,
    elements tok toks vs -> id tok = IdRightSquare -> toks = [] /\ vs = [].
Proof. intros tok toks vs H Hc. inversion H; subst; auto; contradiction. Qed.

Lemma pairs_closed :
  forall sep closer tok toks kvs,
    pairs sep closer tok toks kvs -> id tok = closer -> toks = [] /\ kvs = [].
Proof. intros sep closer tok toks kvs H Hc. inversion H; subst; auto; contradiction. Qed.

(** The pair loop of an inline mapping, from a successful run back to
    the grammar. *)
Ltac pairs_back H IHT IHW :=
  let key := fresh "key" in let l1 := fresh "l" in let E1 := fresh "E" in
  bind_ok H as key l1 E1;
  let ktoks := fresh "ktoks" in let Hk := fresh "Hk" in let Hkv := fresh "Hkv" in
  destruct (IHT _ _ _ _ E1) as (ktoks & Hk & Hkv);
  let mid := fresh "mid" in let l2 := fresh "l" in let E2 := fresh "E" in
  bind_ok H as mid l2 E2;
  let Hm := fresh "Hm" in
  apply advance_ok in E2 as [E2 Hm];
  let x := fresh "x" in let l3 := fresh "l" in let E3 := fresh "E" in
  bind_ok H as x l3 E3; apply advance_ok in E3 as [E3 _];
  let v := fresh "v" in let l4 := fresh "l" in let E4 := fresh "E" in
  bind_ok H as v l4 E4;
  let xtoks := fresh "xtoks" in let Hx := fresh "Hx" in let Hxv := fresh "Hxv" in
  destruct (IHT _ _ _ _ E4) as (xtoks & Hx & Hxv);
  let data' := fresh "data'" in let Es := fresh "Es" in
  match type of H with
  | bind (setitem ?d ?k ?w) _ = _ =>
      destruct (setitem d k w) as [data'| |] eqn:Es; cbn [bind] in H;
      [|discriminate H|discriminate H]
  end;
  let Hhash := fresh "Hhash" in
  apply setitem_ok in Es as [Hhash Es];
  let t5 := fresh "t" in let l5 := fresh "l" in let E5 := fresh "E" in
  bind_ok H as t5 l5 E5;
  let Hcls := fresh "Hcls" in
  apply advance_classes_ok in E5 as [E5 Hcls];
  let Ec := fresh "Ec" in
  destruct (id_eqb (id t5) IdComma) eqn:Ec;
  [ let t6 := fresh "t" in let l6 := fresh "l" in let E6 := fresh "E" in
    bind_ok H as t6 l6 E6; apply advance_ok in E6 as [E6 _];
    let toks := fresh "toks" in let kvs := fresh "kvs" in
    let Ht := fresh "Ht" in let Hp := fresh "Hp" in let Hr := fresh "Hr" in
    destruct (IHW _ _ _ _ _ H) as (toks & kvs & Ht & Hp & Hr);
    exists (ktoks ++ mid :: x :: xtoks ++ t5 :: t6 :: toks), ((key, v) :: kvs);
    split; [subst; flat; reflexivity|];
    split; [|subst; reflexivity];
    apply id_eqb_eq in Ec;
    eapply pairs_comma; eauto
  | cbn [bind] in H;
    let toks := fresh "toks" in let kvs := fresh "kvs" in
    let Ht := fresh "Ht" in let Hp := fresh "Hp" in let Hr := fresh "Hr" in
    destruct (IHW _ _ _ _ _ H) as (toks & kvs & Ht & Hp & Hr);
    let Hc := fresh "Hc" in
    assert (Hc : id t5 = _)
      by (destruct Hcls as [Hc|Hc];
          [apply id_eqb_neq in Ec; contradiction|exact Hc]);
    let Hnil := fresh "Hnil" in
    destruct (pairs_closed _ _ _ _ _ Hp Hc) as [Hnil ?];
    exists (ktoks ++ mid :: x :: xtoks ++ [t5]), [(key, v)];
    split; [subst; flat; reflexivity|];
    split; [|subst; reflexivity];
    eapply pairs_last; eauto ].

(** The entry loop of a block mapping or of the document, likewise. *)
Ltac entries_back H IHT IHW :=
  let key := fresh "key" in let l1 := fresh "l" in let E1 := fresh "E" in
  bind_ok H as key l1 E1;
  let ktoks := fresh "ktoks" in let Hk := fresh "Hk" in let Hkv := fresh "Hkv" in
  destruct (IHT _ _ _ _ E1) as (ktoks & Hk & Hkv);
  let colon := fresh "colon" in let l2 := fresh "l" in let E2 := fresh "E" in
  bind_ok H as colon l2 E2;
  let Hm := fresh "Hm" in
  apply advance_ok in E2 as [E2 Hm];
  let t3 := fresh "t" in let l3 := fresh "l" in let E3 := fresh "E" in
  bind_ok H as t3 l3 E3; apply advance_ok in E3 as [E3 _];
  let Eb := fresh "Eb" in
  destruct (id_eqb (id t3) IdNewLine) eqn:Eb;
  [ let x := fresh "x" in let l4 := fresh "l" in let E4 := fresh "E" in
    bind_ok H as x l4 E4; apply advance_ok in E4 as [E4 _]
  | cbn [bind] in H ];
  match type of H with
  | bind (Token_parse _ ?x _) _ = _ =>
   let v := fresh "v" in let l5 := fresh "l" in let E5 := fresh "E" in
   bind_ok H as v l5 E5;
   let xtoks := fresh "xtoks" in let Hx := fresh "Hx" in let Hxv := fresh "Hxv" in
   destruct (IHT _ _ _ _ E5) as (xtoks & Hx & Hxv);
   let data' := fresh "data'" in let Es := fresh "Es" in
   match type of H with
   | bind (setitem ?d ?k ?w) _ = _ =>
       destruct (setitem d k w) as [data'| |] eqn:Es; cbn [bind] in H;
       [|discriminate H|discriminate H]
   end;
   let Hhash := fresh "Hhash" in
   apply setitem_ok in Es as [Hhash Es];
   let newline := fresh "newline" in let l6 := fresh "l" in let E6 := fresh "E" in
   bind_ok H as newline l6 E6;
   let Hn := fresh "Hn" in
   apply advance_ok in E6 as [E6 Hn];
   let next := fresh "next" in let l7 := fresh "l" in let E7 := fresh "E" in
   bind_ok H as next l7 E7; apply advance_ok in E7 as [E7 _];
   let toks := fresh "toks" in let kvs := fresh "kvs" in
   let Ht := fresh "Ht" in let Hp := fresh "Hp" in let Hr := fresh "Hr" in
   destruct (IHW _ _ _ _ _ H) as (toks & kvs & Ht & Hp & Hr);
   first
     [ apply id_eqb_eq in Eb;
       exists (ktoks ++ colon :: t3 :: x :: xtoks ++ newline :: next :: toks),
              ((key, v) :: kvs);
       split; [subst; flat; reflexivity|];
       split; [|subst; reflexivity];
       eapply line_entries_below; eauto
     | apply id_eqb_neq in Eb;
       exists (ktoks ++ colon :: t3 :: xtoks ++ newline :: next :: toks),
              ((key, v) :: kvs);
       split; [subst; flat; reflexivity|];
       split; [|subst; reflexivity];
       eapply line_entries_line; eauto ]
  end.

(** From the parser to the grammar: a method or loop that returns has
    read a stream of its kind. *)
Lemma grammar_complete :
  forall fuel,
    (forall self tokens v rest,
        Token_parse fuel self tokens = Ok (v, rest) ->
        exists toks, tokens = toks ++ rest /\ value_of self toks v)
    /\ (forall data tok tokens r rest,
        LeftRound_while fuel data tok tokens = Ok (r, rest) ->
        exists toks kvs,
          tokens = toks ++ rest /\ pairs IdEqualSign IdRightRound tok toks kvs
          /\ r = POrderedDict (assigned data kvs))
    /\ (forall data tok tokens r rest,
        LeftSquare_while fuel data tok tokens = Ok (r, rest) ->
        exists toks vs,
          tokens = toks ++ rest /\ elements tok toks vs /\ r = PList (data ++ vs))
    /\ (forall data tok tokens r rest,
        LeftBrace_while fuel data tok tokens = Ok (r, rest) ->
        exists toks kvs,
          tokens = toks ++ rest /\ pairs IdColon IdRightBrace tok toks kvs
          /\ r = POrderedDict (assigned data kvs))
    /\ (forall data tok tokens r rest,
        Indent_list_while fuel data tok tokens = Ok (r, rest) ->
        exists toks vs,
          tokens = toks ++ rest /\ block_items tok toks vs /\ r = PList (data ++ vs))
    /\ (forall data tok tokens r rest,
        Indent_dict_while fuel data tok tokens = Ok (r, rest) ->
        exists toks kvs,
          tokens = toks ++ rest /\ line_entries IdDedent tok toks kvs
          /\ r = PDict (assigned data kvs)).
Proof.
  induction fuel as [|fuel (IHT & IHR & IHS & IHB & IHL & IHD)].
  - repeat split; intros; discriminate.
  - split; [|split; [|split; [|split; [|split]]]].
    + intros self tokens v rest H. cbn [Token_parse] in H.
      destruct (id self) eqn:Eid;
        try (inversion H; subst; exists []; split; [reflexivity|];
             apply value_scalar; rewrite Eid; reflexivity).
      * bind_ok H as tok l1 E1. apply advance_ok in E1 as [E1 _].
        destruct (IHR _ _ _ _ _ H) as (toks & kvs & Ht & Hp & Hr).
        exists (tok :: toks). subst. split; [reflexivity|].
        apply value_round; assumption.
      * bind_ok H as tok l1 E1. apply advance_ok in E1 as [E1 _].
        destruct (IHS _ _ _ _ _ H) as (toks & vs & Ht & Hp & Hr).
        exists (tok :: toks). subst. split; [reflexivity|].
        apply value_square; assumption.
      * bind_ok H as tok l1 E1. apply advance_ok in E1 as [E1 _].
        destruct (IHB _ _ _ _ _ H) as (toks & kvs & Ht & Hp & Hr).
        exists (tok :: toks). subst. split; [reflexivity|].
        apply value_brace; assumption.
      * bind_ok H as tok l1 E1. apply advance_ok in E1 as [E1 _].
        cbv zeta in H. rewrite advance_any in H.
        destruct (id_eqb (id tok) IdHyphen) eqn:Eh; cbn [bind] in H.
        -- destruct (IHL _ _ _ _ _ H) as (toks & vs & Ht & Hp & Hr).
           exists (tok :: toks). subst. split; [reflexivity|].
           apply id_eqb_eq in Eh. apply value_block_list; assumption.
        -- destruct (IHD _ _ _ _ _ H) as (toks & kvs & Ht & Hp & Hr).
           exists (tok :: toks). subst. split; [reflexivity|].
           apply id_eqb_neq in Eh. apply value_block_dict; assumption.
    + intros data tok tokens r rest H. rewrite LeftRound_while_S in H.
      destruct (id_eqb (id tok) IdRightRound) eqn:Eend; cbn [negb] in H.
      { inversion H; subst. exists [], []. split; [reflexivity|].
        split; [|reflexivity]. apply pairs_close. apply id_eqb_eq. exact Eend. }
      apply id_eqb_neq in Eend. pairs_back H IHT IHR.
    + intros data tok tokens r rest H. rewrite LeftSquare_while_S in H.
      destruct (id_eqb (id tok) IdRightSquare) eqn:Eend; cbn [negb] in H.
      { inversion H; subst. exists [], []. split; [reflexivity|].
        split; [|rewrite app_nil_r; reflexivity].
        apply elements_close. apply id_eqb_eq. exact Eend. }
      apply id_eqb_neq in Eend.
      bind_ok H as v l1 E1. destruct (IHT _ _ _ _ E1) as (etoks & He & Hev).
      cbv zeta in H.
      bind_ok H as t2 l2 E2. apply advance_classes_ok in E2 as [E2 Hcls].
      destruct (id_eqb (id t2) IdComma) eqn:Ec.
      * bind_ok H as t3 l3 E3. apply advance_ok in E3 as [E3 _].
        destruct (IHS _ _ _ _ _ H) as (toks & vs & Ht & Hp & Hr).
        exists (etoks ++ t2 :: t3 :: toks), (v :: vs).
        split; [subst; flat; reflexivity|].
        split; [|subst; rewrite <- app_assoc; reflexivity].
        apply id_eqb_eq in Ec. apply elements_comma; assumption.
      * cbn [bind] in H.
        destruct (IHS _ _ _ _ _ H) as (toks & vs & Ht & Hp & Hr).
        assert (Hc : id t2 = IdRightSquare).
        { destruct Hcls as [Hc|Hc]; [apply id_eqb_neq in Ec; contradiction|exact Hc]. }
        destruct (elements_closed _ _ _ Hp Hc) as [Hn1 Hn2].
        exists (etoks ++ [t2]), [v].
        split; [subst; flat; reflexivity|].
        split; [|subst; rewrite <- app_assoc; reflexivity].
        apply elements_last; assumption.
    + intros data tok tokens r rest H. rewrite LeftBrace_while_S in H.
      destruct (id_eqb (id tok) IdRightBrace) eqn:Eend; cbn [negb] in H.
      { inversion H; subst. exists [], []. split; [reflexivity|].
        split; [|reflexivity]. apply pairs_close. apply id_eqb_eq. exact Eend. }
      apply id_eqb_neq in Eend. pairs_back H IHT IHB.
    + intros data tok tokens r rest H. rewrite Indent_list_while_S in H.
      destruct (id_eqb (id tok) IdDedent) eqn:Eend; cbn [negb] in H.
      { inversion H; subst. exists [], []. split; [reflexivity|].
        split; [|rewrite app_nil_r; reflexivity].
        apply block_items_close. apply id_eqb_eq. exact Eend. }
      apply id_eqb_neq in Eend.
      bind_ok H as x l1 E1. apply advance_ok in E1 as [E1 _].
      bind_ok H as v l2 E2. destruct (IHT _ _ _ _ E2) as (xtoks & Hx & Hxv).
      cbv zeta in H.
      bind_ok H as newline l3 E3. apply advance_ok in E3 as [E3 Hn].
      bind_ok H as next l4 E4. apply advance_classes_ok in E4 as [E4 Hcls].
      destruct (IHL _ _ _ _ _ H) as (toks & vs & Ht & Hp & Hr).
      exists (x :: xtoks ++ newline :: next :: toks), (v :: vs).
      split; [subst; cbn [app]; flat; reflexivity|].
      split; [|subst; rewrite <- app_assoc; reflexivity].
      apply block_items_item; assumption.
    + intros data tok tokens r rest H. rewrite Indent_dict_while_S in H.
      destruct (id_eqb (id tok) IdDedent) eqn:Eend; cbn [negb] in H.
      { inversion H; subst. exists [], []. split; [reflexivity|].
        split; [|reflexivity]. apply line_entries_close. apply id_eqb_eq. exact Eend. }
      apply id_eqb_neq in Eend. entries_back H IHT IHD.
Qed.

Lemma parse_while_complete :
  forall fuel data tok tokens r rest,
    parse_while fuel data tok tokens = Ok (r, rest) ->
    exists toks kvs,
      tokens = toks ++ rest /\ line_entries IdEnd tok toks kvs
      /\ r = POrderedDict (assigned data kvs).
Proof.
  induction fuel as [|fuel IH]; intros data tok tokens r rest H; [discriminate H|].
  pose proof (proj1 (grammar_complete fuel)) as IHT.
  rewrite parse_while_S in H.
  destruct (id_eqb (id tok) IdEnd) eqn:Eend; cbn [negb] in H.
  { inversion H; subst. exists [], []. split; [reflexivity|].
    split; [|reflexivity]. apply line_entries_close. apply id_eqb_eq. exact Eend. }
  apply id_eqb_neq in Eend. entries_back H IHT IH.
Qed.

Lemma skip_newlines_skips :
  forall skipped t0 tok rest,
    Forall (fun t => id t = IdNewLine) skipped -> id tok <> IdNewLine ->
    skip_newlines t0 (skipped ++ tok :: rest) = (Some tok, rest).
Proof.
  induction skipped as [|t skipped IH]; intros t0 tok rest Hall Hne; cbn [app skip_newlines].
  - apply id_eqb_neq in Hne. rewrite Hne. reflexivity.
  - inversion Hall as [|? ? Ht Hall']; subst. rewrite Ht.
    change (id_eqb IdNewLine IdNewLine) with true. cbn [negb].
    apply IH; assumption.
Qed.

Lemma skip_newlines_skipped :
  forall tokens t0 tok rest,
    skip_newlines t0 tokens = (Some tok, rest) ->
    (exists skipped,
        tokens = skipped ++ tok :: rest
        /\ Forall (fun t => id t = IdNewLine) skipped /\ id tok <> IdNewLine)
    \/ (rest = [] /\ (tokens = [] \/ id tok = IdNewLine)).
Proof.
  induction tokens as [|t tokens IH]; intros t0 tok rest H; cbn [skip_newlines] in H.
  - inversion H; subst. right. auto.
  - destruct (id_eqb (id t) IdNewLine) eqn:E; cbn [negb] in H.
    + apply id_eqb_eq in E.
      destruct (IH _ _ _ H) as [(skipped & Ht & Hall & Hne)|[Hr [Hn|Hn]]].
      * left. exists (t :: skipped). subst. split; [reflexivity|].
        split; [constructor; assumption|assumption].
      * subst. cbn [skip_newlines] in H. inversion H; subst. right. auto.
      * right. auto.
    + inversion H; subst. left. exists []. apply id_eqb_neq in E.
      split; [reflexivity|]. split; [constructor|assumption].
Qed.

Lemma line_entries_nil :
  forall closer tok kvs, line_entries closer tok [] kvs -> id tok = closer.
Proof.
  intros closer tok kvs H. inversion H as [| |]; [subst; reflexivity| |];
    match goal with
    | E : [] = ?k ++ _ |- _ => destruct k; discriminate E
    | E : ?k ++ _ = [] |- _ => destruct k; discriminate E
    end.
Qed.

(** The [parse] method of a token reads every value of the grammar,
    inline collections and blocks within one another, that is nested no
    deeper than the interpreter's stack holds: on a stream that starts
    with the tokens of the value it returns the value and leaves the
    rest of the stream untouched. *)
Theorem Token_parse_reads :
  forall self toks v rest fuel,
    value_of self toks v ->
    (nesting (self :: toks) <= nesting_limit)%nat ->
    (List.length toks < fuel)%nat ->
    Token_parse fuel self (toks ++ rest) = Ok (v, rest).
Proof.
  intros self toks v rest fuel H _ Hfuel.
  apply (proj1 grammar_sound self toks v H fuel rest Hfuel).
Qed.

Lemma Token_parse_reads_witness :
  value_of (Token IdLeftSquare PNone (Some 1%Z)) sample_inline
    (PList [PInt 1; POrderedDict [(PStr "b", PInt 2)]])
  /\ (nesting (Token IdLeftSquare PNone (Some 1%Z) :: sample_inline)
      <= nesting_limit)%nat
  /\ Token_parse 9 (Token IdLeftSquare PNone (Some 1%Z))
       (sample_inline ++ [Token IdNewLine (PInt 1) None; End])
     = Ok (PList [PInt 1; POrderedDict [(PStr "b", PInt 2)]],
           [Token IdNewLine (PInt 1) None; End]).
Proof.
  assert (H : value_of (Token IdLeftSquare PNone (Some 1%Z)) sample_inline
                (PList [PInt 1; POrderedDict [(PStr "b", PInt 2)]])).
  { unfold sample_inline. apply value_square; [reflexivity|].
    apply (elements_comma (Token IdInteger (PInt 1) (Some 1%Z)) [] (PInt 1)
             (Token IdComma PNone (Some 1%Z)) (Token IdLeftBrace PNone (Some 1%Z))
             [ Token IdString (PStr "b") (Some 1%Z); Token IdColon PNone (Some 1%Z);
               Token IdInteger (PInt 2) (Some 1%Z); Token IdRightBrace PNone (Some 1%Z);
               Token IdRightSquare PNone (Some 1%Z) ]
             [POrderedDict [(PStr "b", PInt 2)]]);
      [discriminate|apply value_scalar; reflexivity|reflexivity|].
    apply (elements_last (Token IdLeftBrace PNone (Some 1%Z))
             [ Token IdString (PStr "b") (Some 1%Z); Token IdColon PNone (Some 1%Z);
               Token IdInteger (PInt 2) (Some 1%Z); Token IdRightBrace PNone (Some 1%Z) ]
             (POrderedDict [(PStr "b", PInt 2)]) (Token IdRightSquare PNone (Some 1%Z)));
      [discriminate| |reflexivity].
    apply (value_brace (Token IdLeftBrace PNone (Some 1%Z))
             (Token IdString (PStr "b") (Some 1%Z))
             [ Token IdColon PNone (Some 1%Z); Token IdInteger (PInt 2) (Some 1%Z);
               Token IdRightBrace PNone (Some 1%Z) ]
             [(PStr "b", PInt 2)]); [reflexivity|].
    apply (pairs_last IdColon IdRightBrace (Token IdString (PStr "b") (Some 1%Z)) []
             (PStr "b") (Token IdColon PNone (Some 1%Z))
             (Token IdInteger (PInt 2) (Some 1%Z)) [] (PInt 2)
             (Token IdRightBrace PNone (Some 1%Z)));
      [discriminate|apply value_scalar; reflexivity|reflexivity|reflexivity
      |apply value_scalar; reflexivity|reflexivity]. }
  assert (N : (nesting (Token IdLeftSquare PNone (Some 1%Z) :: sample_inline)
               <= nesting_limit)%nat) by (vm_compute; lia).
  split; [exact H|]. split; [exact N|].
  exact (Token_parse_reads (Token IdLeftSquare PNone (Some 1%Z)) sample_inline
           (PList [PInt 1; POrderedDict [(PStr "b", PInt 2)]])
           [Token IdNewLine (PInt 1) None; End] 9 H N ltac:(simpl; lia)).
Defined.

(** The [parse] method of a token returns only after it has read a
    value of the grammar: what it has taken from the stream are the
    tokens of a value, and what it returns is that value. On any other
    stream it raises. *)
Theorem Token_parse_reads_only :
  forall fuel self tokens v rest,
    Token_parse fuel self tokens = Ok (v, rest) ->
    exists toks, tokens = toks ++ rest /\ value_of self toks v.
Proof.
  intros fuel self tokens v rest H.
  apply (proj1 (grammar_complete fuel) self tokens v rest H).
Qed.

Lemma Token_parse_reads_only_witness :
  Token_parse 9 (Token IdLeftSquare PNone (Some 1%Z))
    (sample_inline ++ [Token IdNewLine (PInt 1) None; End])
  = Ok (PList [PInt 1; POrderedDict [(PStr "b", PInt 2)]],
        [Token IdNewLine (PInt 1) None; End])
  /\ exists toks,
       sample_inline ++ [Token IdNewLine (PInt 1) None; End]
       = toks ++ [Token IdNewLine (PInt 1) None; End]
       /\ value_of (Token IdLeftSquare PNone (Some 1%Z)) toks
            (PList [PInt 1; POrderedDict [(PStr "b", PInt 2)]]).
Proof.
  split; [reflexivity|].
  apply (Token_parse_reads_only 9 (Token IdLeftSquare PNone (Some 1%Z))
           (sample_inline ++ [Token IdNewLine (PInt 1) None; End])
           (PList [PInt 1; POrderedDict [(PStr "b", PInt 2)]])
           [Token IdNewLine (PInt 1) None; End] eq_refl).
Defined.

(** A stream [parse] returns on is a run of entries. *)
Lemma parse_tokens_ok :
  forall tokens v,
    parse_tokens tokens = Ok v ->
    exists skipped tok toks rest kvs,
      tokens = skipped ++ tok :: toks ++ rest
      /\ Forall (fun t => id t = IdNewLine) skipped /\ id tok <> IdNewLine
      /\ line_entries IdEnd tok toks kvs
      /\ v = POrderedDict (assigned [] kvs).
Proof.
  intros tokens v H. rewrite parse_tokens_eq in H.
  destruct (skip_newlines None tokens) as [[tok|] l] eqn:Es; [|discriminate H].
  bind_ok H as data l' E. inversion H; subst data.
  destruct (parse_while_complete _ _ _ _ _ _ E) as (toks & kvs & Ht & Hp & Hv).
  destruct (skip_newlines_skipped _ _ _ _ Es) as [(skipped & Hs & Hall & Hne)|[Hl Hn]].
  - exists skipped, tok, toks, l', kvs. subst. auto.
  - rewrite Hl in Ht. destruct toks; [|discriminate Ht].
    apply line_entries_nil in Hp.
    destruct Hn as [Hn|Hn]; [|congruence].
    subst tokens. discriminate Es.
Qed.

(** [parse] returns on a run of entries, with the fuel it starts
    from. *)
Lemma parse_tokens_entries :
  forall skipped tok toks rest kvs,
    Forall (fun t => id t = IdNewLine) skipped -> id tok <> IdNewLine ->
    line_entries IdEnd tok toks kvs ->
    parse_tokens (skipped ++ tok :: toks ++ rest)
    = Ok (POrderedDict (assigned [] kvs)).
Proof.
  intros skipped tok toks rest kvs Hall Hne Hp.
  rewrite parse_tokens_eq, (skip_newlines_skips _ _ _ _ Hall Hne).
  assert (Hfuel : (List.length toks
                   < parse_fuel (skipped ++ tok :: toks ++ rest))%nat).
  { unfold parse_fuel. repeat (rewrite length_app; cbn [List.length]). lia. }
  destruct (proj2 (proj2 (proj2 (proj2 grammar_sound))) IdEnd tok toks kvs Hp
              _ rest [] Hfuel) as [_ Hw].
  rewrite (Hw eq_refl). reflexivity.
Qed.

(** On a token stream that is nested no deeper than the interpreter's
    stack holds, [parse] returns exactly when the stream is, after
    leading NewLine tokens, a run of entries [key: value], one to a
    line, up to an [End()]; it returns the [OrderedDict] of the entries,
    assigned in their order. *)
Theorem parse_tokens_reads :
  forall tokens v,
    (nesting tokens <= nesting_limit)%nat ->
    (parse_tokens tokens = Ok v <->
     exists skipped tok toks rest kvs,
       tokens = skipped ++ tok :: toks ++ rest
       /\ Forall (fun t => id t = IdNewLine) skipped /\ id tok <> IdNewLine
       /\ line_entries IdEnd tok toks kvs
       /\ v = POrderedDict (assigned [] kvs)).
Proof.
  intros tokens v _. split.
  - apply parse_tokens_ok.
  - intros (skipped & tok & toks & rest & kvs & Ht & Hall & Hne & Hp & Hv).
    subst tokens v. apply parse_tokens_entries; assumption.
Qed.

Lemma parse_tokens_reads_witness :
  parse sample_document = Ok sample_value
  /\ exists tokens,
       tokenize sample_document = Ok tokens
       /\ (nesting tokens <= nesting_limit)%nat
       /\ exists skipped tok toks rest kvs,
            tokens = skipped ++ tok :: toks ++ rest
            /\ Forall (fun t => id t = IdNewLine) skipped /\ id tok <> IdNewLine
            /\ line_entries IdEnd tok toks kvs
            /\ sample_value = POrderedDict (assigned [] kvs).
Proof.
  split; [vm_compute; reflexivity|].
  destruct (tokenize sample_document) as [tokens| |] eqn:E;
    try (vm_compute in E; discriminate E).
  assert (N : (nesting tokens <= nesting_limit)%nat).
  { assert (T : text_nesting sample_document = nesting tokens)
      by (unfold text_nesting; rewrite E; reflexivity).
    rewrite <- T. vm_compute. lia. }
  exists tokens. split; [reflexivity|]. split; [exact N|].
  apply (proj1 (parse_tokens_reads tokens sample_value N)).
  assert (P : parse sample_document = Ok sample_value) by (vm_compute; reflexivity).
  rewrite parse_eq, E in P. exact P.
Defined.

(** ** Indent and Dedent tokens match like brackets *)

Lemma dedent_while_blocks :
  forall opened curr pos stack out,
    (0 <= curr)%Z ->
    dedent_while (opened ++ [0%Z]) curr pos = Ok (stack, out) ->
    exists opened',
      stack = opened' ++ [0%Z]
      /\ forall more, blocks opened (out ++ more) = blocks opened' more.
Proof.
  induction opened as [|w opened IH]; intros curr pos stack out Hcurr H.
  - cbn [app] in H. rewrite dedent_while_cons in H.
    destruct (0 >? curr)%Z eqn:E; [lia|].
    inversion H; subst. exists []. auto.
  - cbn [app] in H. rewrite dedent_while_cons in H.
    destruct (w >? curr)%Z.
    + destruct (dedent_while (opened ++ [0%Z]) curr pos) as [[s o]| |] eqn:E;
        cbn [bind] in H; try discriminate H.
      inversion H; subst.
      destruct (IH _ _ _ _ Hcurr E) as (opened' & Hs & Hb).
      exists opened'. split; [exact Hs|].
      intros more. cbn [app blocks Dedent NewLine id value].
      rewrite Z.eqb_refl. apply Hb.
    + inversion H; subst. exists (w :: opened). auto.
Qed.

(** A token that is no Indent and no Dedent: neither opens nor closes a
    block. *)
Lemma blocks_other :
  forall opened tok more,
    id tok <> IdIndent -> id tok <> IdDedent ->
    blocks opened (tok :: more) = blocks opened more.
Proof.
  intros opened tok more Hi Hd. cbn [blocks].
  destruct (id tok); try reflexivity; congruence.
Qed.

Lemma tokenize_step_blocks :
  forall st tok opened st' out,
    tokenize_inv st -> indent_stack st = opened ++ [0%Z] ->
    scanned_shape tok = true -> id tok <> IdDedent ->
    tokenize_step st tok = Ok (st', out) ->
    exists opened',
      indent_stack st' = opened' ++ [0%Z]
      /\ forall more, blocks opened (out ++ more) = blocks opened' more.
Proof.
  intros [pos curr stack nl] tok opened st' out
    [Hok (top & below & Hstack & Htop)] Hopen Hshape Hded H.
  simpl in *.
  assert (Hcurr : (0 <= curr)%Z).
  { pose proof (stack_ok_nonneg _ Hok) as F. rewrite Hstack in F.
    inversion F; subst. lia. }
  unfold tokenize_step, int_value in H. simpl in H.
  (* the token that is yielded *)
  assert (Hline : exists position' tok' nl',
             (if id_eqb (id tok) IdNewLine
              then bind (match value tok with PInt z => Ok z | _ => Raise TypeError end)
                     (fun lines => Ok ((pos + lines)%Z, tok, true))
              else Ok (pos, Token (id tok) (value tok) (Some pos), false))
             = Ok (position', tok', nl')
             /\ id tok' = id tok /\ value tok' = value tok).
  { destruct (id_eqb (id tok) IdNewLine) eqn:E.
    - apply id_eqb_eq in E. unfold scanned_shape in Hshape. rewrite E in Hshape.
      destruct (value tok) eqn:Ev; try discriminate. cbn [bind]. eauto 6.
    - eexists; eexists; eexists. split; [reflexivity|]. split; reflexivity. }
  destruct Hline as (position' & tok' & nl' & Hline & Hid & Hval).
  rewrite Hline in H. clear Hline.
  assert (Hother : forall more,
             blocks opened ((if negb (id_eqb (id tok') IdIndent) then [tok'] else [])
                              ++ more) = blocks opened more).
  { intros more. destruct (id_eqb (id tok') IdIndent) eqn:E; [reflexivity|].
    cbn [negb app]. apply blocks_other; [apply id_eqb_neq; exact E|congruence]. }
  assert (Hsame : forall opened0 more,
             blocks opened0 ((if negb (id_eqb (id tok') IdIndent) then [tok'] else [])
                               ++ more) = blocks opened0 more).
  { intros opened0 more. destruct (id_eqb (id tok') IdIndent) eqn:E; [reflexivity|].
    cbn [negb app]. apply blocks_other; [apply id_eqb_neq; exact E|congruence]. }
  destruct nl.
  - destruct (id_eqb (id tok) IdIndent) eqn:Ei.
    + (* an Indent token after a NewLine *)
      apply id_eqb_eq in Ei. unfold scanned_shape in Hshape. rewrite Ei in Hshape.
      destruct (value tok) as [| | indent | | | | |] eqn:Ev; try discriminate Hshape.
      apply Z.leb_le in Hshape. cbn [bind] in H.
      destruct (indent =? curr)%Z eqn:Eq; cbn [negb bind] in H.
      * cbn [Z.ltb Z.gtb Z.compare bind] in H. inversion H; subst.
        exists opened. split; [exact Hopen|]. intros more. cbn [app]. apply Hsame.
      * apply Z.eqb_neq in Eq.
        destruct (indent - curr <? 0)%Z eqn:Eneg.
        -- apply Z.ltb_lt in Eneg. rewrite Hopen in H.
           destruct (dedent_while (opened ++ [0%Z]) indent position')
             as [[stack' dedents]| |] eqn:Ed; cbn [bind] in H; try discriminate H.
           destruct (indent - curr >? 0)%Z eqn:Egt; [lia|].
           inversion H; subst.
           destruct (dedent_while_blocks _ _ _ _ _ Hshape Ed) as (opened' & Hs & Hb).
           exists opened'. split; [exact Hs|].
           intros more. cbn [app]. rewrite <- app_assoc, Hb. apply Hsame.
        -- cbn [bind] in H.
           destruct (indent - curr >? 0)%Z eqn:Egt; [|lia].
           inversion H; subst.
           exists (indent :: opened). split; [rewrite Hopen; reflexivity|].
           intros more. rewrite Hid, Ei. cbn [negb app blocks].
           rewrite Hid, Ei, Hval. reflexivity.
    + (* another token after a NewLine *)
      cbn [bind] in H.
      destruct (0 =? curr)%Z eqn:Eq; cbn [negb bind] in H.
      * cbn [Z.ltb Z.gtb Z.compare bind] in H. inversion H; subst.
        exists opened. split; [exact Hopen|]. intros more. cbn [app]. apply Hsame.
      * apply Z.eqb_neq in Eq.
        destruct (0 - curr <? 0)%Z eqn:Eneg; [|lia].
        rewrite Hopen in H.
        destruct (dedent_while (opened ++ [0%Z]) 0 position')
          as [[stack' dedents]| |] eqn:Ed; cbn [bind] in H; try discriminate H.
        destruct (0 - curr >? 0)%Z eqn:Egt; [lia|].
        inversion H; subst.
        destruct (dedent_while_blocks _ _ _ _ _ (Z.le_refl 0) Ed) as (opened' & Hs & Hb).
        exists opened'. split; [exact Hs|].
        intros more. cbn [app]. rewrite <- app_assoc, Hb. apply Hsame.
  - cbn [bind] in H.
    cbn [Z.ltb Z.gtb Z.compare bind] in H. inversion H; subst.
    exists opened. split; [exact Hopen|]. intros more. cbn [app]. apply Hsame.
Qed.

Lemma tokenize_for_blocks :
  forall tokens st opened st' out,
    tokenize_inv st -> indent_stack st = opened ++ [0%Z] ->
    Forall (fun tok => scanned_shape tok = true /\ id tok <> IdDedent) tokens ->
    tokenize_for st tokens = Ok (st', out) ->
    exists opened',
      indent_stack st' = opened' ++ [0%Z]
      /\ stack_ok (indent_stack st')
      /\ forall more, blocks opened (out ++ more) = blocks opened' more.
Proof.
  induction tokens as [|tok tokens IH]; intros st opened st' out Hinv Hopen Hall H;
    cbn [tokenize_for] in H.
  - inversion H; subst. exists opened. split; [exact Hopen|].
    split; [exact (proj1 Hinv)|]. auto.
  - inversion Hall as [|? ? [Hshape Hded] Hall']; subst.
    destruct (tokenize_step_inv st tok Hinv Hshape) as (st1 & out1 & E1 & Hinv1 & _).
    rewrite E1 in H. cbn [bind] in H.
    destruct (tokenize_step_blocks _ _ _ _ _ Hinv Hopen Hshape Hded E1)
      as (opened1 & Hopen1 & Hb1).
    destruct (tokenize_for st1 tokens) as [[st2 out2]| |] eqn:E2; cbn [bind] in H;
      try discriminate H.
    inversion H; subst.
    destruct (IH _ _ _ _ Hinv1 Hopen1 Hall' E2) as (opened2 & Hopen2 & Hok2 & Hb2).
    exists opened2. split; [exact Hopen2|]. split; [exact Hok2|].
    intros more. rewrite <- app_assoc, Hb1. apply Hb2.
Qed.

Lemma tokenize_eq :
  forall input_string,
    tokenize input_string =
    ('(tokens, remainder) <- scan _scanner (strip input_string) ;;
     '(_, out) <- tokenize_for
                    (tokenize_init (len (lstripped input_string) + 1)) tokens ;;
     Ok (out ++ [End])).
Proof. reflexivity. Qed.

Lemma scanner_token_raw :
  forall tok, scanner_token tok = true ->
    scanned_shape tok = true /\ id tok <> IdDedent.
Proof.
  intros [i v l] H. unfold scanner_token, scanned_shape in *. cbn [id value line] in *.
  destruct l; [discriminate H|].
  destruct i; destruct v; try discriminate H; split; try reflexivity;
    try discriminate; apply Z.leb_le; apply Z.leb_le in H; lia.
Qed.

(** In the stream [tokenize] yields, the Indent and Dedent tokens match
    like brackets: every Dedent closes the innermost block that is
    open and carries the width of the Indent that opened it. Blocks may
    still be open at the end of the input; their widths grow strictly
    from the outermost to the innermost. *)
Theorem tokenize_blocks_match :
  forall input_string out,
    tokenize input_string = Ok out ->
    exists opened,
      blocks [] out = Some opened /\ stack_ok (opened ++ [0%Z]).
Proof.
  intros input_string out H. rewrite tokenize_eq in H.
  destruct (scan _scanner (strip input_string)) as [[tokens remainder]| |] eqn:Es;
    cbn [bind] in H; try discriminate H.
  rewrite scan_eq in Es.
  destruct (scan_loop_all (fun tok => scanner_token tok = true) scanner_do_token
              _ _ _ _ _ _ (Forall_nil _) Es) as [Hshape _].
  assert (Hraw : Forall (fun tok => scanned_shape tok = true /\ id tok <> IdDedent)
                   tokens).
  { apply (Forall_impl _ scanner_token_raw Hshape). }
  destruct (tokenize_for (tokenize_init (len (lstripped input_string) + 1)) tokens)
    as [[st o]| |] eqn:Ef; cbn [bind] in H; try discriminate H.
  inversion H; subst.
  destruct (tokenize_for_blocks _ _ [] _ _ (tokenize_init_inv _) eq_refl Hraw Ef)
    as (opened & Hopen & Hok & Hb).
  exists opened. split; [rewrite Hb; reflexivity|].
  rewrite <- Hopen. exact Hok.
Qed.

Lemma tokenize_blocks_match_witness :
  (exists out, tokenize (lines ["a:"; "  b:"; "    c: 1"; "  d: 2"; "e:"; "  f: 3"])
               = Ok out
               /\ blocks [] out = Some [2%Z])
  /\ exists out opened,
       tokenize (lines ["a:"; "  b:"; "    c: 1"; "  d: 2"; "e:"; "  f: 3"]) = Ok out
       /\ blocks [] out = Some opened /\ stack_ok (opened ++ [0%Z]).
Proof.
  split.
  - eexists. split; [vm_compute; reflexivity|reflexivity].
  - destruct (tokenize (lines ["a:"; "  b:"; "    c: 1"; "  d: 2"; "e:"; "  f: 3"]))
      as [out| |] eqn:E; try (vm_compute in E; discriminate E).
    exists out.
    destruct (tokenize_blocks_match _ out E) as (opened & H). exists opened. auto.
Defined.

(** ** Runs of a character class *)

Lemma append_length :
  forall a b : string,
    String.length (a ++ b)%string = (String.length a + String.length b)%nat.
Proof. induction a as [|c a IH]; intros b; simpl; [|rewrite IH]; reflexivity. Qed.

Lemma append_nil_r : forall s : string, (s ++ "")%string = s.
Proof. induction s as [|c s IH]; cbn [append]; [|rewrite IH]; reflexivity. Qed.

Lemma substring_append :
  forall a b : string, substring 0 (String.length a) (a ++ b)%string = a.
Proof.
  induction a as [|c a IH]; intros b; cbn [String.length append substring].
  - destruct b; reflexivity.
  - rewrite IH. reflexivity.
Qed.

Lemma last_char_append :
  forall a b prev, last_char prev (a ++ b)%string = last_char (last_char prev a) b.
Proof. induction a as [|c a IH]; intros b prev; cbn [append last_char]; auto. Qed.

Lemma stops_starts :
  forall p s, starts_with p s = false -> stops p s.
Proof.
  intros p [|c s] H; [left; reflexivity|].
  right. exists c, s. split; [reflexivity|exact H].
Qed.

(** The star of a class is greedy: it runs to the end of the run when
    what follows matches there. *)
Lemma rounds_class_greedy :
  forall (A : Type) (p : ascii -> bool) (k : option ascii -> string -> option A)
         body t m,
    str_all p body = true -> stops p t ->
    forall n prev,
      (String.length body <= n)%nat ->
      k (last_char prev body) t = Some m ->
      rounds (fun p' s' k' => re_match (Class p) p' s' k') k n prev (body ++ t)%string
      = Some m.
Proof.
  intros A p k body t m Hall Ht.
  assert (Hstop : forall prev k',
             re_match (Class p) prev t k' = (None : option A)).
  { intros prev k'. destruct Ht as [Ht|(c & t' & Ht & Hc)]; subst t; cbn [re_match].
    - reflexivity.
    - rewrite Hc. reflexivity. }
  set (star := fun p' s' k' => re_match (A := A) (Class p) p' s' k').
  induction body as [|c body IH]; intros n prev Hn Hk; cbn [append last_char] in *.
  - destruct n as [|n]; cbn [rounds]; [exact Hk|].
    unfold star at 1. rewrite Hstop. exact Hk.
  - cbn [str_all] in Hall. apply andb_prop in Hall as [Hc Hall].
    destruct n as [|n]; [simpl in Hn; lia|].
    cbn [rounds]. unfold star at 1. cbn [re_match]. rewrite Hc.
    assert (E : (String.length (body ++ t)%string
                 <? String.length (String c (body ++ t)%string))%nat = true)
      by (apply Nat.ltb_lt; simpl; lia).
    rewrite E. rewrite (IH Hall n (Some c)); [reflexivity|simpl in Hn; lia|exact Hk].
Qed.

(** The star of a class fails when what follows fails wherever the
    star can stop. *)
Lemma rounds_class_none :
  forall (A : Type) (p : ascii -> bool) (k : option ascii -> string -> option A)
         body t,
    str_all p body = true -> stops p t ->
    (forall prev s, str_all p s = true -> k prev (s ++ t)%string = None) ->
    forall n prev,
      rounds (fun p' s' k' => re_match (Class p) p' s' k') k n prev (body ++ t)%string
      = None.
Proof.
  intros A p k body t Hall Ht Hk.
  assert (Hstop : forall prev k',
             re_match (Class p) prev t k' = (None : option A)).
  { intros prev k'. destruct Ht as [Ht|(c & t' & Ht & Hc)]; subst t; cbn [re_match].
    - reflexivity.
    - rewrite Hc. reflexivity. }
  set (star := fun p' s' k' => re_match (A := A) (Class p) p' s' k').
  induction body as [|c body IH]; intros n prev.
  - cbn [append].
    destruct n as [|n]; cbn [rounds]; [apply (Hk prev EmptyString eq_refl)|].
    unfold star at 1. rewrite Hstop. apply (Hk prev EmptyString eq_refl).
  - pose proof (Hk prev (String c body) Hall) as Hhere.
    cbn [str_all] in Hall. apply andb_prop in Hall as [Hc Hall].
    cbn [append] in *.
    destruct n as [|n]; cbn [rounds]; [exact Hhere|].
    unfold star at 1. cbn [re_match]. rewrite Hc.
    destruct (String.length (body ++ t)%string
              <? String.length (String c (body ++ t)%string))%nat.
    + rewrite (IH Hall n (Some c)). exact Hhere.
    + exact Hhere.
Qed.

(** The star of a class, with the position it ends at. *)
Lemma rounds_class_end :
  forall (p : ascii -> bool) body t,
    str_all p body = true -> stops p t ->
    forall n prev,
      (String.length body <= n)%nat ->
      rounds (fun p' s' k' => re_match (Class p) p' s' k')
             (fun a b => Some (a, b)) n prev (body ++ t)%string
      = Some (last_char prev body, t).
Proof.
  intros p body t Hall Ht n prev Hn.
  apply rounds_class_greedy; [exact Hall|exact Ht|exact Hn|reflexivity].
Qed.

(** [r+] for a class, on a run of the class that is not empty. *)
Lemma match_Plus_class :
  forall (p : ascii -> bool) c body t prev,
    p c = true -> str_all p body = true -> stops p t ->
    match_at (Plus (Class p)) prev (String c (body ++ t)%string)
    = Some (last_char (Some c) body, t).
Proof.
  intros p c body t prev Hc Hall Ht. unfold match_at, Plus. cbn [re_match].
  rewrite Hc. apply rounds_class_end; [exact Hall|exact Ht|].
  rewrite append_length. lia.
Qed.

(** One round of the scanner on a text whose first match is known. *)
Lemma scan_loop_round :
  forall fuel prev pre rest acc action prev',
    first_match _scanner prev (pre ++ rest)%string = Some (action, prev', rest) ->
    pre <> EmptyString ->
    scan_loop _scanner (S fuel) prev (pre ++ rest)%string acc =
    match action with
    | None => scan_loop _scanner fuel prev' rest acc
    | Some do => tok <- do pre ;; scan_loop _scanner fuel prev' rest (acc ++ [tok])
    end.
Proof.
  intros fuel prev pre rest acc action prev' H Hpre.
  rewrite scan_loop_S, H. cbv zeta.
  assert (L : (String.length (pre ++ rest)%string - String.length rest)%nat
              = String.length pre) by (rewrite append_length; lia).
  rewrite L, substring_append.
  destruct pre as [|c pre]; [congruence|]. reflexivity.
Qed.

(** ** Quoted strings *)

Lemma is_quote_cases : forall q, is_quote q = true -> q = dquote \/ q = squote.
Proof.
  intros q H. unfold is_quote in H. apply orb_prop in H as [H|H];
    apply Ascii.eqb_eq in H; auto.
Qed.

Lemma match_String_quoted :
  forall q body rest prev,
    is_quote q = true -> quotable q body = true ->
    match_at String_re prev (String q (body ++ String q rest)%string)
    = Some (Some q, rest).
Proof.
  intros q body rest prev Hq Hbody. unfold quotable in Hbody.
  assert (Hrun : forall prev',
             rounds (fun p' s' k' =>
                       re_match (Class (fun c => negb (Ascii.eqb c q || Ascii.eqb c newline)))
                                p' s' k')
                    (fun p' s' => re_match (Chr q) p' s' (fun a b => Some (a, b)))
                    (String.length (body ++ String q rest)%string) prev'
                    (body ++ String q rest)%string
             = Some (Some q, rest)).
  { intros prev'. apply rounds_class_greedy.
    - exact Hbody.
    - right. exists q, rest. split; [reflexivity|].
      rewrite Ascii.eqb_refl. reflexivity.
    - rewrite append_length. lia.
    - unfold Chr. cbn [re_match]. rewrite Ascii.eqb_refl. reflexivity. }
  unfold match_at, String_re.
  destruct (is_quote_cases q Hq); subst q.
  - cbn [re_match]. unfold Chr at 1. cbn [re_match].
    change (Ascii.eqb dquote dquote) with true. cbv iota.
    rewrite Hrun. reflexivity.
  - cbn [re_match]. unfold Chr at 1. cbn [re_match].
    change (Ascii.eqb dquote squote) with false. cbv iota.
    unfold Chr at 1. cbn [re_match].
    change (Ascii.eqb squote squote) with true. cbv iota.
    rewrite Hrun. reflexivity.
Qed.

Lemma rstrip_by_quoted :
  forall (p : ascii -> bool) q body,
    p q = true -> str_all (fun c => negb (p c)) body = true ->
    rstrip_by p (body ++ String q "")%string = body.
Proof.
  intros p q body Hq. induction body as [|c body IH]; intros Hall;
    cbn [append rstrip_by].
  - rewrite Hq. reflexivity.
  - cbn [str_all] in Hall. apply andb_prop in Hall as [Hc Hall].
    rewrite (IH Hall). apply negb_true_iff in Hc. rewrite Hc.
    destruct body; reflexivity.
Qed.

Lemma String_do_quoted :
  forall q body,
    is_quote q = true -> quotable q body = true ->
    String_do (quoted q body) = Ok (Token IdString (PStr body) None).
Proof.
  intros q body Hq Hbody. unfold quoted, String_do.
  assert (Hp : forall chars,
             chars = String q "" ->
             strip_chars chars (String q (body ++ String q "")%string) = body).
  { intros chars ->. unfold strip_chars, strip_by.
    assert (Hall : str_all (fun c => negb (one_of (String q "") c)) body = true).
    { unfold quotable in Hbody. clear Hq. induction body as [|c body IH];
        [reflexivity|].
      cbn [str_all] in *. apply andb_prop in Hbody as [Hc Hbody].
      rewrite (IH Hbody), andb_true_r. cbn [one_of]. rewrite orb_false_r.
      apply negb_true_iff in Hc. apply orb_false_elim in Hc as [Hc _].
      rewrite Hc. reflexivity. }
    assert (Hone : one_of (String q "") q = true)
      by (cbn [one_of]; rewrite Ascii.eqb_refl; reflexivity).
    cbn [lstrip_by]. rewrite Hone.
    destruct body as [|c body].
    - cbn [append lstrip_by]. rewrite Hone. reflexivity.
    - cbn [append lstrip_by].
      pose proof Hall as Hall'. cbn [str_all] in Hall'.
      apply andb_prop in Hall' as [Hc _]. apply negb_true_iff in Hc. rewrite Hc.
      apply (rstrip_by_quoted _ q (String c body) Hone Hall). }
  destruct (is_quote_cases q Hq); subst q.
  - change (Ascii.eqb dquote dquote) with true. cbv iota zeta.
    rewrite (Hp _ eq_refl). reflexivity.
  - change (Ascii.eqb squote dquote) with false. cbv iota zeta.
    rewrite (Hp _ eq_refl). reflexivity.
Qed.

Lemma quoted_append :
  forall q body rest,
    (quoted q body ++ rest)%string = String q (body ++ String q rest)%string.
Proof.
  intros q body rest. unfold quoted. cbn [append]. f_equal.
  induction body as [|c body IH]; cbn [append]; [reflexivity|]. rewrite IH. reflexivity.
Qed.

Lemma scan_loop_quoted :
  forall q body rest fuel prev acc,
    is_quote q = true -> quotable q body = true ->
    scan_loop _scanner (S fuel) prev (quoted q body ++ rest)%string acc
    = scan_loop _scanner fuel (Some q) rest
        (acc ++ [Token IdString (PStr body) None]).
Proof.
  intros q body rest fuel prev acc Hq Hbody.
  rewrite scan_loop_S, scanner_lexicon. cbn [first_match].
  rewrite quoted_append, (match_String_quoted q body rest prev Hq Hbody).
  rewrite <- quoted_append.
  assert (L : (String.length (quoted q body ++ rest)%string - String.length rest)%nat
              = String.length (quoted q body)).
  { rewrite append_length. lia. }
  cbv zeta. rewrite L.
  assert (Z : (String.length (quoted q body) =? 0)%nat = false) by reflexivity.
  rewrite Z. rewrite substring_append, (String_do_quoted q body Hq Hbody).
  reflexivity.
Qed.

(** Wherever the scanner comes to a quoted string, a text without that
    quote and without a line break between two double or two single
    quotes, it makes one String token of it that holds the text
    between the quotes verbatim, and goes on after the closing quote.
    So the quoted string alone scans to that one token. *)
Theorem scan_quoted_string :
  forall q body,
    is_quote q = true -> quotable q body = true ->
    (forall rest fuel prev acc,
        scan_loop _scanner (S fuel) prev (quoted q body ++ rest)%string acc
        = scan_loop _scanner fuel (Some q) rest
            (acc ++ [Token IdString (PStr body) None]))
    /\ scan _scanner (quoted q body)
       = Ok ([Token IdString (PStr body) None], ""%string).
Proof.
  intros q body Hq Hbody. split.
  - intros rest fuel prev acc. apply scan_loop_quoted; assumption.
  - rewrite scan_eq. rewrite <- (append_nil_r (quoted q body)) at 2.
    rewrite (scan_loop_quoted q body _ _ _ _ Hq Hbody).
    unfold quoted. cbn [String.length app].
    destruct (is_quote_cases q Hq); subst q; reflexivity.
Qed.

Lemma scan_quoted_string_witness :
  is_quote squote = true /\ quotable squote "x: [1] # y" = true
  /\ scan _scanner (quoted squote "x: [1] # y")
     = Ok ([Token IdString (PStr "x: [1] # y") None], ""%string).
Proof.
  split; [reflexivity|]. split; [reflexivity|].
  apply (proj2 (scan_quoted_string squote "x: [1] # y" eq_refl eq_refl)).
Defined.

Lemma match_String_unclosed :
  forall q line rest prev,
    is_quote q = true -> quotable q line = true ->
    (rest = EmptyString \/ exists t, rest = String newline t) ->
    match_at String_re prev (String q (line ++ rest)%string) = None.
Proof.
  intros q line rest prev Hq Hline Hrest. unfold quotable in Hline.
  assert (Hnl : q <> newline).
  { destruct (is_quote_cases q Hq); subst q; discriminate. }
  assert (Hrun : forall prev',
             rounds (fun p' s' k' =>
                       re_match (Class (fun c => negb (Ascii.eqb c q || Ascii.eqb c newline)))
                                p' s' k')
                    (fun p' s' => re_match (Chr q) p' s' (fun a b => Some (a, b)))
                    (String.length (line ++ rest)%string) prev'
                    (line ++ rest)%string
             = None).
  { intros prev'. apply rounds_class_none.
    - exact Hline.
    - destruct Hrest as [Hr|(t & Hr)]; [left; exact Hr|].
      right. exists newline, t. split; [exact Hr|].
      rewrite Ascii.eqb_refl, orb_true_r. reflexivity.
    - intros p' s Hs. unfold Chr. destruct s as [|c s]; cbn [append re_match].
      + destruct Hrest as [Hr|(t & Hr)]; subst rest; [reflexivity|].
        apply Ascii.eqb_neq in Hnl. rewrite Hnl. reflexivity.
      + cbn [str_all] in Hs. apply andb_prop in Hs as [Hc _].
        apply negb_true_iff in Hc. apply orb_false_elim in Hc as [Hc _].
        rewrite Ascii.eqb_sym, Hc. reflexivity. }
  unfold match_at, String_re.
  destruct (is_quote_cases q Hq); subst q.
  - cbn [re_match]. unfold Chr at 1. cbn [re_match].
    change (Ascii.eqb dquote dquote) with true. cbv iota.
    rewrite Hrun. unfold Chr at 1. cbn [re_match]. reflexivity.
  - cbn [re_match]. unfold Chr at 1. cbn [re_match].
    change (Ascii.eqb dquote squote) with false. cbv iota.
    unfold Chr at 1. cbn [re_match].
    change (Ascii.eqb squote squote) with true. cbv iota.
    rewrite Hrun. reflexivity.
Qed.

Lemma rest_of_line_quoted :
  forall q line rest,
    is_quote q = true -> quotable q line = true ->
    (rest = EmptyString \/ exists t, rest = String newline t) ->
    rest_of_line (String q (line ++ rest)%string) = String q line.
Proof.
  intros q line rest Hq Hline Hrest.
  assert (Hd : dot q = true).
  { destruct (is_quote_cases q Hq); subst q; reflexivity. }
  cbn [rest_of_line]. rewrite Hd. f_equal.
  unfold quotable in Hline. induction line as [|c line IH]; cbn [append rest_of_line].
  - destruct Hrest as [Hr|(t & Hr)]; subst rest; reflexivity.
  - cbn [str_all] in Hline. apply andb_prop in Hline as [Hc Hline].
    apply negb_true_iff in Hc. apply orb_false_elim in Hc as [_ Hc].
    unfold dot. rewrite Hc. cbn [negb]. rewrite (IH Hline). reflexivity.
Qed.

Lemma unmatched_unclosed :
  forall q line rest prev,
    is_quote q = true -> quotable q line = true ->
    (rest = EmptyString \/ exists t, rest = String newline t) ->
    unmatched prev (String q (line ++ rest)%string) = true.
Proof.
  intros q line rest prev Hq Hline Hrest.
  unfold unmatched. rewrite scanner_lexicon.
  cbn [patterns map fst removelast forallb].
  rewrite (match_String_unclosed q line rest prev Hq Hline Hrest).
  destruct (is_quote_cases q Hq); subst q;
    (destruct prev as [c|]; [destruct (Ascii.eqb c newline) eqn:E|]);
    unfold match_at, Indent_re; cbn [re_match]; try rewrite E; reflexivity.
Qed.

(** Wherever the scanner comes to a quote that is not closed on its
    line, it raises [TokenError] with the text from the quote to the
    end of the line. *)
Theorem scan_unclosed_quote :
  forall q line rest fuel prev acc,
    is_quote q = true -> quotable q line = true ->
    starts_with dot rest = false ->
    scan_loop _scanner (S fuel) prev (String q (line ++ rest)%string) acc
    = Raise (TokenError (String q line)).
Proof.
  intros q line rest fuel prev acc Hq Hline Hdot.
  assert (Hrest : rest = EmptyString \/ exists t, rest = String newline t).
  { destruct rest as [|c t]; [left; reflexivity|]. right. exists t.
    cbn [starts_with] in Hdot. unfold dot in Hdot.
    apply negb_false_iff in Hdot. apply Ascii.eqb_eq in Hdot. subst c. reflexivity. }
  rewrite <- (rest_of_line_quoted q line rest Hq Hline Hrest).
  apply scan_loop_unmatched.
  - apply unmatched_unclosed; assumption.
  - discriminate.
Qed.

Lemma scan_unclosed_quote_witness :
  is_quote dquote = true /\ quotable dquote "abc, d" = true
  /\ starts_with dot (String newline "e: 1") = false
  /\ scan_loop _scanner 1 None
       (String dquote ("abc, d" ++ String newline "e: 1")%string) []
     = Raise (TokenError (String dquote "abc, d")).
Proof.
  split; [reflexivity|]. split; [reflexivity|]. split; [reflexivity|].
  apply (scan_unclosed_quote dquote "abc, d" (String newline "e: 1") 0 None []
           eq_refl eq_refl eq_refl).
Defined.

Lemma rstrip_by_keep :
  forall (p : ascii -> bool) s c,
    p c = false -> rstrip_by p (s ++ String c "")%string = (s ++ String c "")%string.
Proof.
  intros p s c Hc. induction s as [|d s IH]; cbn [append rstrip_by].
  - rewrite Hc. reflexivity.
  - rewrite IH. destruct s; reflexivity.
Qed.

(** ** Line numbers do not matter to the value *)

Lemma alike_refl : forall a, alike a a.
Proof. intros a. split; reflexivity. Qed.

Lemma alike_all_refl : forall l, Forall2 alike l l.
Proof. induction l; constructor; [apply alike_refl|assumption]. Qed.

Lemma dedent_while_alike :
  forall stack curr p1 p2 stack' out,
    dedent_while stack curr p1 = Ok (stack', out) ->
    exists out2,
      dedent_while stack curr p2 = Ok (stack', out2) /\ Forall2 alike out out2.
Proof.
  induction stack as [|top below IH]; intros curr p1 p2 stack' out H; [discriminate H|].
  rewrite dedent_while_cons in H. rewrite dedent_while_cons.
  destruct (top >? curr)%Z.
  - bind_ok H as st o E. inversion H; subst.
    destruct (IH _ _ p2 _ _ E) as (o2 & E2 & Ha).
    rewrite E2. cbn [bind]. eexists. split; [reflexivity|].
    constructor; [split; reflexivity|]. constructor; [split; reflexivity|exact Ha].
  - inversion H; subst. exists []. split; [reflexivity|constructor].
Qed.

Lemma tokenize_step_alike :
  forall st1 st2 tok a o1,
    same_indentation st1 st2 ->
    tokenize_step st1 tok = Ok (a, o1) ->
    exists b o2,
      tokenize_step st2 tok = Ok (b, o2)
      /\ same_indentation a b /\ Forall2 alike o1 o2.
Proof.
  intros [p1 c1 s1 n1] [p2 c2 s2 n2] tok a o1 (Hc & Hs & Hn) H.
  cbn [curr_indent indent_stack newline_last] in Hc, Hs, Hn. subst c2 s2 n2.
  unfold tokenize_step in *.
  cbn [position curr_indent indent_stack newline_last] in *.
  match type of H with
  | bind ?x _ = _ => destruct x as [[ic cu]| |]; cbn [bind] in *; try discriminate H
  end.
  cbn beta iota in *.
  destruct (id_eqb (id tok) IdNewLine).
  - destruct (int_value tok) as [l| |]; cbn [bind] in *; try discriminate H.
    cbn beta iota in *.
    destruct (ic <? 0)%Z.
    + bind_ok H as st d E. destruct (dedent_while_alike _ _ _ (p2 + l)%Z _ _ E)
        as (d2 & E2 & Ha).
      rewrite E2. cbn [bind]. cbn beta iota.
      destruct (ic >? 0)%Z; inversion H; subst; eexists; eexists;
        (split; [reflexivity|]); (split; [repeat split|]);
        apply Forall2_app; try exact Ha; apply alike_all_refl.
    + cbn [bind] in *. cbn beta iota in *.
      destruct (ic >? 0)%Z; inversion H; subst; eexists; eexists;
        (split; [reflexivity|]); (split; [repeat split|]);
        apply alike_all_refl.
  - cbn [bind] in *. cbn beta iota in *.
    assert (Hone : forall x : bool, Forall2 alike
                     (if x then [Token (id tok) (value tok) (Some p1)] else [])
                     (if x then [Token (id tok) (value tok) (Some p2)] else [])).
    { intros []; repeat constructor. }
    destruct (ic <? 0)%Z.
    + bind_ok H as st d E. destruct (dedent_while_alike _ _ _ p2 _ _ E)
        as (d2 & E2 & Ha).
      rewrite E2. cbn [bind]. cbn beta iota.
      destruct (ic >? 0)%Z; inversion H; subst; eexists; eexists;
        (split; [reflexivity|]); (split; [repeat split|]);
        apply Forall2_app; try exact Ha;
        try (apply (Forall2_app (l1 := [_]) (l1' := [_])); [repeat constructor|]);
        cbn [id]; apply Hone.
    + cbn [bind] in *. cbn beta iota in *.
      destruct (ic >? 0)%Z; inversion H; subst; eexists; eexists;
        (split; [reflexivity|]); (split; [repeat split|]);
        try (apply (Forall2_app (l1 := [_]) (l1' := [_])); [repeat constructor|]);
        cbn [id app]; apply Hone.
Qed.

Lemma tokenize_for_alike :
  forall tokens st1 st2 a o1,
    same_indentation st1 st2 ->
    tokenize_for st1 tokens = Ok (a, o1) ->
    exists b o2,
      tokenize_for st2 tokens = Ok (b, o2) /\ Forall2 alike o1 o2.
Proof.
  induction tokens as [|tok tokens IH]; intros st1 st2 a o1 Hs H; cbn [tokenize_for] in *.
  - inversion H; subst. exists st2, []. split; [reflexivity|constructor].
  - bind_ok H as st o E.
    destruct (tokenize_step_alike _ st2 _ _ _ Hs E) as (b & o2 & E2 & Hs2 & Ha).
    rewrite E2. cbn [bind]. cbn beta iota.
    bind_ok H as st' o' E'.
    destruct (IH _ b _ _ Hs2 E') as (b' & o2' & E2' & Ha').
    rewrite E2'. cbn [bind]. cbn beta iota. inversion H; subst.
    eexists. eexists. split; [reflexivity|].
    apply Forall2_app; assumption.
Qed.

(** Takes a list of tokens alike to a known list apart. *)
Ltac split_alike :=
  repeat match goal with
         | H : Forall2 alike (_ ++ _) _ |- _ =>
             let l1 := fresh "l" in let l2 := fresh "l" in
             let H1 := fresh "Ha" in let H2 := fresh "Ha" in
             apply Forall2_app_inv_l in H as (l1 & l2 & H1 & H2 & ->)
         | H : Forall2 alike (_ :: _) _ |- _ =>
             let x := fresh "t" in let l := fresh "l" in
             let H1 := fresh "Ha" in let H2 := fresh "Ha" in
             inversion H as [|? x ? l H1 H2]; subst; clear H
         | H : Forall2 alike [] _ |- _ => inversion H; subst; clear H
         end.

Ltac alike_ids :=
  repeat match goal with
         | H : alike _ _ |- _ =>
             let H1 := fresh "Hid" in let H2 := fresh "Hval" in
             destruct H as [H1 H2]
         end.

Ltac alike_done :=
  alike_ids; try congruence;
  try match goal with
      | H : _ \/ _ |- _ \/ _ => destruct H; [left|right]; congruence
      end.

Lemma grammar_alike :
  (forall self toks v,
      value_of self toks v ->
      forall self' toks',
        alike self self' -> Forall2 alike toks toks' -> value_of self' toks' v)
  /\ (forall tok toks vs,
      elements tok toks vs ->
      forall tok' toks',
        alike tok tok' -> Forall2 alike toks toks' -> elements tok' toks' vs)
  /\ (forall sep closer tok toks kvs,
      pairs sep closer tok toks kvs ->
      forall tok' toks',
        alike tok tok' -> Forall2 alike toks toks' -> pairs sep closer tok' toks' kvs)
  /\ (forall tok toks vs,
      block_items tok toks vs ->
      forall tok' toks',
        alike tok tok' -> Forall2 alike toks toks' -> block_items tok' toks' vs)
  /\ (forall closer tok toks kvs,
      line_entries closer tok toks kvs ->
      forall tok' toks',
        alike tok tok' -> Forall2 alike toks toks' ->
        line_entries closer tok' toks' kvs).
Proof.
  apply grammar_ind; intros; split_alike.
  - alike_ids. rewrite Hval. apply value_scalar. congruence.
  - apply value_round; eauto; alike_done.
  - apply value_square; eauto; alike_done.
  - apply value_brace; eauto; alike_done.
  - apply value_block_list; eauto; alike_done.
  - apply value_block_dict; eauto; alike_done.
  - apply elements_close; alike_done.
  - eapply elements_last; eauto; alike_done.
  - eapply elements_comma; eauto; alike_done.
  - apply pairs_close; alike_done.
  - eapply pairs_last; eauto; alike_done.
  - eapply pairs_comma; eauto; alike_done.
  - apply block_items_close; alike_done.
  - eapply block_items_item; eauto; alike_done.
  - apply line_entries_close; alike_done.
  - eapply line_entries_line; eauto; alike_done.
  - eapply line_entries_below; eauto; alike_done.
Qed.

Lemma alike_newlines :
  forall l l',
    Forall2 alike l l' -> Forall (fun t => id t = IdNewLine) l ->
    Forall (fun t => id t = IdNewLine) l'.
Proof.
  induction 1 as [|a b l l' [Hab _] _ IH]; intros Hall; constructor;
    inversion Hall; subst; [congruence|auto].
Qed.

Lemma parse_tokens_alike :
  forall tokens tokens' v,
    Forall2 alike tokens tokens' ->
    parse_tokens tokens = Ok v -> parse_tokens tokens' = Ok v.
Proof.
  intros tokens tokens' v Ha H.
  apply parse_tokens_ok in H
    as (skipped & tok & toks & rest & kvs & Ht & Hall & Hne & Hp & Hv).
  subst tokens v. split_alike.
  match goal with
  | Hs : Forall2 alike skipped ?s', Ht : alike tok ?t', Hk : Forall2 alike toks ?k'
    |- _ =>
      apply parse_tokens_entries;
      [ apply (alike_newlines _ _ Hs Hall)
      | destruct Ht; congruence
      | apply (proj2 (proj2 (proj2 (proj2 grammar_alike))) _ _ _ _ Hp _ _ Ht Hk) ]
  end.
Qed.

(** The value [parse] returns depends on the stripped input only: two
    inputs that differ in the white space and the line breaks around
    the document decode to the same value, or neither decodes. The line
    numbers of the tokens, which differ, and with them what
    [lstripped] returns, do not matter to the value. *)
Theorem parse_stripped :
  forall s1 s2 v,
    strip s1 = strip s2 ->
    (parse s1 = Ok v <-> parse s2 = Ok v).
Proof.
  assert (G : forall s1 s2 v,
             strip s1 = strip s2 -> parse s1 = Ok v -> parse s2 = Ok v).
  { intros s1 s2 v Hs H. rewrite parse_eq, tokenize_eq in *. rewrite <- Hs.
    destruct (scan _scanner (strip s1)) as [[tokens remainder]| |];
      cbn [bind] in *; try discriminate H.
    cbn beta iota in *.
    destruct (tokenize_for (tokenize_init (len (lstripped s1) + 1)) tokens)
      as [[st out]| |] eqn:E; cbn [bind] in H; try discriminate H.
    cbn beta iota in H.
    destruct (tokenize_for_alike tokens
                (tokenize_init (len (lstripped s1) + 1))
                (tokenize_init (len (lstripped s2) + 1)) _ _
                (conj eq_refl (conj eq_refl eq_refl)) E) as (b & out2 & E2 & Ha).
    rewrite E2. cbn [bind]. cbn beta iota.
    apply (parse_tokens_alike (out ++ [End]) (out2 ++ [End]) v); [|exact H].
    apply Forall2_app; [exact Ha|]. repeat constructor. }
  intros s1 s2 v Hs. split; apply G; [exact Hs|symmetry; exact Hs].
Qed.

Lemma parse_stripped_witness :
  strip (lines [""; "   "; "a: [1, 2]"; "# end"; "  "; ""])
  = strip (lines ["a: [1, 2]"; "# end"])
  /\ parse (lines [""; "   "; "a: [1, 2]"; "# end"; "  "; ""])
     = Ok (POrderedDict [(PStr "a", PList [PInt 1; PInt 2])]).
Proof.
  split; [reflexivity|].
  apply (proj2 (parse_stripped (lines [""; "   "; "a: [1, 2]"; "# end"; "  "; ""])
                  (lines ["a: [1, 2]"; "# end"])
                  (POrderedDict [(PStr "a", PList [PInt 1; PInt 2])]) eq_refl)).
  vm_compute. reflexivity.
Defined.

(** ** Comments, blanks, line breaks and punctuation *)

(** *** Comments *)

Lemma match_Comment :
  forall line rest prev,
    str_all dot line = true -> stops dot rest ->
    match_at Comment_re prev (String "#" (line ++ rest)%string)
    = Some (last_char (Some "#"%char) line, rest).
Proof.
  intros line rest prev Hline Hrest. unfold match_at, Comment_re, Chr.
  cbn [re_match]. change (Ascii.eqb "#" "#") with true. cbv iota.
  apply rounds_class_end; [exact Hline|exact Hrest|].
  rewrite append_length. lia.
Qed.

Lemma first_match_comment :
  forall line rest prev,
    str_all dot line = true -> stops dot rest ->
    first_match _scanner prev (String "#" line ++ rest)%string
    = Some (None, last_char (Some "#"%char) line, rest).
Proof.
  intros line rest prev Hline Hrest.
  rewrite scanner_lexicon. cbn [append first_match].
  change (match_at String_re prev (String "#" (line ++ rest)%string)) with
    (@None (option ascii * string)).
  change (match_at Literal_re prev (String "#" (line ++ rest)%string)) with
    (@None (option ascii * string)).
  cbv iota.
  repeat match goal with
         | |- context [match_at (Chr ?c) prev (String "#" ?s)] =>
             change (match_at (Chr c) prev (String "#" s)) with
               (@None (option ascii * string)); cbv iota
         end.
  rewrite (match_Comment line rest prev Hline Hrest). reflexivity.
Qed.

(** Wherever the scanner comes to a [#] that is not within a Literal or
    a quoted string, it drops the text from there to the end of the
    line: a comment makes no token. *)
Theorem scan_comment :
  forall line rest fuel prev acc,
    str_all dot line = true -> starts_with dot rest = false ->
    scan_loop _scanner (S fuel) prev (String "#" (line ++ rest)%string) acc
    = scan_loop _scanner fuel (last_char (Some "#"%char) line) rest acc.
Proof.
  intros line rest fuel prev acc Hline Hrest. apply stops_starts in Hrest.
  change (String "#" (line ++ rest)%string) with (String "#" line ++ rest)%string.
  rewrite (scan_loop_round fuel prev (String "#" line) rest acc _ _
             (first_match_comment line rest prev Hline Hrest)); [|discriminate].
  reflexivity.
Qed.

Lemma scan_comment_witness :
  str_all dot " a: [1, 2" = true /\ starts_with dot (String newline "b: 1") = false
  /\ scan_loop _scanner 9 (Some " "%char)
       (String "#" (" a: [1, 2" ++ String newline "b: 1")%string) []
     = scan_loop _scanner 8 (Some "2"%char) (String newline "b: 1") [].
Proof.
  split; [reflexivity|]. split; [reflexivity|].
  apply (scan_comment " a: [1, 2" (String newline "b: 1") 8 (Some " "%char) []
           eq_refl eq_refl).
Defined.

(** *** Blanks *)

Lemma blank_cases :
  forall b, blank b = true -> b = ascii_of_nat 9 \/ b = " "%char.
Proof.
  intros [[] [] [] [] [] [] [] []] H; vm_compute in H; try discriminate H;
    [left|right]; reflexivity.
Qed.

Lemma first_match_blanks :
  forall b bs rest prev,
    blank b = true -> str_all blank bs = true -> stops blank rest ->
    first_match _scanner prev (String b bs ++ rest)%string
    = Some (if at_line_start prev then Some Indent_do else None,
            last_char (Some b) bs, rest).
Proof.
  intros b bs rest prev Hb Hbs Hrest.
  pose proof (match_Plus_class blank b bs rest prev Hb Hbs Hrest) as Hplus.
  rewrite scanner_lexicon. cbn [append first_match].
  assert (Hearly : forall r,
             In r [String_re; Literal_re; Chr ","; Chr ":"; Chr "="; Chr "-";
                   Chr "("; Chr ")"; Chr "["; Chr "]"; Chr "{"; Chr "}"; Comment_re;
                   NewLine_re] ->
             match_at r prev (String b (bs ++ rest)%string) = None).
  { intros r Hr. destruct (blank_cases b Hb); subst b; cbn [In] in Hr;
      repeat (destruct Hr as [<-|Hr]; [reflexivity|]); contradiction. }
  repeat (rewrite Hearly by (cbn [In]; tauto)).
  unfold match_at at 1, Indent_re. cbn [re_match].
  fold (match_at (Plus (Class blank)) prev (String b (bs ++ rest)%string)).
  unfold at_line_start. destruct prev as [c|].
  - destruct (Ascii.eqb c newline); rewrite ?Hplus; [reflexivity|].
    rewrite Hearly by (cbn [In]; tauto).
    unfold WhiteSpace_re. rewrite Hplus. reflexivity.
  - rewrite Hplus. reflexivity.
Qed.

(** A run of blanks (spaces and tabs) makes an Indent token that
    carries the length of the run when it stands at the start of a
    line, and no token anywhere else. *)
Theorem scan_blanks :
  forall b bs rest fuel prev acc,
    blank b = true -> str_all blank bs = true -> starts_with blank rest = false ->
    scan_loop _scanner (S fuel) prev (String b (bs ++ rest)%string) acc
    = if at_line_start prev
      then scan_loop _scanner fuel (last_char (Some b) bs) rest
             (acc ++ [Token IdIndent (PInt (len (String b bs))) None])
      else scan_loop _scanner fuel (last_char (Some b) bs) rest acc.
Proof.
  intros b bs rest fuel prev acc Hb Hbs Hrest. apply stops_starts in Hrest.
  change (String b (bs ++ rest)%string) with (String b bs ++ rest)%string.
  rewrite (scan_loop_round fuel prev (String b bs) rest acc _ _
             (first_match_blanks b bs rest prev Hb Hbs Hrest)); [|discriminate].
  destruct (at_line_start prev); reflexivity.
Qed.

Lemma scan_blanks_witness :
  blank " " = true /\ str_all blank "   " = true /\ starts_with blank "- 1" = false
  /\ scan_loop _scanner 5 (Some newline) "    - 1" []
     = scan_loop _scanner 4 (Some " "%char) "- 1" [Token IdIndent (PInt 4) None]
  /\ scan_loop _scanner 5 (Some ":"%char) "    - 1" []
     = scan_loop _scanner 4 (Some " "%char) "- 1" [].
Proof.
  split; [reflexivity|]. split; [reflexivity|]. split; [reflexivity|]. split.
  - apply (scan_blanks " " "   " "- 1" 4 (Some newline) [] eq_refl eq_refl eq_refl).
  - apply (scan_blanks " " "   " "- 1" 4 (Some ":"%char) [] eq_refl eq_refl eq_refl).
Defined.

(** *** Line breaks *)

Lemma first_match_line_breaks :
  forall bs rest prev,
    str_all (Ascii.eqb newline) bs = true -> stops (Ascii.eqb newline) rest ->
    first_match _scanner prev (String newline bs ++ rest)%string
    = Some (Some NewLine_do, Some newline, rest).
Proof.
  intros bs rest prev Hbs Hrest.
  pose proof (match_Plus_class (Ascii.eqb newline) newline bs rest prev
                eq_refl Hbs Hrest) as Hplus.
  assert (Hlast : last_char (Some newline) bs = Some newline).
  { clear Hplus. induction bs as [|d bs IH]; cbn [last_char]; [reflexivity|].
    cbn [str_all] in Hbs. apply andb_prop in Hbs as [Hd Hbs].
    apply Ascii.eqb_eq in Hd. rewrite <- Hd. apply (IH Hbs). }
  rewrite Hlast in Hplus.
  rewrite scanner_lexicon. cbn [append first_match].
  assert (Hearly : forall r,
             In r [String_re; Literal_re; Chr ","; Chr ":"; Chr "="; Chr "-";
                   Chr "("; Chr ")"; Chr "["; Chr "]"; Chr "{"; Chr "}"; Comment_re] ->
             match_at r prev (String newline (bs ++ rest)%string) = None).
  { intros r Hr. cbn [In] in Hr.
    repeat (destruct Hr as [<-|Hr]; [reflexivity|]); contradiction. }
  repeat (rewrite Hearly by (cbn [In]; tauto)).
  assert (Hindent : match_at Indent_re prev (String newline (bs ++ rest)%string)
                    = None).
  { unfold match_at, Indent_re, Plus. cbn [re_match].
    destruct prev as [c|]; [destruct (Ascii.eqb c newline)|]; reflexivity. }
  rewrite Hindent. unfold NewLine_re, Chr. rewrite Hplus. reflexivity.
Qed.

(** A run of line breaks makes one NewLine token that carries the
    number of the line breaks. *)
Theorem scan_line_breaks :
  forall bs rest fuel prev acc,
    str_all (Ascii.eqb newline) bs = true ->
    starts_with (Ascii.eqb newline) rest = false ->
    scan_loop _scanner (S fuel) prev (String newline (bs ++ rest)%string) acc
    = scan_loop _scanner fuel (Some newline) rest
        (acc ++ [Token IdNewLine (PInt (len (String newline bs))) None]).
Proof.
  intros bs rest fuel prev acc Hbs Hrest. apply stops_starts in Hrest.
  change (String newline (bs ++ rest)%string) with (String newline bs ++ rest)%string.
  rewrite (scan_loop_round fuel prev (String newline bs) rest acc _ _
             (first_match_line_breaks bs rest prev Hbs Hrest)); [|discriminate].
  reflexivity.
Qed.

Lemma scan_line_breaks_witness :
  str_all (Ascii.eqb newline) (String newline (String newline "")) = true
  /\ starts_with (Ascii.eqb newline) "b: 1" = false
  /\ scan_loop _scanner 5 (Some "1"%char)
       (String newline (String newline (String newline "") ++ "b: 1")%string) []
     = scan_loop _scanner 4 (Some newline) "b: 1" [Token IdNewLine (PInt 3) None].
Proof.
  split; [reflexivity|]. split; [reflexivity|].
  apply (scan_line_breaks (String newline (String newline "")) "b: 1" 4
           (Some "1"%char) [] eq_refl eq_refl).
Defined.

(** *** Punctuation *)

Lemma first_match_punctuation :
  forall c cls rest prev,
    In (c, cls) punctuation
    \/ (In (c, cls) colon_hyphen /\ stops literal_second rest) ->
    first_match _scanner prev (String c "" ++ rest)%string
    = Some (Some (Symbol_do cls), Some c, rest).
Proof.
  intros c cls rest prev H.
  rewrite scanner_lexicon. destruct H as [H|[H Hstop]].
  - unfold punctuation in H. cbn [In] in H.
    repeat (destruct H as [H|H]; [inversion H; subst; reflexivity|]).
    contradiction.
  - unfold colon_hyphen in H. cbn [In] in H.
    assert (Hlit : forall x, x = ":"%char \/ x = "-"%char ->
              match_at Literal_re prev (String x rest) = None).
    { intros x Hx. unfold match_at, Literal_re. cbn [re_match].
      destruct Hstop as [Hr|(d & t & Hr & Hd)]; subst rest;
        destruct Hx; subst x; cbn [re_match]; rewrite ?Hd; reflexivity. }
    repeat (destruct H as [H|H];
            [inversion H; subst; cbn [append first_match];
             rewrite Hlit by tauto; reflexivity|]).
    contradiction.
Qed.

(** A comma, an equal sign or a bracket makes the token of its class
    wherever the scanner comes to it; a colon or a hyphen does when the
    text ends after it or goes on with a character that cannot follow
    it in a Literal (white space, a quote, a comma, a closing
    bracket). *)
Theorem scan_punctuation :
  forall c cls rest fuel prev acc,
    In (c, cls) punctuation
    \/ (In (c, cls) colon_hyphen /\ starts_with literal_second rest = false) ->
    scan_loop _scanner (S fuel) prev (String c rest) acc
    = scan_loop _scanner fuel (Some c) rest (acc ++ [symbol cls]).
Proof.
  intros c cls rest fuel prev acc H.
  assert (H' : In (c, cls) punctuation
               \/ (In (c, cls) colon_hyphen /\ stops literal_second rest)).
  { destruct H as [H|[H Hstop]]; [left; exact H|right].
    split; [exact H|apply stops_starts; exact Hstop]. }
  change (String c rest) with (String c "" ++ rest)%string.
  rewrite (scan_loop_round fuel prev (String c "") rest acc _ _
             (first_match_punctuation c cls rest prev H')); [|discriminate].
  reflexivity.
Qed.

Lemma scan_punctuation_witness :
  In ("["%char, IdLeftSquare) punctuation
  /\ scan_loop _scanner 3 (Some " "%char) "[1" []
     = scan_loop _scanner 2 (Some "["%char) "1" [symbol IdLeftSquare]
  /\ In (":"%char, IdColon) colon_hyphen /\ starts_with literal_second " 1" = false
  /\ scan_loop _scanner 3 (Some "a"%char) ": 1" []
     = scan_loop _scanner 2 (Some ":"%char) " 1" [symbol IdColon].
Proof.
  assert (H1 : In ("["%char, IdLeftSquare) punctuation) by (cbn; tauto).
  assert (H2 : In (":"%char, IdColon) colon_hyphen) by (cbn; tauto).
  split; [exact H1|]. split.
  - apply (scan_punctuation "[" IdLeftSquare "1" 2 (Some " "%char) [] (or_introl H1)).
  - split; [exact H2|]. split; [reflexivity|].
    apply (scan_punctuation ":" IdColon " 1" 2 (Some "a"%char) []
             (or_intror (conj H2 eq_refl))).
Defined.

(** ** Literals *)

Lemma after_blank_not_blank :
  forall c, literal_after_blank c = true -> blank c = false.
Proof.
  intros c H. destruct (blank c) eqn:E; [|reflexivity].
  destruct (blank_cases c E); subst c; discriminate H.
Qed.

(** Where a Literal stops, none of the alternatives matches. *)
Lemma Literal_more_stop :
  forall (A : Type) rest prev (k : option ascii -> string -> option A),
    literal_stop rest = true -> re_match Literal_more prev rest k = None.
Proof.
  intros A rest prev k H. unfold literal_stop in H.
  apply andb_prop in H as [H H3]. apply andb_prop in H as [H1 H2].
  apply negb_true_iff in H1, H2, H3.
  destruct rest as [|d t]; [reflexivity|].
  cbn [starts_with] in H1, H2, H3.
  unfold Literal_more, Plus, Chr. cbn [re_match]. rewrite H1.
  destruct (Ascii.eqb ":" d) eqn:Ed.
  - cbn [andb] in H2. apply Ascii.eqb_eq in Ed. subst d.
    change (blank ":") with false.
    destruct t as [|e t]; [reflexivity|].
    cbn [colon_goes_on] in H2. apply negb_false_iff in H2.
    cbn [re_match]. rewrite H2. reflexivity.
  - destruct (blank d) eqn:Eb; [|reflexivity].
    cbn [andb] in H3. cbn [lstrip_by] in H3. rewrite Eb in H3.
    destruct (run_split blank t) as (bs & t' & Ht & Hbs & Ht').
    subst t. rewrite (lstrip_by_run _ _ _ Hbs Ht') in H3.
    apply rounds_class_none; [exact Hbs|apply stops_starts; exact Ht'|].
    intros p s Hs. destruct s as [|c s]; cbn [append re_match].
    + destruct t' as [|c t']; [reflexivity|]. cbn [starts_with] in H3.
      rewrite H3. reflexivity.
    + cbn [str_all] in Hs. apply andb_prop in Hs as [Hc _].
      destruct (literal_after_blank c) eqn:Ea; [|reflexivity].
      apply after_blank_not_blank in Ea. congruence.
Qed.

Lemma blank_not_inner : forall b, blank b = true -> literal_inner b = false.
Proof. intros b H. destruct (blank_cases b H); subst b; reflexivity. Qed.

Lemma blank_not_colon : forall b, blank b = true -> Ascii.eqb ":" b = false.
Proof. intros b H. destruct (blank_cases b H); subst b; reflexivity. Qed.

(** The star of the pattern of [Literal] takes a tail and stops. *)
Lemma rounds_literal_tail :
  forall rest body,
    literal_tail rest body ->
    forall n prev,
      (String.length body <= n)%nat ->
      rounds (fun p s k => re_match Literal_more p s k) (fun a b => Some (a, b))
             n prev (body ++ rest)%string
      = Some (last_char prev body, rest).
Proof.
  intros rest body H.
  set (more := fun p s k =>
                 re_match (A := option ascii * string) Literal_more p s k).
  induction H as [Hstop|c cs body Hc Hcs Hmax _ IH|body Hgo _ IH
                  |b bs c body Hb Hbs Hc _ IH]; intros n prev Hn.
  - cbn [append last_char].
    destruct n as [|n]; cbn [rounds]; [reflexivity|].
    unfold more at 1. rewrite (Literal_more_stop _ rest prev _ Hstop). reflexivity.
  - destruct n as [|n]; [simpl in Hn; lia|].
    cbn [String.length] in Hn. rewrite append_length in Hn.
    cbn [append]. rewrite append_assoc. cbn [rounds].
    unfold more at 1. unfold Literal_more at 1, Plus at 1. cbn [re_match].
    rewrite Hc.
    rewrite (rounds_class_greedy _ literal_inner _ cs (body ++ rest)%string
               (last_char (last_char (Some c) cs) body, rest) Hcs
               (stops_starts _ _ Hmax)).
    + cbn [last_char]. rewrite last_char_append. reflexivity.
    + rewrite append_length. lia.
    + assert (E : (String.length (body ++ rest)%string
                   <? String.length (String c (cs ++ body ++ rest)%string))%nat = true).
      { apply Nat.ltb_lt. cbn [String.length]. rewrite !append_length. lia. }
      rewrite E. apply IH. lia.
  - destruct n as [|n]; [simpl in Hn; lia|].
    cbn [String.length] in Hn. cbn [append rounds].
    unfold more at 1. unfold Literal_more at 1, Plus at 1, Chr at 1. cbn [re_match].
    change (literal_inner ":") with false. cbv iota.
    change (Ascii.eqb ":" ":") with true. cbv iota.
    assert (Hahead : re_match (Alt (Class literal_colon_stop) Eol) (Some ":"%char)
                       (body ++ rest)%string (fun _ _ => Some tt) = None).
    { destruct (body ++ rest)%string as [|e t]; [discriminate Hgo|].
      cbn [colon_goes_on] in Hgo. apply negb_true_iff in Hgo.
      cbn [re_match]. rewrite Hgo.
      destruct (Ascii.eqb e newline) eqn:E; [|reflexivity].
      apply Ascii.eqb_eq in E. subst e. discriminate Hgo. }
    cbn [re_match] in Hahead. rewrite Hahead.
    assert (E : (String.length (body ++ rest)%string
                 <? String.length (String ":" (body ++ rest)%string))%nat = true).
    { apply Nat.ltb_lt. cbn [String.length]. lia. }
    rewrite E. cbn [last_char]. rewrite (IH n (Some ":"%char)); [reflexivity|lia].
  - destruct n as [|n]; [simpl in Hn; lia|].
    cbn [String.length] in Hn. rewrite append_length in Hn. cbn [String.length] in Hn.
    cbn [append]. rewrite append_assoc. cbn [append rounds].
    unfold more at 1. unfold Literal_more at 1, Plus, Chr at 1. cbn [re_match].
    rewrite (blank_not_inner b Hb), (blank_not_colon b Hb), Hb.
    rewrite (rounds_class_greedy _ blank _ bs (String c (body ++ rest))%string
               (last_char (Some c) body, rest) Hbs).
    + cbn [last_char]. rewrite last_char_append. reflexivity.
    + right. exists c, (body ++ rest)%string. split; [reflexivity|].
      apply after_blank_not_blank. exact Hc.
    + rewrite append_length. cbn [String.length]. lia.
    + cbn [re_match]. rewrite Hc.
      assert (E : (String.length (body ++ rest)%string
                   <? String.length
                        (String b (bs ++ String c (body ++ rest))%string))%nat = true).
      { apply Nat.ltb_lt. cbn [String.length]. rewrite !append_length.
        cbn [String.length]. rewrite append_length. lia. }
      rewrite E. apply IH. lia.
Qed.

Lemma match_String_other :
  forall c s prev,
    Ascii.eqb dquote c = false -> Ascii.eqb squote c = false ->
    match_at String_re prev (String c s) = None.
Proof.
  intros c s prev H1 H2. unfold match_at, String_re, Chr. cbn [re_match].
  rewrite H1, H2. reflexivity.
Qed.

Lemma literal_first_not_quote :
  forall c, literal_first c = true ->
    Ascii.eqb dquote c = false /\ Ascii.eqb squote c = false.
Proof.
  intros c H. split.
  - destruct (Ascii.eqb dquote c) eqn:E; [|reflexivity].
    apply Ascii.eqb_eq in E. subst c. discriminate H.
  - destruct (Ascii.eqb squote c) eqn:E; [|reflexivity].
    apply Ascii.eqb_eq in E. subst c. discriminate H.
Qed.

Lemma colon_hyphen_cases :
  forall c, one_of ":-" c = true -> c = ":"%char \/ c = "-"%char.
Proof.
  intros c H. cbn [one_of] in H. rewrite orb_false_r in H.
  apply orb_prop in H as [H|H]; apply Ascii.eqb_eq in H; auto.
Qed.

Lemma match_Literal :
  forall start body rest prev,
    literal_start start = true -> literal_tail rest body ->
    match_at Literal_re prev (start ++ body ++ rest)%string
    = Some (last_char prev (start ++ body)%string, rest).
Proof.
  intros start body rest prev Hstart Htail.
  pose proof (rounds_literal_tail rest body Htail) as Hrounds.
  rewrite last_char_append.
  change Literal_re with
    (Cat (Alt (Class literal_first)
              (Cat (Class (one_of ":-")) (Class literal_second)))
         (Star Literal_more)).
  unfold match_at.
  destruct start as [|c [|d [|e start]]]; try discriminate Hstart;
    cbn [literal_start] in Hstart; cbn [append last_char re_match].
  - rewrite Hstart. rewrite Hrounds; [reflexivity|].
    rewrite append_length. lia.
  - apply andb_prop in Hstart as [Hc Hd].
    assert (Hf : literal_first c = false).
    { destruct (colon_hyphen_cases c Hc); subst c; reflexivity. }
    rewrite Hf, Hc, Hd. rewrite Hrounds; [reflexivity|].
    rewrite append_length. lia.
Qed.

Lemma first_match_literal :
  forall start body rest prev,
    literal_start start = true -> literal_tail rest body ->
    first_match _scanner prev ((start ++ body) ++ rest)%string
    = Some (Some Literal_do, last_char prev (start ++ body)%string, rest).
Proof.
  intros start body rest prev Hstart Htail.
  rewrite append_assoc, scanner_lexicon. cbn [first_match].
  rewrite (match_Literal start body rest prev Hstart Htail).
  assert (Hq : match_at String_re prev (start ++ body ++ rest)%string = None).
  { destruct start as [|c [|d [|e start]]]; try discriminate Hstart;
      cbn [literal_start] in Hstart; cbn [append].
    - destruct (literal_first_not_quote c Hstart) as [H1 H2].
      apply match_String_other; assumption.
    - apply andb_prop in Hstart as [Hc _].
      destruct (colon_hyphen_cases c Hc); subst c; apply match_String_other;
        reflexivity. }
  rewrite Hq. reflexivity.
Qed.

(** Wherever the scanner comes to the start of a Literal, it takes the
    start and the tail after it, as far as the tail goes, and hands
    that text to [Literal.do] for the token. *)
Theorem scan_literal :
  forall start body rest fuel prev acc,
    literal_start start = true -> literal_tail rest body ->
    scan_loop _scanner (S fuel) prev (start ++ body ++ rest)%string acc
    = (tok <- Literal_do (start ++ body)%string ;;
       scan_loop _scanner fuel (last_char prev (start ++ body)%string) rest
         (acc ++ [tok])).
Proof.
  intros start body rest fuel prev acc Hstart Htail.
  rewrite <- append_assoc.
  apply (scan_loop_round fuel prev (start ++ body)%string rest acc _ _
           (first_match_literal start body rest prev Hstart Htail)).
  destruct start; [discriminate Hstart|discriminate].
Qed.

Lemma scan_literal_witness :
  literal_start "h" = true /\ literal_tail ", z" "ttp://a.b:80/x y"
  /\ scan_loop _scanner 9 None "http://a.b:80/x y, z" []
     = scan_loop _scanner 8 (Some "y"%char) ", z"
         [Token IdString (PStr "http://a.b:80/x y") None].
Proof.
  assert (H : literal_tail ", z" "ttp://a.b:80/x y").
  { apply (tail_inner _ "t" "tp" "://a.b:80/x y");
      [reflexivity|reflexivity|reflexivity|].
    apply (tail_colon _ "//a.b:80/x y"); [reflexivity|].
    apply (tail_inner _ "/" "/a.b" ":80/x y");
      [reflexivity|reflexivity|reflexivity|].
    apply (tail_colon _ "80/x y"); [reflexivity|].
    apply (tail_inner _ "8" "0/x" " y"); [reflexivity|reflexivity|reflexivity|].
    apply (tail_blank _ " " "" "y" ""); [reflexivity|reflexivity|reflexivity|].
    apply tail_end. reflexivity. }
  split; [reflexivity|]. split; [exact H|].
  apply (scan_literal "h" "ttp://a.b:80/x y" ", z" 8 None [] eq_refl H).
Defined.

(** ** Documents of scalar entries *)

Lemma scan_loop_empty :
  forall fuel prev acc, scan_loop _scanner (S fuel) prev "" acc = Ok (acc, "").
Proof.
  intros fuel prev acc. rewrite scan_loop_S, scanner_lexicon.
  destruct prev as [c|]; [|reflexivity].
  cbn [first_match]. unfold match_at at 14, Indent_re. cbn [re_match].
  destruct (Ascii.eqb c newline); reflexivity.
Qed.

Lemma word_tail :
  forall cs rest,
    str_all literal_inner cs = true -> literal_stop rest = true ->
    literal_tail rest cs.
Proof.
  intros cs rest Hcs Hstop. destruct cs as [|d ds]; [apply tail_end; exact Hstop|].
  cbn [str_all] in Hcs. apply andb_prop in Hcs as [Hd Hds].
  rewrite <- (append_nil_r ds).
  apply tail_inner; [exact Hd|exact Hds| |apply tail_end; exact Hstop].
  cbn [append]. unfold literal_stop in Hstop.
  apply andb_prop in Hstop as [Hstop _]. apply andb_prop in Hstop as [Hstop _].
  apply negb_true_iff in Hstop. exact Hstop.
Qed.

Lemma is_quote_not_blank : forall q, is_quote q = true -> blank q = false.
Proof. intros q H. destruct (is_quote_cases q H); subst q; reflexivity. Qed.

Lemma literal_first_not_blank : forall c, literal_first c = true -> blank c = false.
Proof.
  intros c H. destruct (blank c) eqn:E; [|reflexivity].
  destruct (blank_cases c E); subst c; discriminate H.
Qed.

Lemma literal_first_not_newline :
  forall c, literal_first c = true -> Ascii.eqb newline c = false.
Proof.
  intros c H. destruct (Ascii.eqb newline c) eqn:E; [|reflexivity].
  apply Ascii.eqb_eq in E. subst c. discriminate H.
Qed.

(** The scanner on a written scalar. *)
Lemma scan_written :
  forall v rest fuel prev acc tok,
    written_ok v = true -> written_token v = Ok tok ->
    literal_stop rest = true ->
    exists prev',
      scan_loop _scanner (S fuel) prev (write v ++ rest)%string acc
      = scan_loop _scanner fuel prev' rest (acc ++ [tok]).
Proof.
  intros [q body|w] rest fuel prev acc tok Hok Htok Hstop;
    cbn [written_ok written_token write] in *.
  - apply andb_prop in Hok as [Hq Hbody]. inversion Htok; subst tok.
    exists (Some q). apply scan_loop_quoted; assumption.
  - apply andb_prop in Hok as [Hw _].
    destruct w as [|c cs]; [discriminate Hw|].
    cbn [word] in Hw. apply andb_prop in Hw as [Hc Hcs].
    apply andb_prop in Hc as [Hc _].
    exists (last_char prev (String c "" ++ cs)%string).
    pose proof (scan_loop_round fuel prev (String c "" ++ cs)%string rest acc _ _
                  (first_match_literal (String c "") cs rest prev Hc
                     (word_tail cs rest Hcs Hstop))) as H.
    cbn [append] in H |- *. rewrite H by discriminate. rewrite Htok. reflexivity.
Qed.

Lemma written_token_ok :
  forall v, written_ok v = true -> exists tok, written_token v = Ok tok.
Proof.
  intros [q body|w] H; cbn [written_ok written_token] in *; [eauto|].
  apply andb_prop in H as [_ H]. apply andb_prop in H as [_ H].
  destruct (Literal_do w) as [tok| |]; [eauto|discriminate H|discriminate H].
Qed.

Lemma key_ok_written : forall k, key_ok k = true -> written_ok (Bare k) = true.
Proof. intros k H. unfold key_ok in H. apply andb_prop in H as [H _]. exact H. Qed.

Lemma entry_ok_written :
  forall k v, entry_ok (k, v) = true ->
    written_ok (Bare k) = true /\ written_ok v = true.
Proof.
  intros k v H. unfold entry_ok in H. cbn [fst snd] in H.
  apply andb_prop in H as [Hk Hv]. split; [apply key_ok_written; exact Hk|exact Hv].
Qed.

Lemma write_document_start :
  forall kvs,
    forallb entry_ok kvs = true ->
    starts_with (Ascii.eqb newline) (write_document kvs) = false
    /\ starts_with py_isspace (write_document kvs) = false.
Proof.
  intros [|[k v] kvs] H; [split; reflexivity|].
  cbn [forallb] in H. apply andb_prop in H as [H _].
  apply entry_ok_written in H as [H _].
  cbn [written_ok] in H. apply andb_prop in H as [H _].
  destruct k as [|c cs]; [discriminate H|].
  cbn [word] in H. apply andb_prop in H as [H _]. apply andb_prop in H as [Hc Hs].
  cbn [write_document write_entry fst append starts_with].
  split; [apply literal_first_not_newline; exact Hc|].
  apply negb_true_iff. exact Hs.
Qed.

Lemma scan_entry :
  forall kv rest fuel prev acc,
    entry_ok kv = true ->
    starts_with (Ascii.eqb newline) rest = false ->
    scan_loop _scanner (S (S (S (S (S fuel))))) prev
      (write_entry kv ++ String newline rest)%string acc
    = scan_loop _scanner fuel (Some newline) rest (acc ++ entry_tokens kv).
Proof.
  intros [k v] rest fuel prev acc Hok Hrest.
  apply entry_ok_written in Hok as [Hk Hv].
  destruct (written_token_ok _ Hk) as (ktok & Ek).
  destruct (written_token_ok _ Hv) as (vtok & Ev).
  unfold write_entry, entry_tokens, written_tok. cbn [fst snd]. rewrite Ek, Ev.
  rewrite !append_assoc. cbn [append].
  set (tail := (write v ++ String newline rest)%string).
  (* the key *)
  destruct (scan_written (Bare k) (String ":" (String " " tail))
              (S (S (S (S fuel)))) prev acc ktok Hk Ek eq_refl) as (p1 & E1).
  cbn [write] in E1. rewrite E1.
  (* the colon *)
  pose proof (scan_loop_round (S (S (S fuel))) p1 (String ":" "") (String " " tail)
                (acc ++ [ktok]) _ _
                (first_match_punctuation ":" IdColon (String " " tail) p1
                   (or_intror (conj (or_introl eq_refl)
                                    (or_intror (ex_intro _ " "%char
                                       (ex_intro _ tail (conj eq_refl eq_refl)))))))
                ltac:(discriminate)) as E2.
  cbn [append Symbol_do bind] in E2.
  change (Token IdColon PNone None) with (symbol IdColon) in E2. rewrite E2.
  (* the blank *)
  assert (Hnb : stops blank tail).
  { apply stops_starts. unfold tail.
    destruct v as [q body|w]; cbn [write written_ok] in *.
    - apply andb_prop in Hv as [Hq _]. unfold quoted. cbn [append starts_with].
      apply is_quote_not_blank. exact Hq.
    - apply andb_prop in Hv as [Hw _]. destruct w as [|c cs]; [discriminate Hw|].
      cbn [word] in Hw. apply andb_prop in Hw as [Hc _].
      apply andb_prop in Hc as [Hc _].
      cbn [append starts_with]. apply literal_first_not_blank. exact Hc. }
  pose proof (scan_loop_round (S (S fuel)) (Some ":"%char) (String " " "") tail
                ((acc ++ [ktok]) ++ [symbol IdColon]) _ _
                (first_match_blanks " " "" tail (Some ":"%char) eq_refl eq_refl Hnb)
                ltac:(discriminate)) as E3.
  cbn [append at_line_start last_char] in E3.
  change (Ascii.eqb ":" newline) with false in E3. cbv iota in E3. rewrite E3.
  (* the value *)
  destruct (scan_written v (String newline rest) (S fuel) (Some " "%char)
              ((acc ++ [ktok]) ++ [symbol IdColon]) vtok Hv Ev eq_refl) as (p2 & E4).
  unfold tail. rewrite E4.
  (* the line break *)
  pose proof (scan_loop_round fuel p2 (String newline "") rest
                (((acc ++ [ktok]) ++ [symbol IdColon]) ++ [vtok]) _ _
                (first_match_line_breaks "" rest p2 eq_refl (stops_starts _ _ Hrest))
                ltac:(discriminate)) as E5.
  cbn [append NewLine_do bind] in E5. rewrite E5.
  rewrite <- !app_assoc. reflexivity.
Qed.

Lemma write_entry_length :
  forall kv, entry_ok kv = true -> (4 <= String.length (write_entry kv))%nat.
Proof.
  intros [k v] H. apply entry_ok_written in H as [Hk Hv]. cbn [written_ok] in Hk.
  apply andb_prop in Hk as [Hk _]. destruct k as [|c cs]; [discriminate Hk|].
  unfold write_entry. cbn [fst snd]. rewrite !append_length. cbn [String.length].
  destruct v as [q body|w]; cbn [write written_ok] in *.
  - unfold quoted. cbn [String.length]. lia.
  - apply andb_prop in Hv as [Hw _]. destruct w; [discriminate Hw|].
    cbn [String.length]. lia.
Qed.

Lemma scan_document :
  forall kvs fuel prev acc,
    forallb entry_ok kvs = true ->
    (String.length (write_document kvs) < fuel)%nat ->
    scan_loop _scanner fuel prev (write_document kvs) acc
    = Ok (acc ++ document_tokens kvs, ""%string).
Proof.
  induction kvs as [|kv kvs IH]; intros fuel prev acc Hok Hfuel.
  - cbn [write_document String.length] in *.
    destruct fuel as [|[|fuel]]; try lia.
    pose proof (scan_loop_round (S fuel) prev "#" "" acc _ _
                  (first_match_comment "" "" prev eq_refl (or_introl eq_refl))
                  ltac:(discriminate)) as E.
    cbn [append last_char] in E. rewrite E, scan_loop_empty.
    unfold document_tokens. cbn [flat_map]. rewrite app_nil_r. reflexivity.
  - cbn [forallb] in Hok. apply andb_prop in Hok as [Hkv Hok].
    cbn [write_document] in *.
    pose proof (write_entry_length kv Hkv) as L.
    rewrite append_length in Hfuel. cbn [String.length] in Hfuel.
    destruct fuel as [|[|[|[|[|fuel]]]]]; try lia.
    rewrite (scan_entry kv (write_document kvs) fuel prev acc Hkv
               (proj1 (write_document_start kvs Hok))).
    rewrite (IH fuel (Some newline) _ Hok ltac:(lia)).
    unfold document_tokens. cbn [flat_map]. rewrite <- app_assoc. reflexivity.
Qed.

Lemma tokenize_for_plain :
  forall tokens st,
    curr_indent st = 0%Z -> forallb plain_token tokens = true ->
    exists st' out,
      tokenize_for st tokens = Ok (st', out) /\ Forall2 alike tokens out.
Proof.
  induction tokens as [|tok tokens IH]; intros st Hc Hall; cbn [tokenize_for].
  - exists st, []. split; [reflexivity|constructor].
  - cbn [forallb] in Hall. apply andb_prop in Hall as [Htok Hall].
    unfold plain_token in Htok. apply andb_prop in Htok as [Hi Hn].
    apply negb_true_iff in Hi.
    assert (Hstep : exists st1 tok1,
               tokenize_step st tok = Ok (st1, [tok1])
               /\ curr_indent st1 = 0%Z /\ alike tok tok1).
    { destruct st as [p c s n]. cbn [curr_indent] in Hc. subst c.
      unfold tokenize_step.
      cbn [position curr_indent indent_stack newline_last].
      rewrite Hi.
      assert (E1 : (if n
                    then indent <- Ok 0%Z ;;
                         (if negb (indent =? 0)%Z
                          then Ok ((indent - 0)%Z, indent)
                          else Ok (0%Z, 0%Z))
                    else Ok (0%Z, 0%Z)) = Ok (0%Z, 0%Z))
        by (destruct n; reflexivity).
      rewrite E1. cbn [bind]. cbn beta iota.
      destruct (id_eqb (id tok) IdNewLine).
      - unfold int_value. destruct (value tok); try discriminate Hn.
        cbn [bind]. cbn beta iota. cbn [Z.ltb Z.gtb Z.compare bind app negb].
        cbv iota. rewrite ?Hi. cbn [negb app].
        eexists. eexists. split; [reflexivity|].
        split; [reflexivity|apply alike_refl].
      - cbn [bind]. cbn beta iota. cbn [Z.ltb Z.gtb Z.compare bind app negb id].
        rewrite Hi. cbv iota. cbn [negb app].
        eexists. eexists. split; [reflexivity|].
        split; [reflexivity|split; reflexivity]. }
    destruct Hstep as (st1 & tok1 & E & Hc1 & Ha).
    destruct (IH st1 Hc1 Hall) as (st' & out & E' & Ha').
    rewrite E. cbn [bind]. cbn beta iota. rewrite E'. cbn [bind]. cbn beta iota.
    exists st', ([tok1] ++ out). split; [reflexivity|].
    constructor; assumption.
Qed.

Lemma Literal_do_scalar :
  forall t tok, Literal_do t = Ok tok -> scalar_token tok = true.
Proof.
  intros t tok. unfold Literal_do, Literal_for, Integer_convert, Float_convert,
    Boolean_convert.
  destruct (isdigit t).
  - destruct (py_int t) as [z|]; cbn [bind]; [|discriminate].
    intros H. inversion H. reflexivity.
  - cbn [bind]. destruct (py_float t); cbn [bind];
      [intros H; inversion H; reflexivity|].
    destruct (Boolean_lookup Boolean_mapping t) eqn:Hb; cbn [bind].
    + intros H. inversion H. unfold Boolean_mapping, Boolean_lookup in Hb.
      destruct (str_in t _) in Hb; [inversion Hb; reflexivity|].
      destruct (str_in t _) in Hb; [inversion Hb; reflexivity|discriminate Hb].
    + destruct (str_in t ["null"; "Null"; "NULL"]); intros H; inversion H; reflexivity.
Qed.

Lemma written_tok_scalar :
  forall v, written_ok v = true ->
    scalar_token (written_tok v) = true
    /\ value (written_tok v) = written_value v.
Proof.
  intros v H. destruct (written_token_ok v H) as (tok & E).
  unfold written_tok, written_value. rewrite E. split; [|reflexivity].
  destruct v as [q body|w]; cbn [written_token] in E.
  - inversion E. reflexivity.
  - apply (Literal_do_scalar w tok E).
Qed.

Lemma scalar_token_facts :
  forall tok, scalar_token tok = true ->
    overrides_parse (id tok) = false /\ hashable (value tok) = true
    /\ id tok <> IdEnd /\ id tok <> IdNewLine /\ plain_token tok = true.
Proof.
  intros [i v l]. unfold scalar_token, plain_token. cbn [id value].
  destruct i; try discriminate; destruct v; try discriminate; intros _;
    repeat split; discriminate.
Qed.

Lemma document_tokens_plain :
  forall kvs, forallb entry_ok kvs = true ->
    forallb plain_token (document_tokens kvs) = true.
Proof.
  induction kvs as [|[k v] kvs IH]; intros H; [reflexivity|].
  cbn [forallb] in H. apply andb_prop in H as [Hkv H].
  apply entry_ok_written in Hkv as [Hk Hv].
  destruct (scalar_token_facts _ (proj1 (written_tok_scalar _ Hk))) as (_ & _ & _ & _ & Pk).
  destruct (scalar_token_facts _ (proj1 (written_tok_scalar _ Hv))) as (_ & _ & _ & _ & Pv).
  unfold document_tokens. cbn [flat_map entry_tokens app forallb fst snd].
  rewrite Pk, Pv. cbn [andb]. apply (IH H).
Qed.

Lemma document_tokens_entries :
  forall kvs, forallb entry_ok kvs = true ->
    exists tok toks,
      document_tokens kvs ++ [End] = tok :: toks
      /\ id tok <> IdNewLine
      /\ line_entries IdEnd tok toks (map entry_pair kvs).
Proof.
  induction kvs as [|[k v] kvs IH]; intros H.
  - exists End, []. split; [reflexivity|]. split; [discriminate|].
    apply line_entries_close. reflexivity.
  - cbn [forallb] in H. apply andb_prop in H as [Hkv H].
    apply entry_ok_written in Hkv as [Hk Hv].
    destruct (written_tok_scalar _ Hk) as [Sk Vk].
    destruct (written_tok_scalar _ Hv) as [Sv Vv].
    destruct (scalar_token_facts _ Sk) as (Ok_ & Hk_ & Ek & Nk & _).
    destruct (scalar_token_facts _ Sv) as (Ov & _ & _ & Nv & _).
    destruct (IH H) as (next & toks & E & _ & Hp).
    exists (written_tok (Bare k)),
           (symbol IdColon :: written_tok v :: Token IdNewLine (PInt 1) None
              :: next :: toks).
    split; [|split; [exact Nk|]].
    + unfold document_tokens in *. cbn [flat_map entry_tokens app fst snd].
      rewrite <- E. reflexivity.
    + cbn [map]. unfold entry_pair at 1. cbn [fst snd]. rewrite <- Vk, <- Vv.
      apply (line_entries_line IdEnd (written_tok (Bare k)) [] _ (symbol IdColon)
               (written_tok v) [] _ (Token IdNewLine (PInt 1) None) next toks
               (map entry_pair kvs)).
      * exact Ek.
      * apply value_scalar. exact Ok_.
      * exact Hk_.
      * reflexivity.
      * exact Nv.
      * apply value_scalar. exact Ov.
      * reflexivity.
      * exact Hp.
Qed.

Lemma lstrip_by_keep :
  forall p s, starts_with p s = false -> lstrip_by p s = s.
Proof.
  intros p [|c s] H; [reflexivity|]. cbn [starts_with] in H.
  cbn [lstrip_by]. rewrite H. reflexivity.
Qed.

Lemma write_document_end :
  forall kvs, exists s, write_document kvs = (s ++ "#")%string.
Proof.
  induction kvs as [|kv kvs (s & E)].
  - exists ""%string. reflexivity.
  - exists (write_entry kv ++ String newline s)%string.
    cbn [write_document]. rewrite E, append_assoc. reflexivity.
Qed.

Lemma lstripped_keep :
  forall s, starts_with py_isspace s = false -> lstripped s = ""%string.
Proof.
  intros [|c s] H; [reflexivity|]. cbn [starts_with] in H.
  cbn [lstripped]. rewrite H. reflexivity.
Qed.

(** A document of entries [key: value], one to a line, closed by a
    comment line, decodes to the mapping of the keys to the values,
    assigned in the order of the lines, a later entry for a key that is
    there already replacing its value. The keys are words that do not
    stand for floats, the values words or quoted strings; a word
    stands for what [Literal.do] makes of it (a run of digits has no
    more of them than [int()] takes), a quoted string for the text
    between its quotes. *)
Theorem parse_written_document :
  forall kvs,
    forallb entry_ok kvs = true ->
    parse (write_document kvs)
    = Ok (POrderedDict (assigned [] (map entry_pair kvs))).
Proof.
  intros kvs Hok.
  destruct (write_document_start kvs Hok) as [_ Hstart].
  assert (Hstrip : strip (write_document kvs) = write_document kvs).
  { unfold strip, strip_by. rewrite (lstrip_by_keep _ _ Hstart).
    destruct (write_document_end kvs) as (s & E). rewrite E.
    apply rstrip_by_keep. reflexivity. }
  rewrite parse_eq, tokenize_eq, Hstrip, scan_eq.
  rewrite (scan_document kvs _ None [] Hok (Nat.lt_succ_diag_r _)).
  cbn [bind app]. cbn beta iota.
  destruct (tokenize_for_plain (document_tokens kvs)
              (tokenize_init (len (lstripped (write_document kvs)) + 1))
              eq_refl (document_tokens_plain kvs Hok)) as (st & out & E & Ha).
  rewrite E. cbn [bind]. cbn beta iota.
  apply (parse_tokens_alike (document_tokens kvs ++ [End]) (out ++ [End])).
  - apply Forall2_app; [exact Ha|]. repeat constructor.
  - destruct (document_tokens_entries kvs Hok) as (tok & toks & Es & Hn & Hp).
    rewrite Es. rewrite <- (app_nil_r toks).
    apply (parse_tokens_entries [] tok toks [] _ (Forall_nil _) Hn Hp).
Qed.

Lemma parse_written_document_witness :
  forallb entry_ok sample_entries = true
  /\ parse (write_document sample_entries)
     = Ok (POrderedDict [ (PStr "name", PStr "z, w"); (PStr "port", PInt 8080);
                          (PStr "debug", PBool true) ]).
Proof.
  split; [reflexivity|].
  exact (parse_written_document sample_entries eq_refl).
Defined.

(** ** Documents with blocks *)

Lemma scan_to_refl : forall prev s acc, scan_to prev s acc prev s acc.
Proof. intros prev s acc fuel H. exists fuel. auto. Qed.

Lemma scan_to_trans :
  forall p1 s1 a1 p2 s2 a2 p3 s3 a3,
    scan_to p1 s1 a1 p2 s2 a2 -> scan_to p2 s2 a2 p3 s3 a3 ->
    scan_to p1 s1 a1 p3 s3 a3.
Proof.
  intros p1 s1 a1 p2 s2 a2 p3 s3 a3 H1 H2 fuel Hf.
  destruct (H1 fuel Hf) as (f2 & Hf2 & E1).
  destruct (H2 f2 Hf2) as (f3 & Hf3 & E2).
  exists f3. split; [exact Hf3|]. rewrite E1. exact E2.
Qed.

Lemma scan_to_round :
  forall prev pre rest acc prev' tok do,
    first_match _scanner prev (pre ++ rest)%string = Some (Some do, prev', rest) ->
    pre <> EmptyString -> do pre = Ok tok ->
    scan_to prev (pre ++ rest)%string acc prev' rest (acc ++ [tok]).
Proof.
  intros prev pre rest acc prev' tok do H Hpre Hdo fuel Hf.
  destruct fuel as [|fuel]; [lia|].
  exists fuel. rewrite append_length in Hf.
  split; [destruct pre; [congruence|simpl in Hf; lia]|].
  rewrite (scan_loop_round fuel prev pre rest acc _ _ H Hpre), Hdo. reflexivity.
Qed.

Lemma scan_to_skip :
  forall prev pre rest acc prev',
    first_match _scanner prev (pre ++ rest)%string = Some (None, prev', rest) ->
    pre <> EmptyString ->
    scan_to prev (pre ++ rest)%string acc prev' rest acc.
Proof.
  intros prev pre rest acc prev' H Hpre fuel Hf.
  destruct fuel as [|fuel]; [lia|].
  exists fuel. rewrite append_length in Hf.
  split; [destruct pre; [congruence|simpl in Hf; lia]|].
  rewrite (scan_loop_round fuel prev pre rest acc _ _ H Hpre). reflexivity.
Qed.

(** The scanner on a written scalar. *)
Lemma scan_to_written :
  forall v rest prev acc,
    written_ok v = true -> literal_stop rest = true ->
    exists prev',
      scan_to prev (write v ++ rest)%string acc prev' rest (acc ++ [written_tok v]).
Proof.
  intros v rest prev acc Hok Hstop.
  destruct (written_token_ok v Hok) as (tok & Etok).
  unfold written_tok. rewrite Etok.
  destruct v as [q body|w]; cbn [written_ok written_token write] in *.
  - apply andb_prop in Hok as [Hq Hbody]. inversion Etok; subst tok.
    exists (Some q). intros fuel Hf. destruct fuel as [|fuel]; [lia|].
    exists fuel. rewrite append_length in Hf. unfold quoted in Hf at 1.
    cbn [String.length] in Hf. split; [lia|].
    apply scan_loop_quoted; assumption.
  - apply andb_prop in Hok as [Hw _].
    destruct w as [|c cs]; [discriminate Hw|].
    cbn [word] in Hw. apply andb_prop in Hw as [Hc Hcs].
    apply andb_prop in Hc as [Hc _].
    exists (last_char prev (String c "" ++ cs)%string).
    apply (scan_to_round prev (String c cs) rest acc _ tok Literal_do);
      [|discriminate|exact Etok].
    apply (first_match_literal (String c "") cs rest prev Hc
             (word_tail cs rest Hcs Hstop)).
Qed.

Lemma scan_to_colon :
  forall rest prev acc,
    starts_with literal_second rest = false ->
    scan_to prev (String ":" rest) acc (Some ":"%char) rest (acc ++ [symbol IdColon]).
Proof.
  intros rest prev acc H.
  apply (scan_to_round prev (String ":" "") rest acc _ _ (Symbol_do IdColon));
    [|discriminate|reflexivity].
  apply first_match_punctuation. right. split; [left; reflexivity|].
  apply stops_starts. exact H.
Qed.

Lemma scan_to_hyphen :
  forall rest prev acc,
    starts_with literal_second rest = false ->
    scan_to prev (String "-" rest) acc (Some "-"%char) rest (acc ++ [symbol IdHyphen]).
Proof.
  intros rest prev acc H.
  apply (scan_to_round prev (String "-" "") rest acc _ _ (Symbol_do IdHyphen));
    [|discriminate|reflexivity].
  apply first_match_punctuation. right. split; [right; left; reflexivity|].
  apply stops_starts. exact H.
Qed.

Lemma scan_to_blank :
  forall rest prev acc,
    at_line_start prev = false -> starts_with blank rest = false ->
    scan_to prev (String " " rest) acc (Some " "%char) rest acc.
Proof.
  intros rest prev acc Hp H.
  pose proof (first_match_blanks " " "" rest prev eq_refl eq_refl
                (stops_starts _ _ H)) as E.
  rewrite Hp in E. cbn [last_char] in E.
  apply (scan_to_skip prev (String " " "") rest acc _ E). discriminate.
Qed.

Lemma scan_to_newline :
  forall rest prev acc,
    starts_with (Ascii.eqb newline) rest = false ->
    scan_to prev (String newline rest) acc (Some newline) rest
      (acc ++ [Token IdNewLine (PInt 1) None]).
Proof.
  intros rest prev acc H.
  apply (scan_to_round prev (String newline "") rest acc _ _ NewLine_do);
    [|discriminate|reflexivity].
  apply (first_match_line_breaks "" rest prev eq_refl (stops_starts _ _ H)).
Qed.

Lemma spaces_blank : forall n, str_all blank (spaces n) = true.
Proof. induction n; [reflexivity|]. cbn [spaces str_all]. rewrite IHn. reflexivity. Qed.

Lemma last_char_spaces :
  forall n, last_char (Some " "%char) (spaces n) = Some " "%char.
Proof. induction n; [reflexivity|]. cbn [spaces last_char]. exact IHn. Qed.

Lemma spaces_length : forall n, String.length (spaces n) = n.
Proof. induction n; [reflexivity|]. cbn [spaces String.length]. rewrite IHn. reflexivity. Qed.

Lemma scan_to_indent :
  forall w rest acc,
    starts_with blank rest = false ->
    scan_to (Some newline) (spaces (S w) ++ rest)%string acc (Some " "%char) rest
      (acc ++ [Token IdIndent (PInt (Z.of_nat (S w))) None]).
Proof.
  intros w rest acc H.
  pose proof (first_match_blanks " " (spaces w) rest (Some newline) eq_refl
                (spaces_blank w) (stops_starts _ _ H)) as E.
  cbn [at_line_start] in E. change (Ascii.eqb newline newline) with true in E.
  cbv iota in E. rewrite last_char_spaces in E.
  apply (scan_to_round (Some newline) (spaces (S w)) rest acc _ _ Indent_do E);
    [discriminate|].
  unfold Indent_do, len. cbn [spaces String.length]. rewrite spaces_length.
  reflexivity.
Qed.

Lemma written_not_blank :
  forall v rest, written_ok v = true -> starts_with blank (write v ++ rest)%string = false.
Proof.
  intros [q body|w] rest H; cbn [write written_ok] in *.
  - apply andb_prop in H as [Hq _]. unfold quoted. cbn [append starts_with].
    apply is_quote_not_blank. exact Hq.
  - apply andb_prop in H as [Hw _]. destruct w as [|c cs]; [discriminate Hw|].
    cbn [word] in Hw. apply andb_prop in Hw as [Hc _].
    apply andb_prop in Hc as [Hc _].
    cbn [append starts_with]. apply literal_first_not_blank. exact Hc.
Qed.

(** The rest of a line after the key: the colon, a blank, the value and
    the line break. *)
Lemma scan_to_value :
  forall v rest prev acc,
    written_ok v = true -> starts_with (Ascii.eqb newline) rest = false ->
    scan_to prev (String ":" (String " " (write v ++ String newline rest))) acc
      (Some newline) rest
      (acc ++ [symbol IdColon; written_tok v; Token IdNewLine (PInt 1) None]).
Proof.
  intros v rest prev acc Hv Hrest.
  eapply scan_to_trans; [apply scan_to_colon; reflexivity|].
  eapply scan_to_trans;
    [apply scan_to_blank; [reflexivity|apply written_not_blank; exact Hv]|].
  destruct (scan_to_written v (String newline rest) (Some " "%char)
              (acc ++ [symbol IdColon]) Hv eq_refl) as (p & Hw).
  eapply scan_to_trans; [exact Hw|].
  replace (acc ++ [symbol IdColon; written_tok v; Token IdNewLine (PInt 1) None])
    with (((acc ++ [symbol IdColon]) ++ [written_tok v])
            ++ [Token IdNewLine (PInt 1) None])
    by (rewrite <- !app_assoc; reflexivity).
  apply scan_to_newline. exact Hrest.
Qed.

(** The line of a scalar entry. *)
Lemma scan_to_entry :
  forall k v rest prev acc,
    entry_ok (k, v) = true -> starts_with (Ascii.eqb newline) rest = false ->
    scan_to prev (k ++ String ":" (String " " (write v ++ String newline rest)))%string
      acc (Some newline) rest (acc ++ entry_tokens (k, v)).
Proof.
  intros k v rest prev acc Hok Hrest.
  apply entry_ok_written in Hok as [Hk Hv].
  destruct (scan_to_written (Bare k)
              (String ":" (String " " (write v ++ String newline rest))) prev acc
              Hk eq_refl) as (p & Hw).
  cbn [write] in Hw. eapply scan_to_trans; [exact Hw|].
  unfold entry_tokens. cbn [fst snd].
  replace (acc ++ [written_tok (Bare k); symbol IdColon; written_tok v;
                   Token IdNewLine (PInt 1) None])
    with ((acc ++ [written_tok (Bare k)])
            ++ [symbol IdColon; written_tok v; Token IdNewLine (PInt 1) None])
    by (rewrite <- !app_assoc; reflexivity).
  apply scan_to_value; assumption.
Qed.

(** The line of a key with a block below. *)
Lemma scan_to_key :
  forall k rest prev acc,
    written_ok (Bare k) = true -> starts_with (Ascii.eqb newline) rest = false ->
    scan_to prev (k ++ String ":" (String newline rest))%string acc
      (Some newline) rest
      (acc ++ [written_tok (Bare k); symbol IdColon; Token IdNewLine (PInt 1) None]).
Proof.
  intros k rest prev acc Hk Hrest.
  destruct (scan_to_written (Bare k) (String ":" (String newline rest)) prev acc
              Hk eq_refl) as (p & Hw).
  cbn [write] in Hw. eapply scan_to_trans; [exact Hw|].
  eapply scan_to_trans; [apply scan_to_colon; reflexivity|].
  replace (acc ++ [written_tok (Bare k); symbol IdColon; Token IdNewLine (PInt 1) None])
    with (((acc ++ [written_tok (Bare k)]) ++ [symbol IdColon])
            ++ [Token IdNewLine (PInt 1) None])
    by (rewrite <- !app_assoc; reflexivity).
  apply scan_to_newline. exact Hrest.
Qed.

Lemma scan_to_sequence_line :
  forall w v rest acc,
    written_ok v = true -> starts_with (Ascii.eqb newline) rest = false ->
    scan_to (Some newline)
      (spaces (S w) ++ String "-" (String " " (write v ++ String newline rest)))%string
      acc (Some newline) rest (acc ++ sequence_line_tokens w v).
Proof.
  intros w v rest acc Hv Hrest.
  eapply scan_to_trans; [apply scan_to_indent; reflexivity|].
  eapply scan_to_trans; [apply scan_to_hyphen; reflexivity|].
  eapply scan_to_trans;
    [apply scan_to_blank; [reflexivity|apply written_not_blank; exact Hv]|].
  destruct (scan_to_written v (String newline rest) (Some " "%char)
              ((acc ++ [Token IdIndent (PInt (Z.of_nat (S w))) None])
                 ++ [symbol IdHyphen]) Hv eq_refl) as (p & Hw).
  eapply scan_to_trans; [exact Hw|].
  unfold sequence_line_tokens.
  replace (acc ++ [Token IdIndent (PInt (Z.of_nat (S w))) None; symbol IdHyphen;
                   written_tok v; Token IdNewLine (PInt 1) None])
    with ((((acc ++ [Token IdIndent (PInt (Z.of_nat (S w))) None])
              ++ [symbol IdHyphen]) ++ [written_tok v])
            ++ [Token IdNewLine (PInt 1) None])
    by (rewrite <- !app_assoc; reflexivity).
  apply scan_to_newline. exact Hrest.
Qed.

Lemma scan_to_mapping_line :
  forall w k v rest acc,
    entry_ok (k, v) = true -> starts_with (Ascii.eqb newline) rest = false ->
    scan_to (Some newline)
      (spaces (S w) ++ k ++ String ":" (String " " (write v ++ String newline rest)))%string
      acc (Some newline) rest (acc ++ mapping_line_tokens w (k, v)).
Proof.
  intros w k v rest acc Hok Hrest.
  eapply scan_to_trans.
  - apply scan_to_indent.
    apply entry_ok_written in Hok as [Hk _].
    apply (written_not_blank (Bare k) _ Hk).
  - unfold mapping_line_tokens.
    replace (acc ++ Token IdIndent (PInt (Z.of_nat (S w))) None :: entry_tokens (k, v))
      with ((acc ++ [Token IdIndent (PInt (Z.of_nat (S w))) None])
              ++ entry_tokens (k, v))
      by (rewrite <- !app_assoc; reflexivity).
    apply scan_to_entry; assumption.
Qed.

Lemma text_line_append :
  forall s rest, (text_line s ++ rest)%string = (s ++ String newline rest)%string.
Proof. intros s rest. unfold text_line. rewrite append_assoc. reflexivity. Qed.

Lemma word_start :
  forall k rest, written_ok (Bare k) = true ->
    starts_with (Ascii.eqb newline) (k ++ rest)%string = false
    /\ starts_with py_isspace (k ++ rest)%string = false.
Proof.
  intros k rest H. cbn [written_ok] in H. apply andb_prop in H as [H _].
  destruct k as [|c cs]; [discriminate H|].
  cbn [word] in H. apply andb_prop in H as [H _]. apply andb_prop in H as [Hc Hs].
  cbn [append starts_with].
  split; [apply literal_first_not_newline; exact Hc|apply negb_true_iff; exact Hs].
Qed.

Lemma write_item_start :
  forall it rest, item_ok it = true ->
    starts_with (Ascii.eqb newline) (write_item it ++ rest)%string = false
    /\ starts_with py_isspace (write_item it ++ rest)%string = false.
Proof.
  intros [k v|k w vs|k w kvs] rest H; cbn [item_ok write_item] in *.
  - apply entry_ok_written in H as [H _].
    unfold text_line, write_entry. cbn [fst snd]. rewrite !append_assoc.
    apply word_start. exact H.
  - apply andb_prop in H as [H _]. apply andb_prop in H as [H _].
    apply key_ok_written in H. unfold text_line. rewrite !append_assoc. apply word_start. exact H.
  - apply andb_prop in H as [H _]. apply andb_prop in H as [H _].
    apply key_ok_written in H. unfold text_line. rewrite !append_assoc. apply word_start. exact H.
Qed.

Lemma scan_to_sequence_lines :
  forall w vs rest acc,
    forallb written_ok vs = true -> starts_with (Ascii.eqb newline) rest = false ->
    scan_to (Some newline)
      (concat_text (map (fun v => text_line (spaces (S w) ++ "- " ++ write v)) vs) ++ rest)%string
      acc (Some newline) rest (acc ++ flat_map (sequence_line_tokens w) vs).
Proof.
  intros w vs rest. induction vs as [|v vs IH]; intros acc Hok Hrest.
  - cbn [map concat_text append flat_map]. rewrite app_nil_r. apply scan_to_refl.
  - cbn [forallb] in Hok. apply andb_prop in Hok as [Hv Hok].
    cbn [map concat_text flat_map]. rewrite app_assoc.
    rewrite append_assoc, text_line_append, !append_assoc. cbn [append].
    eapply scan_to_trans; [|apply (IH _ Hok Hrest)].
    apply scan_to_sequence_line; [exact Hv|].
    destruct vs as [|v' vs]; [exact Hrest|reflexivity].
Qed.

Lemma scan_to_mapping_lines :
  forall w kvs rest acc,
    forallb entry_ok kvs = true -> starts_with (Ascii.eqb newline) rest = false ->
    scan_to (Some newline)
      (concat_text (map (fun kv => text_line (spaces (S w) ++ write_entry kv)) kvs) ++ rest)%string
      acc (Some newline) rest (acc ++ flat_map (mapping_line_tokens w) kvs).
Proof.
  intros w kvs rest. induction kvs as [|[k v] kvs IH]; intros acc Hok Hrest.
  - cbn [map concat_text append flat_map]. rewrite app_nil_r. apply scan_to_refl.
  - cbn [forallb] in Hok. apply andb_prop in Hok as [Hkv Hok].
    cbn [map concat_text flat_map]. rewrite app_assoc.
    rewrite append_assoc, text_line_append. unfold write_entry at 1. cbn [fst snd].
    rewrite !append_assoc. cbn [append].
    eapply scan_to_trans; [|apply (IH _ Hok Hrest)].
    apply scan_to_mapping_line; [exact Hkv|].
    destruct kvs as [|kv' kvs]; [exact Hrest|reflexivity].
Qed.

Lemma scan_to_item :
  forall it rest prev acc,
    item_ok it = true -> starts_with (Ascii.eqb newline) rest = false ->
    starts_with blank rest = false ->
    scan_to prev (write_item it ++ rest)%string acc (Some newline) rest
      (acc ++ raw_item it).
Proof.
  intros [k v|k w vs|k w kvs] rest prev acc Hok Hrest Hb;
    cbn [item_ok write_item raw_item] in *.
  - rewrite text_line_append. unfold write_entry. cbn [fst snd].
    rewrite !append_assoc. cbn [append]. apply scan_to_entry; assumption.
  - apply andb_prop in Hok as [Hok Hvs]. apply andb_prop in Hok as [Hk Hne]. apply key_ok_written in Hk.
    rewrite append_assoc, text_line_append, append_assoc. cbn [append].
    rewrite app_assoc.
    eapply scan_to_trans; [|apply (scan_to_sequence_lines w vs rest _ Hvs Hrest)].
    apply scan_to_key; [exact Hk|].
    destruct vs as [|v vs]; [discriminate Hne|reflexivity].
  - apply andb_prop in Hok as [Hok Hkvs]. apply andb_prop in Hok as [Hk Hne]. apply key_ok_written in Hk.
    rewrite append_assoc, text_line_append, append_assoc. cbn [append].
    rewrite app_assoc.
    eapply scan_to_trans; [|apply (scan_to_mapping_lines w kvs rest _ Hkvs Hrest)].
    apply scan_to_key; [exact Hk|].
    destruct kvs as [|kv kvs]; [discriminate Hne|reflexivity].
Qed.

Lemma scan_to_items :
  forall items prev acc,
    forallb item_ok items = true ->
    exists prev',
      scan_to prev (write_items items) acc prev' "#" (acc ++ flat_map raw_item items).
Proof.
  unfold write_items.
  induction items as [|it items IH]; intros prev acc Hok.
  - exists prev. cbn [map concat_text append flat_map]. rewrite app_nil_r.
    apply scan_to_refl.
  - cbn [forallb] in Hok. apply andb_prop in Hok as [Hit Hok].
    destruct (IH (Some newline) (acc ++ raw_item it) Hok) as (p & Hp).
    exists p. cbn [map concat_text flat_map]. rewrite app_assoc, append_assoc.
    eapply scan_to_trans; [|exact Hp].
    apply scan_to_item; [exact Hit| |].
    + destruct items as [|it' items]; [reflexivity|].
      cbn [forallb] in Hok. apply andb_prop in Hok as [Hit' _].
      cbn [map concat_text]. rewrite append_assoc.
      apply (write_item_start it' _ Hit').
    + destruct items as [|it' items]; [reflexivity|].
      cbn [forallb] in Hok. apply andb_prop in Hok as [Hit' _].
      cbn [map concat_text]. rewrite append_assoc.
      destruct (write_item_start it' (concat_text (map write_item items) ++ "#")
                  Hit') as [_ Hs].
      destruct (write_item it' ++ concat_text (map write_item items) ++ "#")%string
        as [|c s]; [reflexivity|].
      cbn [starts_with] in *. destruct (blank c) eqn:E; [|reflexivity].
      destruct (blank_cases c E); subst c; discriminate Hs.
Qed.

Lemma scan_items :
  forall items,
    forallb item_ok items = true ->
    scan _scanner (write_items items) = Ok (flat_map raw_item items, ""%string).
Proof.
  intros items Hok. rewrite scan_eq.
  destruct (scan_to_items items None [] Hok) as (p & Hp).
  destruct (Hp _ (Nat.lt_succ_diag_r _)) as (fuel & Hf & E).
  rewrite E. cbn [String.length] in Hf. cbn [app].
  destruct fuel as [|[|fuel]]; try lia.
  pose proof (scan_loop_round (S fuel) p "#" "" (flat_map raw_item items) _ _
                (first_match_comment "" "" p eq_refl (or_introl eq_refl))
                ltac:(discriminate)) as E2.
  cbn [append last_char app] in E2. rewrite E2, scan_loop_empty. reflexivity.
Qed.

(** *** The indentation pass on the tokens of a document *)

Lemma alike_at : forall tok p, alike tok (at_position tok p).
Proof. intros tok p. split; reflexivity. Qed.

(** Within a line: the token gets its line. *)
Lemma tokenize_step_inline :
  forall p c s tok,
    inline_token tok = true ->
    tokenize_step (TokenizeState p c s false) tok
    = Ok (TokenizeState p c s false, [at_position tok p]).
Proof.
  intros p c s tok H. unfold inline_token in H. apply andb_prop in H as [Hi Hn].
  apply negb_true_iff in Hi, Hn.
  unfold tokenize_step. cbn [position curr_indent indent_stack newline_last bind].
  cbn beta iota. rewrite Hn. cbn [bind]. cbn beta iota.
  cbn [Z.ltb Z.gtb Z.compare bind]. cbn beta iota. cbn [id]. rewrite Hi.
  reflexivity.
Qed.

(** At the start of a line that is not indented, out of a block. *)
Lemma tokenize_step_flat :
  forall p s n tok,
    inline_token tok = true ->
    tokenize_step (TokenizeState p 0 s n) tok
    = Ok (TokenizeState p 0 s false, [at_position tok p]).
Proof.
  intros p s n tok H. destruct n; [|apply tokenize_step_inline; exact H].
  unfold inline_token in H. apply andb_prop in H as [Hi Hn].
  apply negb_true_iff in Hi, Hn.
  unfold tokenize_step. cbn [position curr_indent indent_stack newline_last bind].
  rewrite Hi. cbn [bind Z.eqb negb]. cbn beta iota. rewrite Hn. cbn [bind].
  cbn beta iota. cbn [Z.ltb Z.gtb Z.compare bind]. cbn beta iota. cbn [id]. rewrite Hi.
  reflexivity.
Qed.

(** The line break at the end of a line. *)
Lemma tokenize_step_newline :
  forall p c s l,
    tokenize_step (TokenizeState p c s false) (Token IdNewLine (PInt l) None)
    = Ok (TokenizeState (p + l) c s true, [Token IdNewLine (PInt l) None]).
Proof. reflexivity. Qed.

(** The Indent token of the first line of a block. *)
Lemma tokenize_step_indent_open :
  forall p s w,
    tokenize_step (TokenizeState p 0 s true)
      (Token IdIndent (PInt (Z.of_nat (S w))) None)
    = Ok (TokenizeState p (Z.of_nat (S w)) (Z.of_nat (S w) :: s) false,
          [Token IdIndent (PInt (Z.of_nat (S w))) (Some p)]).
Proof.
  intros p s w. unfold tokenize_step, int_value.
  cbn [position curr_indent indent_stack newline_last id value id_eqb bind].
  change (id_eqb IdIndent IdIndent) with true. cbv iota. cbn [bind].
  assert (E : (Z.of_nat (S w) =? 0)%Z = false) by (apply Z.eqb_neq; lia).
  rewrite E. cbn [negb bind]. cbn beta iota.
  change (id_eqb IdIndent IdNewLine) with false. cbv iota. cbn [bind]. cbn beta iota.
  rewrite Z.sub_0_r.
  assert (E1 : (Z.of_nat (S w) <? 0)%Z = false) by (apply Z.ltb_ge; lia).
  assert (E2 : (Z.of_nat (S w) >? 0)%Z = true) by (apply Z.gtb_lt; lia).
  rewrite E1, E2. cbn [bind]. cbn beta iota. reflexivity.
Qed.

(** The Indent token of a further line of a block. *)
Lemma tokenize_step_indent_same :
  forall p s W,
    tokenize_step (TokenizeState p W s true) (Token IdIndent (PInt W) None)
    = Ok (TokenizeState p W s false, []).
Proof.
  intros p s W. unfold tokenize_step, int_value.
  cbn [position curr_indent indent_stack newline_last id value bind].
  change (id_eqb IdIndent IdIndent) with true. cbv iota. cbn [bind].
  rewrite Z.eqb_refl. cbn [negb bind]. cbn beta iota.
  change (id_eqb IdIndent IdNewLine) with false. cbv iota. cbn [bind]. cbn beta iota.
  cbn [Z.ltb Z.gtb Z.compare bind]. cbn beta iota. reflexivity.
Qed.

(** The first token of the line after a block closes the block. *)
Lemma tokenize_step_dedent :
  forall p w tok,
    inline_token tok = true ->
    tokenize_step (TokenizeState p (Z.of_nat (S w)) [Z.of_nat (S w); 0%Z] true) tok
    = Ok (TokenizeState p 0 [0%Z] false,
          [Dedent (Z.of_nat (S w)) p; NewLine p; at_position tok p]).
Proof.
  intros p w tok H. unfold inline_token in H. apply andb_prop in H as [Hi Hn].
  apply negb_true_iff in Hi, Hn.
  unfold tokenize_step. cbn [position curr_indent indent_stack newline_last bind].
  rewrite Hi. cbn [bind].
  assert (E : (0 =? Z.of_nat (S w))%Z = false) by (apply Z.eqb_neq; lia).
  rewrite E. cbn [negb bind]. cbn beta iota. rewrite Hn. cbn [bind]. cbn beta iota.
  assert (E1 : (0 - Z.of_nat (S w) <? 0)%Z = true) by (apply Z.ltb_lt; lia).
  assert (E2 : (0 - Z.of_nat (S w) >? 0)%Z = false) by (rewrite Z.gtb_ltb; apply Z.ltb_ge; lia).
  rewrite E1. rewrite !dedent_while_cons.
  assert (E3 : (Z.of_nat (S w) >? 0)%Z = true) by (apply Z.gtb_lt; lia).
  rewrite E3. change (0 >? 0)%Z with false. cbv iota. cbn [bind]. cbn beta iota.
  rewrite E2. cbn [id]. rewrite Hi. reflexivity.
Qed.

Lemma passes_nil : forall st, passes st [] st [].
Proof. intros st. exists []. split; [reflexivity|constructor]. Qed.

Lemma passes_cons :
  forall st tok st1 out1 expected1 tokens st2 expected2,
    tokenize_step st tok = Ok (st1, out1) -> Forall2 alike expected1 out1 ->
    passes st1 tokens st2 expected2 ->
    passes st (tok :: tokens) st2 (expected1 ++ expected2).
Proof.
  intros st tok st1 out1 e1 tokens st2 e2 E Ha (out2 & E2 & Ha2).
  exists (out1 ++ out2). cbn [tokenize_for]. rewrite E. cbn [bind]. cbn beta iota.
  rewrite E2. cbn [bind]. cbn beta iota. split; [reflexivity|].
  apply Forall2_app; assumption.
Qed.

Lemma passes_app :
  forall st a st1 e1 b st2 e2,
    passes st a st1 e1 -> passes st1 b st2 e2 ->
    passes st (a ++ b) st2 (e1 ++ e2).
Proof.
  intros st a. revert st. induction a as [|tok a IH]; intros st st1 e1 b st2 e2 Ha Hb.
  - destruct Ha as (out & E & Hal). cbn [tokenize_for] in E. inversion E; subst.
    inversion Hal; subst. exact Hb.
  - destruct Ha as (out & E & Hal). cbn [tokenize_for] in E.
    destruct (tokenize_step st tok) as [[s1 o1]| |] eqn:Es; cbn [bind] in E;
      try discriminate E.
    cbn beta iota in E.
    destruct (tokenize_for s1 a) as [[s2 o2]| |] eqn:Ea; cbn [bind] in E;
      try discriminate E.
    cbn beta iota in E. inversion E; subst.
    apply Forall2_app_inv_r in Hal as (x1 & x2 & H1 & H2 & ->).
    rewrite <- app_assoc. cbn [app].
    apply (passes_cons st tok s1 o1 x1 (a ++ b) st2 (x2 ++ e2) Es H1).
    apply (IH s1 st1 x2 b st2 e2); [|exact Hb].
    exists o2. split; [exact Ea|exact H2].
Qed.

Lemma passes_inline :
  forall p c s tok, inline_token tok = true ->
    passes (TokenizeState p c s false) [tok] (TokenizeState p c s false) [tok].
Proof.
  intros p c s tok H.
  apply (passes_cons _ tok _ _ [tok] [] _ [] (tokenize_step_inline p c s tok H)).
  - constructor; [apply alike_at|constructor].
  - apply passes_nil.
Qed.

Lemma passes_newline :
  forall p c s,
    passes (TokenizeState p c s false) [Token IdNewLine (PInt 1) None]
      (TokenizeState (p + 1) c s true) [Token IdNewLine (PInt 1) None].
Proof.
  intros p c s.
  apply (passes_cons _ _ _ _ [Token IdNewLine (PInt 1) None] [] _ []
           (tokenize_step_newline p c s 1)).
  - constructor; [apply alike_refl|constructor].
  - apply passes_nil.
Qed.

Lemma scalar_inline :
  forall tok, scalar_token tok = true -> inline_token tok = true.
Proof.
  intros [i v l]. unfold scalar_token, inline_token. cbn [id value].
  destruct i; try discriminate; reflexivity.
Qed.

Lemma written_inline :
  forall v, written_ok v = true -> inline_token (written_tok v) = true.
Proof. intros v H. apply scalar_inline. apply (proj1 (written_tok_scalar v H)). Qed.

(** Within a line, the rest of it up to and with the line break. *)
Lemma passes_line :
  forall p c s tokens,
    forallb inline_token tokens = true ->
    passes (TokenizeState p c s false) (tokens ++ [Token IdNewLine (PInt 1) None])
      (TokenizeState (p + 1) c s true) (tokens ++ [Token IdNewLine (PInt 1) None]).
Proof.
  intros p c s tokens. induction tokens as [|tok tokens IH]; intros H.
  - apply passes_newline.
  - cbn [forallb] in H. apply andb_prop in H as [Htok H].
    apply (passes_app _ [tok] _ [tok] _ _ _ (passes_inline p c s tok Htok) (IH H)).
Qed.

(** A line that starts out of a block. *)
Lemma passes_line_flat :
  forall p s n tok tokens,
    inline_token tok = true -> forallb inline_token tokens = true ->
    passes (TokenizeState p 0 s n) (tok :: tokens ++ [Token IdNewLine (PInt 1) None])
      (TokenizeState (p + 1) 0 s true)
      (tok :: tokens ++ [Token IdNewLine (PInt 1) None]).
Proof.
  intros p s n tok tokens Htok H.
  apply (passes_cons _ tok _ _ [tok] _ _ _ (tokenize_step_flat p s n tok Htok)).
  - constructor; [apply alike_at|constructor].
  - apply passes_line. exact H.
Qed.

(** The line after a block. *)
Lemma passes_line_dedent :
  forall p w tok tokens,
    inline_token tok = true -> forallb inline_token tokens = true ->
    passes (TokenizeState p (Z.of_nat (S w)) [Z.of_nat (S w); 0%Z] true)
      (tok :: tokens ++ [Token IdNewLine (PInt 1) None])
      (TokenizeState (p + 1) 0 [0%Z] true)
      ([Dedent (Z.of_nat (S w)) 0; NewLine 0; tok]
         ++ tokens ++ [Token IdNewLine (PInt 1) None]).
Proof.
  intros p w tok tokens Htok H.
  apply (passes_cons _ tok _ _ _ _ _ _ (tokenize_step_dedent p w tok Htok)).
  - constructor; [split; reflexivity|].
    constructor; [split; reflexivity|].
    constructor; [apply alike_at|constructor].
  - apply passes_line. exact H.
Qed.

(** A further line of a block: the Indent token is dropped. *)
Lemma passes_line_block :
  forall p W s tokens,
    forallb inline_token tokens = true ->
    passes (TokenizeState p W s true)
      (Token IdIndent (PInt W) None :: tokens ++ [Token IdNewLine (PInt 1) None])
      (TokenizeState (p + 1) W s true)
      (tokens ++ [Token IdNewLine (PInt 1) None]).
Proof.
  intros p W s tokens H.
  apply (passes_cons _ _ _ _ [] _ _ _ (tokenize_step_indent_same p s W)).
  - constructor.
  - apply passes_line. exact H.
Qed.

(** The first line of a block: the Indent token opens the block. *)
Lemma passes_line_open :
  forall p s w tokens,
    forallb inline_token tokens = true ->
    passes (TokenizeState p 0 s true)
      (Token IdIndent (PInt (Z.of_nat (S w))) None
         :: tokens ++ [Token IdNewLine (PInt 1) None])
      (TokenizeState (p + 1) (Z.of_nat (S w)) (Z.of_nat (S w) :: s) true)
      (Token IdIndent (PInt (Z.of_nat (S w))) None
         :: tokens ++ [Token IdNewLine (PInt 1) None]).
Proof.
  intros p s w tokens H.
  apply (passes_cons _ _ _ _ [Token IdIndent (PInt (Z.of_nat (S w))) None] _ _ _
           (tokenize_step_indent_open p s w)).
  - constructor; [split; reflexivity|constructor].
  - apply passes_line. exact H.
Qed.

Lemma passes_first_line :
  forall pending st tok tokens,
    pending_state pending st ->
    inline_token tok = true -> forallb inline_token tokens = true ->
    exists p,
      passes st (tok :: tokens ++ [Token IdNewLine (PInt 1) None])
        (TokenizeState p 0 [0%Z] true)
        (block_end pending ++ tok :: tokens ++ [Token IdNewLine (PInt 1) None]).
Proof.
  intros [w|] st tok tokens Hst Htok H; cbn [pending_state block_end] in *.
  - destruct Hst as (p & ->). exists (p + 1)%Z.
    apply (passes_line_dedent p w tok tokens Htok H).
  - destruct Hst as (p & n & ->). exists (p + 1)%Z.
    apply (passes_line_flat p [0%Z] n tok tokens Htok H).
Qed.

Lemma passes_sequence_lines :
  forall w vs p s,
    forallb written_ok vs = true ->
    exists p',
      passes (TokenizeState p (Z.of_nat (S w)) s true)
        (flat_map (sequence_line_tokens w) vs)
        (TokenizeState p' (Z.of_nat (S w)) s true)
        (flat_map sequence_line vs).
Proof.
  intros w vs. induction vs as [|v vs IH]; intros p s H.
  - exists p. apply passes_nil.
  - cbn [forallb] in H. apply andb_prop in H as [Hv H].
    destruct (IH (p + 1)%Z s H) as (p' & Hp'). exists p'.
    cbn [flat_map].
    apply (passes_app _ _ _ _ _ _ _
             (passes_line_block p (Z.of_nat (S w)) s [symbol IdHyphen; written_tok v]
                ltac:(cbn [forallb]; rewrite (written_inline v Hv); reflexivity))
             Hp').
Qed.

Lemma passes_mapping_lines :
  forall w kvs p s,
    forallb entry_ok kvs = true ->
    exists p',
      passes (TokenizeState p (Z.of_nat (S w)) s true)
        (flat_map (mapping_line_tokens w) kvs)
        (TokenizeState p' (Z.of_nat (S w)) s true)
        (flat_map entry_tokens kvs).
Proof.
  intros w kvs. induction kvs as [|[k v] kvs IH]; intros p s H.
  - exists p. apply passes_nil.
  - cbn [forallb] in H. apply andb_prop in H as [Hkv H].
    apply entry_ok_written in Hkv as [Hk Hv].
    destruct (IH (p + 1)%Z s H) as (p' & Hp'). exists p'.
    cbn [flat_map].
    apply (passes_app _ _ _ _ _ _ _
             (passes_line_block p (Z.of_nat (S w)) s
                [written_tok (Bare k); symbol IdColon; written_tok v]
                ltac:(cbn [forallb]; rewrite (written_inline _ Hk),
                        (written_inline v Hv); reflexivity))
             Hp').
Qed.

Lemma passes_item :
  forall it pending st,
    item_ok it = true -> pending_state pending st ->
    exists st',
      pending_state (open_block it) st'
      /\ passes st (raw_item it) st' (block_end pending ++ item_lines it).
Proof.
  intros [k v|k w vs|k w kvs] pending st Hok Hst;
    cbn [item_ok raw_item item_lines open_block] in *.
  - apply entry_ok_written in Hok as [Hk Hv].
    destruct (passes_first_line pending st (written_tok (Bare k))
                [symbol IdColon; written_tok v] Hst (written_inline _ Hk)
                ltac:(cbn [forallb]; rewrite (written_inline v Hv); reflexivity))
      as (p & Hp).
    exists (TokenizeState p 0 [0%Z] true). split; [exists p, true; reflexivity|].
    exact Hp.
  - apply andb_prop in Hok as [Hok Hvs]. apply andb_prop in Hok as [Hk Hne]. apply key_ok_written in Hk.
    destruct (passes_first_line pending st (written_tok (Bare k))
                [symbol IdColon] Hst (written_inline _ Hk) eq_refl) as (p & Hp).
    destruct vs as [|v vs]; [discriminate Hne|].
    cbn [forallb] in Hvs. apply andb_prop in Hvs as [Hv Hvs].
    destruct (passes_sequence_lines w vs (p + 1)%Z [Z.of_nat (S w); 0%Z] Hvs)
      as (p' & Hp').
    exists (TokenizeState p' (Z.of_nat (S w)) [Z.of_nat (S w); 0%Z] true).
    split; [exists p'; reflexivity|].
    pose proof (passes_app _ _ _ _ _ _ _ Hp
                  (passes_app _ _ _ _ _ _ _
                     (passes_line_open p [0%Z] w [symbol IdHyphen; written_tok v]
                        ltac:(cbn [forallb]; rewrite (written_inline v Hv);
                              reflexivity))
                     Hp')) as H.
    cbn [flat_map sequence_line_tokens mapping_line_tokens entry_tokens fst snd] in *.
    rewrite <- ?app_assoc in H. cbn [app] in H.
    rewrite <- ?app_assoc. cbn [app]. exact H.
  - apply andb_prop in Hok as [Hok Hkvs]. apply andb_prop in Hok as [Hk Hne]. apply key_ok_written in Hk.
    destruct (passes_first_line pending st (written_tok (Bare k))
                [symbol IdColon] Hst (written_inline _ Hk) eq_refl) as (p & Hp).
    destruct kvs as [|[k1 v1] kvs]; [discriminate Hne|].
    cbn [forallb] in Hkvs. apply andb_prop in Hkvs as [Hkv Hkvs].
    apply entry_ok_written in Hkv as [Hk1 Hv1].
    destruct (passes_mapping_lines w kvs (p + 1)%Z [Z.of_nat (S w); 0%Z] Hkvs)
      as (p' & Hp').
    exists (TokenizeState p' (Z.of_nat (S w)) [Z.of_nat (S w); 0%Z] true).
    split; [exists p'; reflexivity|].
    pose proof (passes_app _ _ _ _ _ _ _ Hp
                  (passes_app _ _ _ _ _ _ _
                     (passes_line_open p [0%Z] w
                        [written_tok (Bare k1); symbol IdColon; written_tok v1]
                        ltac:(cbn [forallb]; rewrite (written_inline _ Hk1),
                                (written_inline v1 Hv1); reflexivity))
                     Hp')) as H.
    cbn [flat_map sequence_line_tokens mapping_line_tokens entry_tokens fst snd] in *.
    rewrite <- ?app_assoc in H. cbn [app] in H.
    rewrite <- ?app_assoc. cbn [app]. exact H.
Qed.

Lemma passes_items :
  forall items pending st,
    forallb item_ok items = true -> ends_scalar items = true ->
    pending = None \/ items <> [] ->
    pending_state pending st ->
    exists st',
      passes st (flat_map raw_item items) st'
        (block_end pending ++ flat_map item_stream items).
Proof.
  induction items as [|it items IH]; intros pending st Hok Hend Hp Hst.
  - destruct Hp as [->|Hp]; [|congruence]. exists st. apply passes_nil.
  - cbn [forallb] in Hok. apply andb_prop in Hok as [Hit Hok].
    destruct (passes_item it pending st Hit Hst) as (st1 & Hst1 & H1).
    destruct (IH (open_block it) st1 Hok) as (st2 & H2).
    + destruct items; [reflexivity|exact Hend].
    + destruct items as [|it' items]; [|right; discriminate].
      left. cbn [ends_scalar] in Hend. destruct it; try discriminate Hend. reflexivity.
    + exact Hst1.
    + exists st2. cbn [flat_map]. unfold item_stream at 1.
      pose proof (passes_app _ _ _ _ _ _ _ H1 H2) as H.
      rewrite <- !app_assoc in *. exact H.
Qed.

Lemma scalar_token_ids :
  forall tok, scalar_token tok = true ->
    id tok <> IdDedent /\ id tok <> IdHyphen /\ id tok <> IdIndent.
Proof.
  intros [i v l]. unfold scalar_token. cbn [id value].
  destruct i; try discriminate; intros _; repeat split; discriminate.
Qed.

(** The lines of a block sequence and the Dedent after them. *)
Lemma sequence_lines_items :
  forall vs dedent,
    forallb written_ok vs = true -> id dedent = IdDedent ->
    exists tok toks,
      flat_map sequence_line vs ++ [dedent] = tok :: toks
      /\ (id tok = IdHyphen \/ id tok = IdDedent)
      /\ (vs <> [] -> id tok = IdHyphen)
      /\ block_items tok toks (map written_value vs).
Proof.
  induction vs as [|v vs IH]; intros dedent H Hd.
  - exists dedent, []. split; [reflexivity|]. split; [right; exact Hd|].
    split; [congruence|]. apply block_items_close. exact Hd.
  - cbn [forallb] in H. apply andb_prop in H as [Hv H].
    destruct (written_tok_scalar _ Hv) as [Sv Vv].
    destruct (scalar_token_facts _ Sv) as (Ov & _).
    destruct (IH dedent H Hd) as (next & toks & E & Hnext & _ & Hitems).
    exists (symbol IdHyphen),
           (written_tok v :: Token IdNewLine (PInt 1) None :: next :: toks).
    split; [|split; [left; reflexivity|split; [reflexivity|]]].
    + cbn [flat_map sequence_line app]. rewrite E. reflexivity.
    + cbn [map]. rewrite <- Vv.
      apply (block_items_item (symbol IdHyphen) (written_tok v) [] _
               (Token IdNewLine (PInt 1) None) next toks (map written_value vs)).
      * discriminate.
      * apply value_scalar. exact Ov.
      * reflexivity.
      * exact Hnext.
      * exact Hitems.
Qed.

(** The lines of scalar entries and the token after them. *)
Lemma entry_lines_entries :
  forall closer kvs last,
    closer = IdDedent \/ closer = IdEnd ->
    forallb entry_ok kvs = true -> id last = closer ->
    exists tok toks,
      flat_map entry_tokens kvs ++ [last] = tok :: toks
      /\ (kvs <> [] -> id tok <> IdHyphen)
      /\ line_entries closer tok toks (map entry_pair kvs).
Proof.
  intros closer kvs last Hc. induction kvs as [|[k v] kvs IH]; intros H Hl.
  - exists last, []. split; [reflexivity|]. split; [congruence|].
    apply line_entries_close. exact Hl.
  - cbn [forallb] in H. apply andb_prop in H as [Hkv H].
    apply entry_ok_written in Hkv as [Hk Hv].
    destruct (written_tok_scalar _ Hk) as [Sk Vk].
    destruct (written_tok_scalar _ Hv) as [Sv Vv].
    destruct (scalar_token_facts _ Sk) as (Ok_ & Hk_ & Ek & Nk & _).
    destruct (scalar_token_ids _ Sk) as (Dk & Yk & _).
    destruct (scalar_token_facts _ Sv) as (Ov & _ & _ & Nv & _).
    destruct (IH H Hl) as (next & toks & E & _ & Hp).
    exists (written_tok (Bare k)),
           (symbol IdColon :: written_tok v :: Token IdNewLine (PInt 1) None
              :: next :: toks).
    split; [|split; [intros _; exact Yk|]].
    + cbn [flat_map entry_tokens app fst snd]. rewrite <- E. reflexivity.
    + cbn [map]. unfold entry_pair at 1. cbn [fst snd]. rewrite <- Vk, <- Vv.
      apply (line_entries_line closer (written_tok (Bare k)) [] _ (symbol IdColon)
               (written_tok v) [] _ (Token IdNewLine (PInt 1) None) next toks
               (map entry_pair kvs)).
      * destruct Hc as [-> | ->]; assumption.
      * apply value_scalar. exact Ok_.
      * exact Hk_.
      * reflexivity.
      * exact Nv.
      * apply value_scalar. exact Ov.
      * reflexivity.
      * exact Hp.
Qed.

(** The tokens of the items of a document and [End()] are the entries
    of the document. *)
Lemma item_stream_entries :
  forall items,
    forallb item_ok items = true ->
    exists tok toks,
      flat_map item_stream items ++ [End] = tok :: toks
      /\ id tok <> IdNewLine
      /\ line_entries IdEnd tok toks (map item_pair items).
Proof.
  induction items as [|it items IH]; intros H.
  - exists End, []. split; [reflexivity|]. split; [discriminate|].
    apply line_entries_close. reflexivity.
  - cbn [forallb] in H. apply andb_prop in H as [Hit H].
    destruct (IH H) as (next & toks & E & _ & Hp).
    destruct it as [k v|k w vs|k w kvs]; cbn [item_ok] in Hit.
    + apply entry_ok_written in Hit as [Hk Hv].
      destruct (written_tok_scalar _ Hk) as [Sk Vk].
      destruct (written_tok_scalar _ Hv) as [Sv Vv].
      destruct (scalar_token_facts _ Sk) as (Ok_ & Hk_ & Ek & Nk & _).
      destruct (scalar_token_facts _ Sv) as (Ov & _ & _ & Nv & _).
      exists (written_tok (Bare k)),
             (symbol IdColon :: written_tok v :: Token IdNewLine (PInt 1) None
                :: next :: toks).
      split; [|split; [exact Nk|]].
      * cbn [flat_map]. unfold item_stream at 1.
        cbn [item_lines open_block block_end entry_tokens fst snd].
        rewrite <- E. rewrite <- ?app_assoc. cbn [app]. reflexivity.
      * cbn [map]. unfold item_pair at 1, entry_pair. cbn [fst snd].
        rewrite <- Vk, <- Vv.
        apply (line_entries_line IdEnd (written_tok (Bare k)) [] _ (symbol IdColon)
                 (written_tok v) [] _ (Token IdNewLine (PInt 1) None) next toks
                 (map item_pair items));
          [exact Ek|apply value_scalar; exact Ok_|exact Hk_|reflexivity|exact Nv
          |apply value_scalar; exact Ov|reflexivity|exact Hp].
    + apply andb_prop in Hit as [Hit Hvs]. apply andb_prop in Hit as [Hk Hne]. apply key_ok_written in Hk.
      destruct (written_tok_scalar _ Hk) as [Sk Vk].
      destruct (scalar_token_facts _ Sk) as (Ok_ & Hk_ & Ek & Nk & _).
      destruct (sequence_lines_items vs (Dedent (Z.of_nat (S w)) 0) Hvs eq_refl)
        as (first & body & Eb & _ & Hfirst & Hitems).
      exists (written_tok (Bare k)),
             (symbol IdColon :: Token IdNewLine (PInt 1) None
                :: Token IdIndent (PInt (Z.of_nat (S w))) None
                :: (first :: body) ++ NewLine 0 :: next :: toks).
      split; [|split; [exact Nk|]].
      * cbn [flat_map]. unfold item_stream at 1. cbn [item_lines open_block block_end].
        rewrite <- Eb, <- E. rewrite <- ?app_assoc. cbn [app]. reflexivity.
      * cbn [map]. unfold item_pair at 1. rewrite <- Vk.
        apply (line_entries_below IdEnd (written_tok (Bare k)) [] _ (symbol IdColon)
                 (Token IdNewLine (PInt 1) None)
                 (Token IdIndent (PInt (Z.of_nat (S w))) None) (first :: body) _
                 (NewLine 0) next toks (map item_pair items));
          [exact Ek|apply value_scalar; exact Ok_|exact Hk_|reflexivity|reflexivity
          | |reflexivity|exact Hp].
        apply value_block_list; [reflexivity| |exact Hitems].
        apply Hfirst. destruct vs; [discriminate Hne|discriminate].
    + apply andb_prop in Hit as [Hit Hkvs]. apply andb_prop in Hit as [Hk Hne]. apply key_ok_written in Hk.
      destruct (written_tok_scalar _ Hk) as [Sk Vk].
      destruct (scalar_token_facts _ Sk) as (Ok_ & Hk_ & Ek & Nk & _).
      destruct (entry_lines_entries IdDedent kvs (Dedent (Z.of_nat (S w)) 0)
                  (or_introl eq_refl) Hkvs eq_refl)
        as (first & body & Eb & Hfirst & Hentries).
      exists (written_tok (Bare k)),
             (symbol IdColon :: Token IdNewLine (PInt 1) None
                :: Token IdIndent (PInt (Z.of_nat (S w))) None
                :: (first :: body) ++ NewLine 0 :: next :: toks).
      split; [|split; [exact Nk|]].
      * cbn [flat_map]. unfold item_stream at 1. cbn [item_lines open_block block_end].
        rewrite <- Eb, <- E. rewrite <- ?app_assoc. cbn [app]. reflexivity.
      * cbn [map]. unfold item_pair at 1. rewrite <- Vk.
        apply (line_entries_below IdEnd (written_tok (Bare k)) [] _ (symbol IdColon)
                 (Token IdNewLine (PInt 1) None)
                 (Token IdIndent (PInt (Z.of_nat (S w))) None) (first :: body) _
                 (NewLine 0) next toks (map item_pair items));
          [exact Ek|apply value_scalar; exact Ok_|exact Hk_|reflexivity|reflexivity
          | |reflexivity|exact Hp].
        apply value_block_dict; [reflexivity| |exact Hentries].
        apply Hfirst. destruct kvs; [discriminate Hne|discriminate].
Qed.

Lemma write_items_start :
  forall items, forallb item_ok items = true ->
    starts_with py_isspace (write_items items) = false.
Proof.
  intros [|it items] H; [reflexivity|].
  cbn [forallb] in H. apply andb_prop in H as [Hit _].
  unfold write_items. cbn [map concat_text]. rewrite append_assoc.
  apply (write_item_start it _ Hit).
Qed.

(** A document of items, each a scalar entry [key: value] on one line
    or a key with a block below it, a sequence [- value] or a mapping
    [key: value], indented by one width throughout the block, the last
    item a scalar entry, the document closed by a comment line,
    decodes to the mapping of the keys to the values in the order of
    the lines: a block sequence to the list of its values, a block
    mapping to the mapping of its entries. *)
Theorem parse_written_items :
  forall items,
    items_ok items = true ->
    parse (write_items items)
    = Ok (POrderedDict (assigned [] (map item_pair items))).
Proof.
  intros items Hok. unfold items_ok in Hok. apply andb_prop in Hok as [Hok Hend].
  assert (Hstrip : strip (write_items items) = write_items items).
  { unfold strip, strip_by. rewrite (lstrip_by_keep _ _ (write_items_start items Hok)).
    unfold write_items. apply rstrip_by_keep. reflexivity. }
  rewrite parse_eq, tokenize_eq, Hstrip, (scan_items items Hok).
  cbn [bind]. cbn beta iota.
  destruct (passes_items items None
              (tokenize_init (len (lstripped (write_items items)) + 1))
              Hok Hend (or_introl eq_refl))
    as (st & out & E & Ha).
  { eexists _, _. reflexivity. }
  rewrite E. cbn [bind]. cbn beta iota.
  apply (parse_tokens_alike (flat_map item_stream items ++ [End]) (out ++ [End])).
  - apply Forall2_app; [exact Ha|]. repeat constructor.
  - destruct (item_stream_entries items Hok) as (tok & toks & Es & Hn & Hp).
    rewrite Es. rewrite <- (app_nil_r toks).
    apply (parse_tokens_entries [] tok toks [] _ (Forall_nil _) Hn Hp).
Qed.

Lemma parse_written_items_witness :
  items_ok sample_items = true
  /\ write_items sample_items
     = lines [ String "n" (String "a" (String "m" (String "e" (String ":"
                 (String " " (quoted dquote "x: [1] # y"))))));
               "ports:"; "    - 80"; "    - 4.5"; "    - '- a'";
               "db:"; "  host: localhost"; "  debug: yes"; "  host: null";
               "name: z"; "#" ]
  /\ parse (write_items sample_items)
     = Ok (POrderedDict
             [ (PStr "name", PStr "z");
               (PStr "ports", PList [PInt 80; PFloat (FDec false 45 (-1)); PStr "- a"]);
               (PStr "db", PDict [(PStr "host", PNone); (PStr "debug", PBool true)]) ]).
Proof.
  split; [reflexivity|]. split; [reflexivity|].
  exact (parse_written_items sample_items eq_refl).
Defined.
